(** * stb-tester core: mask algebra, matching engine and frame source

    A shallow embedding of [_stbt/mask.py] and of the matching engine and
    the [Display] class of [_stbt/core.py], with the properties of the
    design document stated against it.

    Conventions.
    - numpy arrays are records of a shape and nested lists (rows, columns,
      channels); [uint8] values are integers in [0, 256) with the 8-bit
      wrap-around written out.
    - [float] values (heat-map scores, thresholds, timestamps) are exact
      rationals [Q]; NaN and rounding are outside the model.
    - Python exceptions are the [Raise] case of [result].
    - OpenCV and GStreamer are external: a function of theirs whose result
      is not fixed by a few lines of documentation is a parameter of the
      section that uses it. *)

From Stdlib Require Import ZArith QArith Qminmax Lia Bool.
From stdpp Require Import base option list gmap strings.

Local Open Scope Z_scope.

(* ===================================================================== *)
(** * Exceptions *)
(* ===================================================================== *)

Inductive exn : Type :=
| ValueError (msg : string)
| TypeError (msg : string)
| AssertionError (msg : string)
| RuntimeError (msg : string)
| ConfigurationError (msg : string)
| KeyError (msg : string)
| IndexError (msg : string)
| NameError (msg : string)
| AttributeError (msg : string)
| Cv2Error (msg : string)
| NoVideo (msg : string).

Inductive result (A : Type) : Type :=
| Ok (a : A)
| Raise (e : exn).
Arguments Ok {A} a.
Arguments Raise {A} e.

Definition rbind {A B} (r : result A) (k : A -> result B) : result B :=
  match r with
  | Ok a => k a
  | Raise e => Raise e
  end.

Definition rmap {A B} (f : A -> B) (r : result A) : result B :=
  rbind r (fun a => Ok (f a)).

Definition rmap2 {A B C} (f : A -> B -> C) (ra : result A) (rb : result B)
  : result C :=
  rbind ra (fun a => rbind rb (fun b => Ok (f a b))).

(* ===================================================================== *)
(** * numpy arrays *)
(* ===================================================================== *)

(** [shape] of a 3-dimensional array: [(shape[0], shape[1], shape[2])]. *)
Record Shape : Type := mkShape { rows : nat; cols : nat; chans : nat }.

Definition Shape_eqb (s t : Shape) : bool :=
  Nat.eqb (rows s) (rows t) && Nat.eqb (cols s) (cols t)
  && Nat.eqb (chans s) (chans t).

(** [shape[:2]] *)
Definition shape2 (s : Shape) : nat * nat := (rows s, cols s).

Record ndarray : Type := mkArr { shape : Shape; data : list (list (list Z)) }.

(** [numpy.full(shape, v, dtype=numpy.uint8)] *)
Definition full (s : Shape) (v : Z) : ndarray :=
  mkArr s (replicate (rows s) (replicate (cols s) (replicate (chans s) v))).

(** Element-wise operators on arrays of one shape. *)
Definition arr_map (f : Z -> Z) (a : ndarray) : ndarray :=
  mkArr (shape a) (map (map (map f)) (data a)).

Definition arr_map2 (f : Z -> Z -> Z) (a b : ndarray) : ndarray :=
  mkArr (shape a) (zip_with (zip_with (zip_with f)) (data a) (data b)).

(** [~v] on a [uint8]: the bitwise complement, reduced to 8 bits. *)
Definition invert8 (v : Z) : Z := Z.lnot v mod 256.

Definition arr_or : ndarray -> ndarray -> ndarray := arr_map2 Z.lor.
Definition arr_and : ndarray -> ndarray -> ndarray := arr_map2 Z.land.
Definition arr_invert : ndarray -> ndarray := arr_map invert8.

(** A bound of a Python slice over a sequence of length [len]: negative
    values count from the end, and the result is clamped to [0, len]. *)
Definition py_bound (len : nat) (i : Z) : nat :=
  if i <? 0 then Z.to_nat (Z.max 0 (i + Z.of_nat len))
  else Z.to_nat (Z.min i (Z.of_nat len)).

Definition in_slice (len : nat) (lo hi : Z) (k : nat) : bool :=
  Nat.leb (py_bound len lo) k && Nat.ltb k (py_bound len hi).

(** [a[y0:y1, x0:x1] = v] *)
Definition assign_slice2 (a : ndarray) (y0 y1 x0 x1 : Z) (v : Z) : ndarray :=
  mkArr (shape a)
    (imap (fun i row =>
             if in_slice (rows (shape a)) y0 y1 i
             then imap (fun j px =>
                          if in_slice (cols (shape a)) x0 x1 j
                          then map (fun _ => v) px else px) row
             else row)
          (data a)).

(** [seq[lo:hi]] *)
Definition py_slice {A} (l : list A) (lo hi : Z) : list A :=
  let n := length l in
  take (py_bound n hi - py_bound n lo)%nat (drop (py_bound n lo) l).

(* ===================================================================== *)
(** * Region *)
(* ===================================================================== *)

(** Region extents are Python numbers: integers, or the infinities that
    bound [Region.ALL]. *)
Inductive Coord : Type :=
| NegInf
| Fin (z : Z)
| PosInf.

Definition Coord_ltb (a b : Coord) : bool :=
  match a, b with
  | NegInf, NegInf => false
  | NegInf, _ => true
  | Fin _, NegInf => false
  | Fin u, Fin v => u <? v
  | Fin _, PosInf => true
  | PosInf, _ => false
  end.

Definition Coord_max (a b : Coord) : Coord := if Coord_ltb a b then b else a.
Definition Coord_min (a b : Coord) : Coord := if Coord_ltb b a then b else a.

Definition Coord_add (a : Coord) (d : Z) : Coord :=
  match a with
  | Fin z => Fin (z + d)
  | other => other
  end.

Module Region.

(** Modelled from the spec: the [Region] type of [_stbt/types.py], which
    is missing from the sources.  The design document describes an integer
    rectangle [(x, y, width, height)] with [right = x + width] and
    [bottom = y + height]; the four extents are stored here, so that the
    unbounded [Region.ALL] is a value of the type. *)
Record t : Type := mk { x : Coord; y : Coord; right : Coord; bottom : Coord }.

(** [Region(x, y, width, height)] *)
Definition make (x0 y0 width height : Z) : t :=
  mk (Fin x0) (Fin y0) (Fin (x0 + width)) (Fin (y0 + height)).

Definition from_extents (x0 y0 right0 bottom0 : Coord) : t :=
  mk x0 y0 right0 bottom0.

Definition ALL : t := mk NegInf NegInf PosInf PosInf.

(** Modelled from the spec: [Region.intersect] of [_stbt/types.py], which
    is missing from the sources.  It is the geometric intersection of two
    rectangles, for which [Region.ALL] is the identity; [None] stands for
    "no region", the value that [Mask.__init__] says [Region.intersect]
    can return, and is what the intersection is when an operand is unset
    or when the rectangles share no pixel. *)
Definition intersect (a b : option t) : option t :=
  match a, b with
  | Some a, Some b =>
      let x0 := Coord_max (x a) (x b) in
      let y0 := Coord_max (y a) (y b) in
      let r0 := Coord_min (right a) (right b) in
      let b0 := Coord_min (bottom a) (bottom b) in
      if Coord_ltb x0 r0 && Coord_ltb y0 b0
      then Some (mk x0 y0 r0 b0) else None
  | _, _ => None
  end.

(** [region.translate(x, y)] *)
Definition translate (r : t) (dx dy : Z) : t :=
  mk (Coord_add (x r) dx) (Coord_add (y r) dy)
     (Coord_add (right r) dx) (Coord_add (bottom r) dy).

(** [region.extend(x=dx, y=dy)] *)
Definition extend (r : t) (dx dy : Z) : t :=
  mk (Coord_add (x r) dx) (Coord_add (y r) dy) (right r) (bottom r).

End Region.

(** Where Python or OpenCV needs an integer (a slice index, a pixel
    coordinate), an infinite extent is a [TypeError]. *)
Definition slice_index (c : Coord) : result Z :=
  match c with
  | Fin z => Ok z
  | _ => Raise (TypeError "an integer is required")
  end.

(* ===================================================================== *)
(** * Mask ([_stbt/mask.py]) *)
(* ===================================================================== *)

Inductive Mask : Type :=
  mkMask { _image : option ndarray;
           _binop : option BinOp;
           _region : option Region.t;
           _invert : bool;
           _array : option ndarray }
with BinOp : Type :=
  mkBinOp { op : string; left : Mask; right : Mask }.

(** What [Mask.__init__] is given as [m]. *)
Inductive MaskArg : Type :=
| ArgImage (a : ndarray)
| ArgBinOp (n : BinOp)
| ArgMask (m : Mask)
| ArgRegion (r : Region.t)
| ArgNone
| ArgOther.

Definition set_array (m : Mask) (a : option ndarray) : Mask :=
  mkMask (_image m) (_binop m) (_region m) (_invert m) a.

Definition set_binop (m : Mask) (n : BinOp) : Mask :=
  mkMask (_image m) (Some n) (_region m) (_invert m) (_array m).

Definition set_invert (m : Mask) (b : bool) : Mask :=
  mkMask (_image m) (_binop m) (_region m) b (_array m).

(** The cached array, when it answers a request for [s]. *)
Definition memo (m : Mask) (s : Shape) : option ndarray :=
  match _array m with
  | Some a => if Shape_eqb (shape a) s then Some a else None
  | None => None
  end.

Section MaskAlgebra.

(** [imgutils.load_image(array, color_channels=...)] converts an image to
    one of the allowed channel counts ([imgutils] is missing from the
    sources). *)
Variable load_image : ndarray -> list nat -> result ndarray.

(** [Mask.__init__(m, invert=...)] *)
Definition Mask_init (m : MaskArg) (invert : bool) : result Mask :=
  match m with
  | ArgImage a =>
      rbind (load_image a [1; 3]%nat)
            (fun img => Ok (mkMask (Some img) None None invert None))
  | ArgBinOp n => Ok (mkMask None (Some n) None invert None)
  | ArgMask m0 =>
      Ok (mkMask (_image m0) (_binop m0) (_region m0)
                 (if invert then negb (_invert m0) else _invert m0) None)
  | ArgRegion r => Ok (mkMask None None (Some r) invert None)
  | ArgNone =>
      Ok (mkMask None None (if invert then Some Region.ALL else None)
                 false None)
  | ArgOther => Raise (TypeError "Expected filename, Image, Mask, or Region.")
  end.

(** The region branch of [to_array]. *)
Definition region_array (r0 : option Region.t) (s : Shape) : result ndarray :=
  let array := full s 0 in
  match Region.intersect r0
          (Some (Region.make 0 0 (Z.of_nat (cols s)) (Z.of_nat (rows s)))) with
  | Some r =>
      rbind (slice_index (Region.y r)) (fun y0 =>
      rbind (slice_index (Region.bottom r)) (fun y1 =>
      rbind (slice_index (Region.x r)) (fun x0 =>
      rbind (slice_index (Region.right r)) (fun x1 =>
      Ok (assign_slice2 array y0 y1 x0 x1 255)))))
  | None => Ok array
  end.

(** The image branch of [to_array]. *)
Definition image_array (img : ndarray) (s : Shape) : result ndarray :=
  if negb (Nat.eqb (rows (shape img)) (rows s)
           && Nat.eqb (cols (shape img)) (cols s))
  then Raise (ValueError "Mask shape and required shape don't match")
  else if negb (Nat.eqb (chans (shape img)) (chans s))
       then load_image img [chans s]
       else Ok img.

(** [if self._invert: array = ~array; self._array = array; return it] *)
Definition finish (m : Mask) (r : result ndarray) : Mask * result ndarray :=
  match r with
  | Ok array =>
      let array := if _invert m then arr_invert array else array in
      (set_array m (Some array), Ok array)
  | Raise e => (m, Raise e)
  end.

(** [Mask.to_array(shape)].  The mask is returned with the arrays that the
    call has memoised in it and in its operands; an exception leaves the
    memos written before it in place.  An operand that two masks share is a
    copy in each of them here: sharing decides which memos are hit, not
    which arrays are returned (see [to_array_memo]). *)
Fixpoint to_array (m : Mask) (s : Shape) {struct m} : Mask * result ndarray :=
  match memo m s with
  | Some a => (m, Ok a)
  | None =>
      match _image m with
      | Some img => finish m (image_array img s)
      | None =>
          match _binop m with
          | Some n =>
              if String.eqb (op n) "+" || String.eqb (op n) "-" then
                let (l', rl) := to_array (left n) s in
                match rl with
                | Raise e => (set_binop m (mkBinOp (op n) l' (right n)), Raise e)
                | Ok al =>
                    let (r', rr) := to_array (right n) s in
                    let m' := set_binop m (mkBinOp (op n) l' r') in
                    match rr with
                    | Raise e => (m', Raise e)
                    | Ok ar =>
                        finish m'
                          (Ok (if String.eqb (op n) "+"
                               then arr_or al ar
                               else arr_and al (arr_invert ar)))
                    end
                end
              else (m, Raise (AssertionError "Unreachable: Unknown op"))
          | None => finish m (region_array (_region m) s)
          end
      end
  end.

(** [Mask.__add__], [Mask.__sub__] and [Mask.__invert__].  [NotImplemented]
    ends in Python's [TypeError] for the operand. *)
Definition binop_with (o : string) (self : Mask) (other : MaskArg) : result Mask :=
  match other with
  | ArgRegion _ | ArgMask _ =>
      rbind (Mask_init other false) (fun rhs =>
      Mask_init (ArgBinOp (mkBinOp o self rhs)) false)
  | _ => Raise (TypeError "unsupported operand type(s)")
  end.

Definition Mask_add : Mask -> MaskArg -> result Mask := binop_with "+".
Definition Mask_sub : Mask -> MaskArg -> result Mask := binop_with "-".
Definition Mask_invert (self : Mask) : result Mask := Mask_init (ArgMask self) true.

End MaskAlgebra.

(** ** Coverage, without the memo

    [coverage] is the rasterisation that the design document describes: a
    fold over the mask tree that never looks at a memoised array.  [to_array]
    is compared with it below. *)
Section Coverage.

Variable load_image : ndarray -> list nat -> result ndarray.

Definition apply_invert (b : bool) (a : ndarray) : ndarray :=
  if b then arr_invert a else a.

Definition difference (a b : ndarray) : ndarray := arr_and a (arr_invert b).

Fixpoint coverage (m : Mask) (s : Shape) {struct m} : result ndarray :=
  rmap (apply_invert (_invert m))
    match _image m with
    | Some img => image_array load_image img s
    | None =>
        match _binop m with
        | Some n =>
            if String.eqb (op n) "+"
            then rmap2 arr_or (coverage (left n) s) (coverage (right n) s)
            else if String.eqb (op n) "-"
            then rmap2 difference (coverage (left n) s) (coverage (right n) s)
            else Raise (AssertionError "Unreachable: Unknown op")
        | None => region_array (_region m) s
        end
    end.

(** Every memoised array of the tree is the coverage of its node for the
    shape it has. *)
Fixpoint memo_sound (m : Mask) {struct m} : Prop :=
  (forall a, _array m = Some a -> coverage m (shape a) = Ok a)
  /\ match _binop m with
     | Some n => memo_sound (left n) /\ memo_sound (right n)
     | None => True
     end.

(** The mask with every memo dropped. *)
Fixpoint forget (m : Mask) {struct m} : Mask :=
  mkMask (_image m)
         match _binop m with
         | Some n => Some (mkBinOp (op n) (forget (left n)) (forget (right n)))
         | None => None
         end
         (_region m) (_invert m) None.

End Coverage.

(** Induction over the mask tree. *)
Section MaskInduction.

Variable P : Mask -> Prop.
Hypothesis Hleaf : forall i r v a, P (mkMask i None r v a).
Hypothesis Hnode : forall i o l r' r v a,
    P l -> P r' -> P (mkMask i (Some (mkBinOp o l r')) r v a).

Fixpoint Mask_tree_ind (m : Mask) : P m :=
  match m with
  | mkMask i None r v a => Hleaf i r v a
  | mkMask i (Some (mkBinOp o l r')) r v a =>
      Hnode i o l r' r v a (Mask_tree_ind l) (Mask_tree_ind r')
  end.

End MaskInduction.

(** ** A reference [load_image]

    One implementation of the interface, used to run the definitions on
    examples: an image that has an allowed channel count is returned as it
    is; a grey image becomes BGR by repeating its channel; a BGR image
    becomes grey by the luma weights in 14-bit fixed point. *)
Definition gray_of_bgr (px : list Z) : list Z :=
  match px with
  | [b; g; r] => [(b * 1868 + g * 9617 + r * 4899 + 8192) / 16384]
  | _ => px
  end.

Definition bgr_of_gray (px : list Z) : list Z :=
  match px with
  | [v] => [v; v; v]
  | _ => px
  end.

Definition load_image_ref (img : ndarray) (color_channels : list nat)
  : result ndarray :=
  let c := chans (shape img) in
  if existsb (Nat.eqb c) color_channels then Ok img
  else if Nat.eqb c 1 && existsb (Nat.eqb 3%nat) color_channels
  then Ok (mkArr (mkShape (rows (shape img)) (cols (shape img)) 3)
                 (map (map bgr_of_gray) (data img)))
  else if Nat.eqb c 3 && existsb (Nat.eqb 1%nat) color_channels
  then Ok (mkArr (mkShape (rows (shape img)) (cols (shape img)) 1)
                 (map (map gray_of_bgr) (data img)))
  else Raise (ValueError "Expected an image with other channels").

(* ===================================================================== *)
(** * OpenCV *)
(* ===================================================================== *)

(** Two-dimensional arrays: heat maps ([float32]), grey images and
    region-of-interest masks ([uint8]).  The engine never builds an empty
    one, so the shape is read off the rows. *)
Definition array2 (A : Type) : Type := list (list A).

Definition shape_2d {A} (a : array2 A) : nat * nat :=
  (length a, match a with [] => 0%nat | row :: _ => length row end).

Definition full_2d {A} (h w : nat) (v : A) : array2 A :=
  replicate h (replicate w v).

Definition Qltb (a b : Q) : bool := negb (Qle_bool b a).

Module Position.
Record t : Type := mk { x : Z; y : Z }.
End Position.

(** The cells of an array in scan order, each with its [(x, y)]. *)
Definition scan_cells {A} (a : array2 A) : list (Position.t * A) :=
  concat (imap (fun y row =>
                  imap (fun x v => (Position.mk (Z.of_nat x) (Z.of_nat y), v)) row)
               a).

(** The running minimum and maximum of [cv2.minMaxLoc]: a later cell
    replaces an earlier one only when it is strictly better. *)
Definition minmax_step (acc : Q * Q * Position.t * Position.t)
           (c : Position.t * Q) : Q * Q * Position.t * Position.t :=
  let '(mn, mx, pmn, pmx) := acc in
  let (p, v) := c in
  (if Qltb v mn then v else mn,
   if Qltb mx v then v else mx,
   if Qltb v mn then p else pmn,
   if Qltb mx v then p else pmx).

(** [cv2.minMaxLoc(a)]: [(min_value, max_value, min_location, max_location)] *)
Definition minMaxLoc (a : array2 Q) : result (Q * Q * Position.t * Position.t) :=
  match scan_cells a with
  | [] => Raise (Cv2Error "minMaxLoc: empty array")
  | (p, v) :: rest => Ok (fold_left minmax_step rest (v, v, p, p))
  end.

Definition in_rect (x1 y1 x2 y2 : Z) (p : Position.t) : bool :=
  (Z.min x1 x2 <=? Position.x p) && (Position.x p <=? Z.max x1 x2)
  && (Z.min y1 y2 <=? Position.y p) && (Position.y p <=? Z.max y1 y2).

(** [cv2.rectangle(a, (x1, y1), (x2, y2), v, cv2.FILLED)]: both corners are
    inside the rectangle, which is clipped to the array. *)
Definition rectangle {A} (a : array2 A) (x1 y1 x2 y2 : Z) (v : A) : array2 A :=
  imap (fun y row =>
          imap (fun x old =>
                  if in_rect x1 y1 x2 y2 (Position.mk (Z.of_nat x) (Z.of_nat y))
                  then v else old)
               row)
       a.

(** [cv2.threshold(a, thresh, maxval, cv2.THRESH_BINARY)] and
    [cv2.THRESH_BINARY_INV], on a heat map; the result is cast with
    [astype(numpy.uint8)] by the caller. *)
Definition threshold_binary (a : array2 Q) (thresh : Q) (maxval : Z) : array2 Z :=
  map (map (fun v => if Qltb thresh v then maxval else 0)) a.

Definition threshold_binary_inv (a : array2 Q) (thresh : Q) (maxval : Z) : array2 Z :=
  map (map (fun v => if Qltb thresh v then 0 else maxval)) a.

(** [cv2.threshold] with [cv2.THRESH_BINARY] on a [uint8] image. *)
Definition threshold_u8 (a : array2 Z) (thresh : Z) (maxval : Z) : array2 Z :=
  map (map (fun v => if thresh <? v then maxval else 0)) a.

(** [cv2.absdiff(a, b)]: the arrays must have one size. *)
Definition absdiff (a b : array2 Z) : result (array2 Z) :=
  if bool_decide (map length a = map length b)
  then Ok (zip_with (zip_with (fun u v => Z.abs (u - v))) a b)
  else Raise (Cv2Error "absdiff: sizes of input arguments do not match").

(** [cv2.getStructuringElement(cv2.MORPH_ELLIPSE, (3, 3))]: the ellipse
    inscribed in a 3x3 square is the cross. *)
Definition MORPH_ELLIPSE_3x3 : array2 bool :=
  [[false; true; false]; [true; true; true]; [false; true; false]].

(** The offsets [(dx, dy)] of a 3x3 structuring element from its anchor,
    the centre. *)
Definition kernel_offsets (kernel : array2 bool) : list (Z * Z) :=
  omap (fun c : Position.t * bool =>
          if c.2 then Some (Position.x c.1 - 1, Position.y c.1 - 1) else None)
       (scan_cells kernel).

Definition pixel_at {A} (a : array2 A) (x y : Z) : option A :=
  if (x <? 0) || (y <? 0) then None
  else match a !! Z.to_nat y with
       | Some row => row !! Z.to_nat x
       | None => None
       end.

(** One pass of [cv2.erode]: the minimum over the pixels under the
    structuring element; pixels beyond the border do not count. *)
Definition erode_pass (kernel : array2 bool) (a : array2 Z) : array2 Z :=
  imap (fun y row =>
          imap (fun x (_ : Z) =>
                  fold_right
                    (fun (d : Z * Z) acc =>
                       match pixel_at a (Z.of_nat x + d.1) (Z.of_nat y + d.2) with
                       | Some v => Z.min v acc
                       | None => acc
                       end)
                    255 (kernel_offsets kernel))
               row)
       a.

(** [cv2.erode(a, kernel, iterations=n)] *)
Definition erode (a : array2 Z) (kernel : array2 bool) (iterations : nat) : array2 Z :=
  Nat.iter iterations (erode_pass kernel) a.

(** [cv2.countNonZero(a)] *)
Definition countNonZero (a : array2 Z) : nat :=
  length (filter (fun v => v <> 0) (concat a)).

Inductive TemplateMatchMode : Type :=
| TM_SQDIFF_NORMED
| TM_CCORR_NORMED
| TM_CCOEFF_NORMED.

Definition TemplateMatchMode_eqb (a b : TemplateMatchMode) : bool :=
  match a, b with
  | TM_SQDIFF_NORMED, TM_SQDIFF_NORMED
  | TM_CCORR_NORMED, TM_CCORR_NORMED
  | TM_CCOEFF_NORMED, TM_CCOEFF_NORMED => true
  | _, _ => false
  end.

(** Order of parameters consistent with [cv2.boundingRect]. *)
Module _Rect.
Record t : Type := mk { x : Z; y : Z; w : Z; h : Z }.
End _Rect.

(** Order of parameters consistent with [numpy.ndarray.shape]. *)
Module _Size.
Record t : Type := mk { h : Z; w : Z }.
End _Size.

(** The OpenCV functions whose results the engine only passes on. *)
Class Cv2 : Type := {
  pyrDown : ndarray -> ndarray;
  pyrUp : array2 Z -> array2 Z;
  matchTemplate : ndarray -> ndarray -> TemplateMatchMode -> array2 Q;
  find_contour_boxes : array2 Z -> list _Rect.t;
  cvtColor_BGR2GRAY : ndarray -> array2 Z;
  normalize_MINMAX : array2 Z -> array2 Z
}.

(** The sizes that OpenCV documents for the results of [pyrDown], [pyrUp],
    [cvtColor] and [normalize]. *)
Record Cv2Sizes (cv : Cv2) : Prop := {
  pyrDown_shape : forall a,
      shape (pyrDown a)
      = mkShape ((rows (shape a) + 1) / 2) ((cols (shape a) + 1) / 2)
                (chans (shape a));
  pyrUp_shape : forall m,
      shape_2d (pyrUp m) = ((2 * (shape_2d m).1)%nat, (2 * (shape_2d m).2)%nat);
  cvtColor_size : forall a,
      map length (cvtColor_BGR2GRAY a) = map length (data a);
  normalize_size : forall g,
      map length (normalize_MINMAX g) = map length g
}.

(** An array whose rows and columns are the ones that its shape says. *)
Definition well_formed (a : ndarray) : Prop :=
  length (data a) = rows (shape a)
  /\ Forall (fun row => length row = cols (shape a)) (data a).

(* ===================================================================== *)
(** * Generators *)
(* ===================================================================== *)

(** One call of [next()] on a Python generator whose suspended frame is a
    value of [S]. *)
Inductive gen_step (Y S : Type) : Type :=
| Yielded (y : Y) (s : S)
| Stopped
| Raised (e : exn).
Arguments Yielded {Y S} y s.
Arguments Stopped {Y S}.
Arguments Raised {Y S} e.

(** How the consumption of a generator ended: it returned, it raised, or the
    consumer stopped asking while it was suspended at a [yield]. *)
Inductive ending : Type :=
| Finished
| Failed (e : exn)
| Suspended.

(** The values of the first [fuel] calls of [next()]. *)
Fixpoint run {Y S} (next : S -> gen_step Y S) (fuel : nat) (s : S)
  : list Y * ending :=
  match fuel with
  | O => ([], Suspended)
  | S n =>
      match next s with
      | Yielded y s' => let (ys, e) := run next n s' in (y :: ys, e)
      | Stopped => ([], Finished)
      | Raised e => ([], Failed e)
      end
  end.

(* ===================================================================== *)
(** * The matching engine ([_stbt/core.py]) *)
(* ===================================================================== *)

Record MatchParameters : Type := mkMatchParameters {
  match_method : string;
  match_threshold : Q;
  confirm_method : string;
  confirm_threshold : Q;
  erode_passes : nat
}.

(** The checks of [MatchParameters.__init__]. *)
Definition MatchParameters_init (mm : string) (mt : Q) (cm : string) (ct : Q)
           (ep : nat) : result MatchParameters :=
  if negb (String.eqb mm "sqdiff-normed" || String.eqb mm "ccorr-normed"
           || String.eqb mm "ccoeff-normed")
  then Raise (ValueError "Invalid match_method")
  else if negb (String.eqb cm "none" || String.eqb cm "absdiff"
                || String.eqb cm "normed-absdiff")
  then Raise (ValueError "Invalid confirm_method")
  else Ok (mkMatchParameters mm mt cm ct ep).

(** [_Rect.expand], [_Rect.shrink] and [_Rect.to_slice]. *)
Definition _Rect_expand (r : _Rect.t) (size : _Size.t) : _Rect.t :=
  _Rect.mk (_Rect.x r) (_Rect.y r) (_Rect.w r + _Size.w size) (_Rect.h r + _Size.h size).

Definition _Rect_shrink (r : _Rect.t) (size : _Size.t) : _Rect.t :=
  _Rect.mk (_Rect.x r) (_Rect.y r) (_Rect.w r - _Size.w size) (_Rect.h r - _Size.h size).

(** [a[r.to_slice()]] on an image. *)
Definition image_slice (a : ndarray) (r : _Rect.t) : ndarray :=
  let rs := py_slice (data a) (_Rect.y r) (_Rect.y r + _Rect.h r) in
  let n := cols (shape a) in
  mkArr (mkShape (length rs)
                 (py_bound n (_Rect.x r + _Rect.w r) - py_bound n (_Rect.x r))
                 (chans (shape a)))
        (map (fun row => py_slice row (_Rect.x r) (_Rect.x r + _Rect.w r)) rs).

(** [cv2.matchTemplate(..., result=heatmap[roi.to_slice()])]: OpenCV writes
    into the array it is given when that has the size of the result, and
    leaves it alone otherwise. *)
Definition write_result (heatmap : array2 Q) (roi : _Rect.t) (res : array2 Q)
  : array2 Q :=
  let h := length heatmap in
  let w := (shape_2d heatmap).2 in
  let y0 := py_bound h (_Rect.y roi) in
  let y1 := py_bound h (_Rect.y roi + _Rect.h roi) in
  let x0 := py_bound w (_Rect.x roi) in
  let x1 := py_bound w (_Rect.x roi + _Rect.w roi) in
  if bool_decide (map length res = replicate (y1 - y0) (x1 - x0)%nat)
  then imap (fun y row =>
               if Nat.leb y0 y && Nat.ltb y y1
               then imap (fun x old =>
                            if Nat.leb x0 x && Nat.ltb x x1
                            then default old
                                   (res !! (y - y0)%nat ≫= fun r => r !! (x - x0)%nat)
                            else old) row
               else row)
            heatmap
  else heatmap.

(** [_upsample(position, levels)] *)
Definition _upsample (position : Position.t) (levels : nat) : Position.t :=
  Position.mk (Position.x position * 2 ^ Z.of_nat levels)
              (Position.y position * 2 ^ Z.of_nat levels).

(** [Region(x, y, width=w, height=h)] at a position. *)
Definition Region_at (p : Position.t) (width height : nat) : Region.t :=
  Region.make (Position.x p) (Position.y p) (Z.of_nat width) (Z.of_nat height).

(** [region.width] and [region.height] *)
Definition Region_width (r : Region.t) : result Z :=
  rbind (slice_index (Region.right r)) (fun a =>
  rbind (slice_index (Region.x r)) (fun b => Ok (a - b))).

Definition Region_height (r : Region.t) : result Z :=
  rbind (slice_index (Region.bottom r)) (fun a =>
  rbind (slice_index (Region.y r)) (fun b => Ok (a - b))).

(** [seq[i]] for a level of a pyramid. *)
Definition index {A} (l : list A) (i : nat) : result A :=
  match l !! i with
  | Some a => Ok a
  | None => Raise (IndexError "list index out of range")
  end.

(** [max(0, v)] *)
Definition max0 (v : Q) : Q := if Qltb 0 v then v else 0.

(** What [_find_candidate_matches] yields: [(i, matched, region, certainty)]. *)
Record Candidate : Type := mkCandidate {
  cand_i : nat;
  cand_matched : bool;
  cand_region : Region.t;
  cand_certainty : Q
}.

(** The local variables of [_find_candidate_matches] that are live at its
    [yield]. *)
Record CandidateFrame : Type := mkCandidateFrame {
  cf_i : nat;
  cf_heatmap : array2 Q;
  cf_method : TemplateMatchMode;
  cf_threshold : Q;
  cf_level : nat;
  cf_matched : bool;
  cf_region : Region.t;
  cf_certainty : Q
}.

Inductive CandidateGen : Type :=
| CandidateStart
| CandidateAtYield (f : CandidateFrame).

(** What [_find_matches] yields:
    [(confirmed, list(region), first_pass_matched, first_pass_certainty)]. *)
Record Found : Type := mkFound {
  found_matched : bool;
  found_region : list Coord;
  found_first_pass_matched : bool;
  found_first_pass_certainty : Q
}.

Inductive FindGen : Type :=
| FindStart
| FindAtYield (c : CandidateGen) (confirmed : bool).

Section MatchingEngine.

Context {cv : Cv2}.

(** [get_config("match", "pyramid_levels", type_=int)] *)
Variable pyramid_levels : Z.

(** The levels that [_build_pyramid] appends after [last], in at most [n]
    rounds of its loop. *)
Fixpoint build_pyramid_loop (n : nat) (last : ndarray) : list ndarray :=
  match n with
  | O => []
  | S n' =>
      if Nat.ltb (rows (shape last)) 20 || Nat.ltb (cols (shape last)) 20
      then []
      else let down := pyrDown last in down :: build_pyramid_loop n' down
  end.

(** [_build_pyramid(image, levels)] *)
Definition _build_pyramid (image : ndarray) (levels : Z) : list ndarray :=
  image :: build_pyramid_loop (Z.to_nat (levels - 1)) image.

(** The regions of interest that [_match_template] searches. *)
Definition search_rois (heatmap : array2 Q) (roi_mask : option (array2 Z))
  : list _Rect.t :=
  match roi_mask with
  | None => [_Rect.mk 0 0 (Z.of_nat (shape_2d heatmap).2)
                      (Z.of_nat (shape_2d heatmap).1)]
  | Some m => find_contour_boxes m
  end.

(** [_match_template(image, template, method, roi_mask, level, imwrite)];
    the debug images are left out. *)
Definition _match_template (image template : ndarray) (method : TemplateMatchMode)
           (roi_mask : option (array2 Z)) : result (array2 Q) :=
  let h := Z.of_nat (rows (shape image)) - Z.of_nat (rows (shape template)) + 1 in
  let w := Z.of_nat (cols (shape image)) - Z.of_nat (cols (shape template)) + 1 in
  if (h <? 0) || (w <? 0)
  then Raise (ValueError "negative dimensions are not allowed")
  else
    let matches_heatmap :=
      full_2d (Z.to_nat h) (Z.to_nat w)
              (if TemplateMatchMode_eqb method TM_SQDIFF_NORMED then 1%Q else 0%Q) in
    let size := _Size.mk (Z.of_nat (rows (shape template)))
                         (Z.of_nat (cols (shape template))) in
    Ok (fold_left
          (fun heatmap roi =>
             let r := _Rect_shrink (_Rect_expand roi size) (_Size.mk 1 1) in
             write_result heatmap roi
               (matchTemplate (image_slice image r) template method))
          (search_rois matches_heatmap roi_mask)
          matches_heatmap).

(** [_find_best_match_position(matches_heatmap, method, threshold, level)] *)
Definition _find_best_match_position (matches_heatmap : array2 Q)
           (method : TemplateMatchMode) (threshold : Q)
  : result (bool * Position.t * Q) :=
  rbind (minMaxLoc matches_heatmap) (fun '(min_value, max_value, min_location, max_location) =>
  let (certainty, best_match_position) :=
    match method with
    | TM_SQDIFF_NORMED => ((1 - min_value)%Q, min_location)
    | TM_CCORR_NORMED | TM_CCOEFF_NORMED => (max_value, max_location)
    end in
  let matched := Qle_bool threshold certainty in
  Ok (matched, best_match_position, certainty)).

(** The dictionary of [_find_candidate_matches] from the name of a method
    to OpenCV's constant. *)
Definition method_of (name : string) : result TemplateMatchMode :=
  if String.eqb name "sqdiff-normed" then Ok TM_SQDIFF_NORMED
  else if String.eqb name "ccorr-normed" then Ok TM_CCORR_NORMED
  else if String.eqb name "ccoeff-normed" then Ok TM_CCOEFF_NORMED
  else Raise (KeyError name).

(** The first lines of the body of the loop over the levels: the region of
    interest that the previous, coarser level left is dropped when it is
    narrow, and scaled up otherwise. *)
Definition upsample_roi (roi_mask : option (array2 Z)) : option (array2 Z) :=
  match roi_mask with
  | Some m =>
      if Nat.ltb (shape_2d m).1 3 || Nat.ltb (shape_2d m).2 3
      then None
      else Some (pyrUp m)
  | None => None
  end.

(** The values of the loop variables after one level. *)
Record LevelResult : Type := mkLevelResult {
  lr_level : nat;
  lr_heatmap : array2 Q;
  lr_threshold : Q;
  lr_matched : bool;
  lr_position : Position.t;
  lr_certainty : Q
}.

Section Levels.

Variable match_parameters : MatchParameters.
Variable method : TemplateMatchMode.
Variables image_pyramid template_pyramid : list ndarray.

(** [for level in reversed(range(len(template_pyramid)))]: the levels that
    are left, the region of interest and the loop variables as the previous
    round left them. *)
Fixpoint search_levels (levels : list nat) (roi_mask : option (array2 Z))
         (last : option LevelResult) : result (option LevelResult) :=
  match levels with
  | [] => Ok last
  | level :: rest =>
      let roi_mask := upsample_roi roi_mask in
      rbind (index image_pyramid level) (fun image =>
      rbind (index template_pyramid level) (fun template =>
      rbind (_match_template image template method roi_mask) (fun heatmap =>
      let threshold :=
        max0 (match_threshold match_parameters
              - (if Nat.ltb 0 level then 2 # 10 else 0))%Q in
      rbind (_find_best_match_position heatmap method threshold)
            (fun '(matched, best_match_position, certainty) =>
      let this := mkLevelResult level heatmap threshold matched
                                best_match_position certainty in
      if negb matched then Ok (Some this)
      else
        let roi_mask :=
          if TemplateMatchMode_eqb method TM_SQDIFF_NORMED
          then threshold_binary_inv heatmap (1 - threshold)%Q 255
          else threshold_binary heatmap threshold 255 in
        search_levels rest (Some roi_mask) (Some this)))))
  end.

End Levels.

Section FindMatches.

Variables image template : ndarray.
Variable match_parameters : MatchParameters.

(** The frame of [_find_candidate_matches] at its first [yield], from what
    the loop over the levels has left. *)
Definition frame_of_level (method : TemplateMatchMode) (l : LevelResult)
  : CandidateFrame :=
  mkCandidateFrame 0 (lr_heatmap l) method (lr_threshold l) (lr_level l)
    (lr_matched l)
    (Region_at (_upsample (lr_position l) (lr_level l))
               (cols (shape template)) (rows (shape template)))
    (lr_certainty l).

(** [_find_candidate_matches] up to its first [yield]. *)
Definition first_candidate : result CandidateFrame :=
  rbind (method_of (match_method match_parameters)) (fun method =>
  let levels := pyramid_levels in
  if levels <=? 0
  then Raise (ConfigurationError "'match.pyramid_levels' must be > 0")
  else
    let template_pyramid := _build_pyramid template levels in
    let image_pyramid :=
      _build_pyramid image (Z.of_nat (length template_pyramid)) in
    rbind (search_levels match_parameters method image_pyramid template_pyramid
             (rev (seq 0 (length template_pyramid))) None None)
          (fun last =>
    match last with
    | None => Raise (NameError "name 'best_match_position' is not defined")
    | Some l => Ok (frame_of_level method l)
    end)).

(** [_find_candidate_matches] from one [yield] to the next. *)
Definition next_candidate (f : CandidateFrame) : gen_step Candidate CandidateGen :=
  if negb (cf_matched f) then Stopped
  else if negb (Nat.eqb (cf_level f) 0) then Raised (AssertionError "level == 0")
  else
    let region := cf_region f in
    match
      rbind (Region_width region) (fun width =>
      rbind (Region_height region) (fun height =>
      let exclude := Region.extend region (- (width - 1)) (- (height - 1)) in
      let mask_value :=
        if String.eqb (match_method match_parameters) "sqdiff-normed"
        then 255%Q else 0%Q in
      rbind (slice_index (Region.x exclude)) (fun x1 =>
      rbind (slice_index (Region.y exclude)) (fun y1 =>
      rbind (slice_index (Region.right exclude)) (fun right =>
      rbind (slice_index (Region.bottom exclude)) (fun bottom =>
      let heatmap :=
        rectangle (cf_heatmap f) x1 y1 (right - 1) (bottom - 1) mask_value in
      rbind (_find_best_match_position heatmap (cf_method f) (cf_threshold f))
            (fun '(matched, best_match_position, certainty) =>
      Ok (mkCandidateFrame (S (cf_i f)) heatmap (cf_method f) (cf_threshold f)
            (cf_level f) matched
            (Region_at best_match_position
                       (cols (shape template)) (rows (shape template)))
            certainty))))))))
    with
    | Ok f' =>
        Yielded (mkCandidate (cf_i f') (cf_matched f') (cf_region f')
                             (cf_certainty f'))
                (CandidateAtYield f')
    | Raise e => Raised e
    end.

(** [next()] on [_find_candidate_matches(image, template, match_parameters,
    imglog)]. *)
Definition _find_candidate_matches (g : CandidateGen)
  : gen_step Candidate CandidateGen :=
  match g with
  | CandidateStart =>
      match first_candidate with
      | Ok f =>
          Yielded (mkCandidate (cf_i f) (cf_matched f) (cf_region f)
                               (cf_certainty f))
                  (CandidateAtYield f)
      | Raise e => Raised e
      end
  | CandidateAtYield f => next_candidate f
  end.

(** [int(v)]: towards zero. *)
Definition int_of (v : Q) : Z := Z.quot (Qnum v) (Zpos (Qden v)).

(** [image[region.y:region.bottom, region.x:region.right]] *)
Definition region_slice (a : ndarray) (region : Region.t) : result ndarray :=
  rbind (slice_index (Region.y region)) (fun y0 =>
  rbind (slice_index (Region.bottom region)) (fun y1 =>
  rbind (slice_index (Region.x region)) (fun x0 =>
  rbind (slice_index (Region.right region)) (fun x1 =>
  Ok (image_slice a (_Rect.mk x0 y0 (x1 - x0) (y1 - y0))))))).

(** [_confirm_match(image, region, template, match_parameters, imwrite)] *)
Definition _confirm_match (region : Region.t) : result bool :=
  if String.eqb (confirm_method match_parameters) "none" then Ok true
  else
    rbind (region_slice image region) (fun roi =>
    let image_gray := cvtColor_BGR2GRAY roi in
    let template_gray := cvtColor_BGR2GRAY template in
    let normed := String.eqb (confirm_method match_parameters) "normed-absdiff" in
    let image_gray := if normed then normalize_MINMAX image_gray else image_gray in
    let template_gray :=
      if normed then normalize_MINMAX template_gray else template_gray in
    rbind (absdiff image_gray template_gray) (fun absdiff =>
    let thresholded :=
      threshold_u8 absdiff
        (int_of (confirm_threshold match_parameters * 255)%Q) 255 in
    let eroded :=
      erode thresholded MORPH_ELLIPSE_3x3 (erode_passes match_parameters) in
    Ok (Nat.eqb (countNonZero eroded) 0))).

(** [list(region)] *)
Definition Region_list (r : Region.t) : list Coord :=
  [Region.x r; Region.y r; Region.right r; Region.bottom r].

(** The body of the [for] loop of [_find_matches], from asking
    [_find_candidate_matches] for its next value to the [yield]. *)
Definition find_matches_round (c : CandidateGen) : gen_step Found FindGen :=
  match _find_candidate_matches c with
  | Yielded cand c' =>
      match (if cand_matched cand then _confirm_match (cand_region cand)
             else Ok false) with
      | Ok confirmed =>
          Yielded (mkFound confirmed (Region_list (cand_region cand))
                           (cand_matched cand) (cand_certainty cand))
                  (FindAtYield c' confirmed)
      | Raise e => Raised e
      end
  | Stopped => Stopped
  | Raised e => Raised e
  end.

(** [next()] on [_find_matches(image, template, match_parameters, imglog)].
    The decorator [imgproc_cache.memoize_iterator] replays the same values
    and is left out. *)
Definition _find_matches (g : FindGen) : gen_step Found FindGen :=
  match g with
  | FindStart =>
      if Nat.ltb (rows (shape image)) (rows (shape template))
         || Nat.ltb (cols (shape image)) (cols (shape template))
      then Raised (ValueError "Source image must be larger than template image")
      else if Nat.ltb (rows (shape template)) 1
              || Nat.ltb (cols (shape template)) 1
      then Raised (ValueError "Template image must contain some data")
      else if negb (Nat.eqb (chans (shape template)) 3)
      then Raised (ValueError "Template image must be 3 channel BGR")
      else find_matches_round CandidateStart
  | FindAtYield c confirmed =>
      if negb confirmed then Stopped else find_matches_round c
  end.

End FindMatches.

End MatchingEngine.

(* ===================================================================== *)
(** * [DeviceUnderTest.match_all] *)
(* ===================================================================== *)

(** A video frame: the pixels and, when it came from the capture pipeline,
    the time of capture. *)
Record Frame : Type := mkFrame { time : option Q; pixels : ndarray }.

Record MatchResult : Type := mkMatchResult {
  mr_time : option Q;
  match_ : bool;
  region : Region.t;
  first_pass_result : Q;
  frame : Frame;
  image : ndarray;
  _first_pass_matched : bool
}.

(** The frame of [_match_all] suspended at its [yield]: the region that was
    searched, the pixels of it, and the generator it iterates over. *)
Inductive MatchAllGen : Type :=
| MatchAllStart
| MatchAllAtYield (searched : Region.t) (cropped : ndarray) (g : FindGen).

Section DeviceUnderTest.

Context {cv : Cv2}.
Variable pyramid_levels : Z.

(** [imgutils._image_region] and [imgutils.crop], which are missing from
    the sources. *)
Variable _image_region : Frame -> Region.t.
Variable crop : Frame -> option Region.t -> result ndarray.

(** The arguments of [_match_all], with [image] loaded, [match_parameters]
    defaulted, and [frame] taken from [get_frame()] when it was [None]. *)
Variable template : ndarray.
Variable the_frame : result Frame.
Variable match_parameters : MatchParameters.
Variable search_region : option Region.t.

(** [Region.from_extents( *match_region).translate(region.x, region.y)] *)
Definition located (extents : list Coord) (searched : Region.t) : result Region.t :=
  match extents with
  | [x0; y0; right0; bottom0] =>
      rbind (slice_index (Region.x searched)) (fun dx =>
      rbind (slice_index (Region.y searched)) (fun dy =>
      Ok (Region.translate (Region.from_extents x0 y0 right0 bottom0) dx dy)))
  | _ => Raise (TypeError "from_extents() takes exactly 4 arguments")
  end.

(** The body of the [for] loop of [_match_all], from asking [_find_matches]
    for its next value to the [yield].  Logging and drawing on the frame are
    left out. *)
Definition match_all_round (fr : Frame) (searched : Region.t) (cropped : ndarray)
           (g : FindGen) : gen_step MatchResult MatchAllGen :=
  match _find_matches pyramid_levels cropped template match_parameters g with
  | Yielded f g' =>
      match located (found_region f) searched with
      | Ok match_region =>
          Yielded (mkMatchResult (time fr) (found_matched f) match_region
                     (found_first_pass_certainty f) fr template
                     (found_first_pass_matched f))
                  (MatchAllAtYield searched cropped g')
      | Raise e => Raised e
      end
  | Stopped => Stopped
  | Raised e => Raised e
  end.

(** [next()] on [DeviceUnderTest._match_all(image, frame, match_parameters,
    region)].  [region.x] is read when [_find_matches] has yielded its first
    value: for a region that is [None] the exceptions of [crop] and of
    [_find_matches] come before the [AttributeError]. *)
Definition _match_all (g : MatchAllGen) : gen_step MatchResult MatchAllGen :=
  match the_frame with
  | Raise e => Raised e
  | Ok fr =>
      match g with
      | MatchAllStart =>
          let region := Region.intersect (Some (_image_region fr)) search_region in
          match crop fr region with
          | Raise e => Raised e
          | Ok cropped =>
              match region with
              | Some searched => match_all_round fr searched cropped FindStart
              | None =>
                  match _find_matches pyramid_levels cropped template
                                      match_parameters FindStart with
                  | Yielded _ _ =>
                      Raised (AttributeError "'NoneType' object has no attribute 'x'")
                  | Stopped => Stopped
                  | Raised e => Raised e
                  end
              end
          end
      | MatchAllAtYield searched cropped g' => match_all_round fr searched cropped g'
      end
  end.

(** [next()] on [DeviceUnderTest.match_all(image, frame, match_parameters,
    region)]: the frame holds [any_matches] and the generator it iterates
    over. *)
Definition match_all (s : bool * MatchAllGen) : gen_step MatchResult (bool * MatchAllGen) :=
  let (any_matches, g) := s in
  match _match_all g with
  | Yielded result g' =>
      if match_ result then Yielded result (true, g') else Stopped
  | Stopped => Stopped
  | Raised e => Raised e
  end.

(** [DeviceUnderTest.match]: [next(self._match_all(...))] *)
Definition match_once : result MatchResult :=
  match _match_all MatchAllStart with
  | Yielded result _ => Ok result
  | Stopped => Raise (RuntimeError "StopIteration")
  | Raised e => Raise e
  end.

End DeviceUnderTest.

(* ===================================================================== *)
(** * [Display]: the frame source *)
(* ===================================================================== *)

(** The GLib main loop: the timeouts that are armed, by source id, each with
    its interval in milliseconds and the method of [Display] it calls; and
    the warnings logged so far. *)
Inductive Handler : Type :=
| restart_source_handler
| start_source_handler.

Record MainLoop : Type := mkMainLoop {
  sources : gmap nat (Z * Handler);
  next_source_id : nat;
  warnings : list string
}.

(** [GObject.timeout_add(ms, handler)] and [GObject.source_remove(id)] *)
Definition timeout_add (ms : Z) (h : Handler) (g : MainLoop) : nat * MainLoop :=
  (next_source_id g,
   mkMainLoop (<[next_source_id g := (ms, h)]> (sources g))
              (S (next_source_id g)) (warnings g)).

Definition source_remove (id : nat) (g : MainLoop) : MainLoop :=
  mkMainLoop (delete id (sources g)) (next_source_id g) (warnings g).

Definition warn (msg : string) (g : MainLoop) : MainLoop :=
  mkMainLoop (sources g) (next_source_id g) (warnings g ++ [msg]).

(** [class GObjectTimeout] *)
Record GObjectTimeout : Type := mkGObjectTimeout {
  timeout_secs : Z;
  handler : Handler;
  timeout_id : option nat
}.

Definition GObjectTimeout_start (t : GObjectTimeout) (g : MainLoop)
  : GObjectTimeout * MainLoop :=
  let (id, g') := timeout_add (timeout_secs t * 1000) (handler t) g in
  (mkGObjectTimeout (timeout_secs t) (handler t) (Some id), g').

Definition GObjectTimeout_cancel (t : GObjectTimeout) (g : MainLoop)
  : GObjectTimeout * MainLoop :=
  (mkGObjectTimeout (timeout_secs t) (handler t) None,
   match timeout_id t with
   | Some id => if Nat.eqb id 0 then g else source_remove id g
   | None => g
   end).

Inductive GstState : Type := GST_NULL | GST_PAUSED | GST_PLAYING.

(** A source pipeline: its state, and whether the [underrun] and [running]
    signals of its queue are connected. *)
Record Pipeline : Type := mkPipeline {
  gst_state : GstState;
  underrun_connected : bool
}.

(** What [Display.last_frame] holds. *)
Inductive Cell : Type :=
| CellNone
| CellFrame (f : Frame)
| CellException (message : string).

Record Display : Type := mkDisplay {
  last_frame : Cell;
  last_used_frame : option Frame;
  source_pipeline : option Pipeline;
  underrun_timeout : option GObjectTimeout;
  tearing_down : bool;
  restart_source_enabled : bool
}.

Definition set_last_frame (d : Display) (c : Cell) : Display :=
  mkDisplay c (last_used_frame d) (source_pipeline d) (underrun_timeout d)
            (tearing_down d) (restart_source_enabled d).

Definition set_last_used_frame (d : Display) (f : Frame) : Display :=
  mkDisplay (last_frame d) (Some f) (source_pipeline d) (underrun_timeout d)
            (tearing_down d) (restart_source_enabled d).

Definition set_source_pipeline (d : Display) (p : option Pipeline) : Display :=
  mkDisplay (last_frame d) (last_used_frame d) p (underrun_timeout d)
            (tearing_down d) (restart_source_enabled d).

Definition set_underrun_timeout (d : Display) (t : option GObjectTimeout) : Display :=
  mkDisplay (last_frame d) (last_used_frame d) (source_pipeline d) t
            (tearing_down d) (restart_source_enabled d).

Definition set_tearing_down (d : Display) (b : bool) : Display :=
  mkDisplay (last_frame d) (last_used_frame d) (source_pipeline d)
            (underrun_timeout d) b (restart_source_enabled d).

(** [Display.tell_user_thread(frame_or_exception)] *)
Definition tell_user_thread (d : Display) (c : Cell) : Display := set_last_frame d c.

(** [Display.create_source_pipeline()] and
    [Display.set_source_pipeline_playing()] *)
Definition create_source_pipeline (d : Display) : Display :=
  set_source_pipeline d (Some (mkPipeline GST_NULL (restart_source_enabled d))).

Definition set_source_pipeline_playing (d : Display) : result Display :=
  match source_pipeline d with
  | Some p => Ok (set_source_pipeline d (Some (mkPipeline GST_PLAYING (underrun_connected p))))
  | None => Raise (AttributeError "'NoneType' object has no attribute 'set_state'")
  end.

(** [Display.on_underrun(element)] *)
Definition on_underrun (s : Display * MainLoop) : Display * MainLoop :=
  let (d, g) := s in
  match underrun_timeout d with
  | Some _ => (d, g)
  | None =>
      let (t, g') := GObjectTimeout_start (mkGObjectTimeout 2 restart_source_handler None) g in
      (set_underrun_timeout d (Some t), g')
  end.

(** [Display.on_running(element)] *)
Definition on_running (s : Display * MainLoop) : Display * MainLoop :=
  let (d, g) := s in
  match underrun_timeout d with
  | Some t =>
      let (_, g') := GObjectTimeout_cancel t g in
      (set_underrun_timeout d None, g')
  | None => (d, g)
  end.

Definition restart_warning : string :=
  "Attempting to recover from video loss: Stopping source pipeline and waiting 5s...".

(** [Display.restart_source()]; the value is [False]: the timeout that called
    it is not to run again. *)
Definition restart_source (s : Display * MainLoop) : result (Display * MainLoop) :=
  let (d, g) := s in
  let g := warn restart_warning g in
  match source_pipeline d with
  | None => Raise (AttributeError "'NoneType' object has no attribute 'set_state'")
  | Some _ =>
      let d := set_source_pipeline d None in
      let (_, g) := GObjectTimeout_start (mkGObjectTimeout 5 start_source_handler None) g in
      Ok (d, g)
  end.

(** [Display.start_source()]; the value is [False] on both paths. *)
Definition start_source (s : Display * MainLoop) : result (Display * MainLoop) :=
  let (d, g) := s in
  if tearing_down d then Ok (d, g)
  else
    let g := warn "Restarting source pipeline..." g in
    let d := create_source_pipeline d in
    rbind (set_source_pipeline_playing d) (fun d =>
    let g := warn "Restarted source pipeline" g in
    if restart_source_enabled d then
      match underrun_timeout d with
      | Some t =>
          let (t', g') := GObjectTimeout_start t g in
          Ok (set_underrun_timeout d (Some t'), g')
      | None => Raise (AttributeError "'NoneType' object has no attribute 'start'")
      end
    else Ok (d, g)).

(** [Display.on_eos_from_source_pipeline(bus, message)] *)
Definition on_eos_from_source_pipeline (s : Display * MainLoop)
  : result (Display * MainLoop) :=
  let (d, g) := s in
  if negb (tearing_down d)
  then restart_source (d, warn "Got EOS from source pipeline" g)
  else Ok (d, g).

(** The main loop runs the timeout [id]: its handler is called, and the
    source is removed because the handler returns [False]. *)
Definition fire (id : nat) (s : Display * MainLoop) : result (Display * MainLoop) :=
  let (d, g) := s in
  match sources g !! id with
  | None => Ok (d, g)
  | Some (_, h) =>
      rbind (match h with
             | restart_source_handler => restart_source (d, g)
             | start_source_handler => start_source (d, g)
             end)
            (fun '(d', g') => Ok (d', source_remove id g'))
  end.

(** [Display.__exit__], its first two lines: the display is tearing down
    and has given up its source pipeline.  What follows works on the
    pipeline that was taken, which can go on playing for ten seconds while
    its end of stream is awaited, and changes no field of the display; what
    the main loop handles meanwhile, and later, are the events of [handle]
    below. *)
Definition Display_exit (d : Display) : Display :=
  set_source_pipeline (set_tearing_down d true) None.

(** ** [Display.get_frame]

    The user's thread blocks in [self._condition.wait] with the lock
    released.  A round of the [while True] loop is what happened since the
    previous one: the cells that the capture thread has written with
    [tell_user_thread], in order, and then the clock that the user's thread
    reads once it holds the lock again.  When the rounds run out the thread
    is still waiting. *)
Inductive Waited (A : Type) : Type :=
| Done (r : result A)
| Waiting.
Arguments Done {A} r.
Arguments Waiting {A}.

Definition Round : Type := (list Cell * Q)%type.

(** [isinstance(self.last_frame, Frame) and self.last_frame.time > since];
    a frame without a time is not newer than anything. *)
Definition fresh (since : Q) (c : Cell) : option Frame :=
  match c with
  | CellFrame f =>
      match time f with
      | Some ft => if Qltb since ft then Some f else None
      | None => None
      end
  | _ => None
  end.

Fixpoint get_frame_loop (since end_time : Q) (rounds : list Round) (d : Display)
  : Display * Waited Frame :=
  match rounds with
  | [] => (d, Waiting)
  | (written, t) :: rest =>
      let d := fold_left tell_user_thread written d in
      match fresh since (last_frame d) with
      | Some f => (set_last_used_frame d f, Done (Ok f))
      | None =>
          match last_frame d with
          | CellException message => (d, Done (Raise (RuntimeError message)))
          | _ =>
              if Qltb end_time t then (d, Done (Raise (NoVideo "No video")))
              else get_frame_loop since end_time rest d
          end
      end
  end.

(** [Display.get_frame(timeout_secs, since)] called at time [t]. *)
Definition get_frame (timeout_secs : Q) (since : option Q) (t : Q)
           (rounds : list Round) (d : Display) : Display * Waited Frame :=
  let end_time := (t + timeout_secs)%Q in
  let since := match since with
               | Some s => s
               | None => (t - timeout_secs)%Q
               end in
  get_frame_loop since end_time rounds d.

(* ===================================================================== *)
(** * A reference OpenCV

    One implementation of [Cv2], used to run the engine on examples.  It is
    exact where the examples need it: the normalised scores are rationals
    whenever the product of the two energies is a perfect square, as it is
    where the window equals the template or where both have a single pixel
    of one grey level. *)
(* ===================================================================== *)

Definition every_other {A} (l : list A) : list A :=
  omap (fun c : nat * A => if Nat.even c.1 then Some c.2 else None)
       (imap (fun i v => (i, v)) l).

Definition pyrDown_ref (a : ndarray) : ndarray :=
  mkArr (mkShape ((rows (shape a) + 1) / 2) ((cols (shape a) + 1) / 2)
                 (chans (shape a)))
        (map every_other (every_other (data a))).

Definition twice {A} (l : list A) : list A := concat (map (fun v => [v; v]) l).

Definition pyrUp_ref (m : array2 Z) : array2 Z := twice (map twice m).

Definition values (a : ndarray) : list Z := concat (concat (data a)).

Definition sum_Z (l : list Z) : Z := fold_right Z.add 0 l.

Definition score (method : TemplateMatchMode) (window template : list Z) : Q :=
  let n := Z.of_nat (length template) in
  let centre (l : list Z) :=
    match method with
    | TM_CCOEFF_NORMED => map (fun v => n * v - sum_Z l) l
    | _ => l
    end in
  let i := centre window in
  let t := centre template in
  let energy := Z.sqrt (sum_Z (map (fun v => v * v) t) * sum_Z (map (fun v => v * v) i)) in
  let num :=
    match method with
    | TM_SQDIFF_NORMED => sum_Z (zip_with (fun u v => (u - v) * (u - v)) t i)
    | _ => sum_Z (zip_with Z.mul t i)
    end in
  if energy =? 0 then 0%Q else Qmake num (Z.to_pos energy).

Definition matchTemplate_ref (image template : ndarray) (method : TemplateMatchMode)
  : array2 Q :=
  let h := rows (shape template) in
  let w := cols (shape template) in
  map (fun y =>
         map (fun x =>
                score method
                  (values (image_slice image
                             (_Rect.mk (Z.of_nat x) (Z.of_nat y) (Z.of_nat w) (Z.of_nat h))))
                  (values template))
             (seq 0 (cols (shape image) + 1 - w)))
      (seq 0 (rows (shape image) + 1 - h)).

Definition find_contour_boxes_ref (m : array2 Z) : list _Rect.t :=
  omap (fun c : Position.t * Z =>
          if c.2 =? 0 then None
          else Some (_Rect.mk (Position.x c.1) (Position.y c.1) 1 1))
       (scan_cells m).

Definition cvtColor_BGR2GRAY_ref (a : ndarray) : array2 Z :=
  map (map (fun px => hd 0 (gray_of_bgr px))) (data a).

Definition normalize_MINMAX_ref (a : array2 Z) : array2 Z :=
  let vs := concat a in
  let lo := fold_right Z.min 255 vs in
  let hi := fold_right Z.max 0 vs in
  map (map (fun v => if hi <=? lo then 0
                     else (2 * (v - lo) * 255 + (hi - lo)) / (2 * (hi - lo)))) a.

#[export] Instance cv2_ref : Cv2 := {|
  pyrDown := pyrDown_ref;
  pyrUp := pyrUp_ref;
  matchTemplate := matchTemplate_ref;
  find_contour_boxes := find_contour_boxes_ref;
  cvtColor_BGR2GRAY := cvtColor_BGR2GRAY_ref;
  normalize_MINMAX := normalize_MINMAX_ref
|}.

(** A frame of one colour. *)
Definition solid (h w : nat) (b g r : Z) : ndarray :=
  mkArr (mkShape h w 3) (replicate h (replicate w [b; g; r])).

(** ** The confirmation pass, in the words of the design document

    Crop the candidate region from the frame; convert crop and template to
    single-channel intensity, each rescaled to the full range for
    ["normed-absdiff"]; threshold the absolute difference at
    [confirm_threshold * 255]; erode [erode_passes] times with the 3x3
    ellipse; the match is confirmed iff no pixel is left.  [_confirm_match]
    is compared with it below. *)
Section ConfirmationPass.

Context {cv : Cv2}.
Variables image template : ndarray.
Variable match_parameters : MatchParameters.

Definition intensity (a : ndarray) : array2 Z :=
  if String.eqb (confirm_method match_parameters) "normed-absdiff"
  then normalize_MINMAX (cvtColor_BGR2GRAY a)
  else cvtColor_BGR2GRAY a.

Definition exceeds (difference : Z) : bool :=
  Qltb (confirm_threshold match_parameters * 255)%Q (inject_Z difference).

Definition confirmation_pass (region : Region.t) : result bool :=
  if String.eqb (confirm_method match_parameters) "none" then Ok true
  else
    rbind (region_slice image region) (fun candidate =>
    rbind (absdiff (intensity candidate) (intensity template)) (fun difference =>
    let over := map (map (fun d => if exceeds d then 255 else 0)) difference in
    let eroded :=
      Nat.iter (erode_passes match_parameters) (erode_pass MORPH_ELLIPSE_3x3) over in
    Ok (forallb (forallb (Z.eqb 0)) eroded))).

End ConfirmationPass.

(** ** Stand-ins for [imgutils]

    [_image_region] and [crop] as their names and their uses say, to run
    [match_all] on examples. *)
Definition _image_region_ref (fr : Frame) : Region.t :=
  Region.make 0 0 (Z.of_nat (cols (shape (pixels fr))))
              (Z.of_nat (rows (shape (pixels fr)))).

Definition crop_ref (fr : Frame) (r : option Region.t) : result ndarray :=
  match r with
  | Some r => region_slice (pixels fr) r
  | None => Raise (TypeError "crop: expected a Region")
  end.

(** What the user's thread can see of [last_frame] in each round, with the
    clock of the round. *)
Fixpoint observed (d : Display) (rounds : list Round) : list (Cell * Q) :=
  match rounds with
  | [] => []
  | (written, t) :: rest =>
      let d' := fold_left tell_user_thread written d in
      (last_frame d', t) :: observed d' rest
  end.

(** The queue of the pipeline that the display holds in
    [self.source_pipeline] emits [underrun] and [running]; the handlers are
    connected by [create_source_pipeline] when [restart_source] is enabled.
    The signals of a pipeline that the display holds no longer are events of
    [handle]. *)
Definition emit_underrun (s : Display * MainLoop) : Display * MainLoop :=
  match source_pipeline s.1 with
  | Some p => if underrun_connected p then on_underrun s else s
  | None => s
  end.

Definition emit_running (s : Display * MainLoop) : Display * MainLoop :=
  match source_pipeline s.1 with
  | Some p => if underrun_connected p then on_running s else s
  | None => s
  end.


(* ===================================================================== *)
(** * Inputs of the examples *)
(* ===================================================================== *)

(** A frame and a template of one pixel each. *)
Definition grey_200 : ndarray := solid 1 1 200 200 200.
Definition grey_150 : ndarray := solid 1 1 150 150 150.

(** [MatchParameters(match_method="ccorr-normed", match_threshold=0,
    confirm_method="none")] *)
Definition anything_matches : MatchParameters :=
  mkMatchParameters "ccorr-normed" 0 "none" (16 # 100) 1.

(** The default parameters of [stbt.conf]. *)
Definition default_parameters : MatchParameters :=
  mkMatchParameters "sqdiff-normed" (8 # 10) "absdiff" (16 # 100) 1.

(** The frame of [_find_candidate_matches] for [grey_200] in [grey_200] with
    [anything_matches], suspended at its [yield] number [i], once the one
    position of the heat map is masked. *)
Definition masked_frame (i : nat) : CandidateFrame :=
  mkCandidateFrame i [[0%Q]] TM_CCORR_NORMED 0 0 true
                   (Region_at (Position.mk 0 0) 1 1) 0.

Definition masked_found : Found :=
  mkFound true [Fin 0; Fin 0; Fin 1; Fin 1] true 0.

(* ===================================================================== *)
(** * Vocabulary of the properties *)
(* ===================================================================== *)

(** A level that [_build_pyramid] goes on from, and a template that is not
    larger than a frame. *)
Definition wide (a : ndarray) : Prop :=
  (20 <= rows (shape a))%nat /\ (20 <= cols (shape a))%nat.

Definition fits (small big : ndarray) : Prop :=
  (rows (shape small) <= rows (shape big))%nat
  /\ (cols (shape small) <= cols (shape big))%nat.

(** The results up to the first one that is not a match. *)
Fixpoint matches_before (rs : list MatchResult) : list MatchResult :=
  match rs with
  | [] => []
  | r :: rest => if match_ r then r :: matches_before rest else []
  end.

(** A round that decides nothing: the cell holds neither a frame that is new
    enough nor an exception, and the time is not up. *)
Definition undecided (since end_time : Q) (o : Cell * Q) : Prop :=
  fresh since o.1 = None
  /\ (forall message, o.1 <> CellException message)
  /\ ~ (end_time < o.2)%Q.

(** The suspended frames that [_find_matches] can be in: when the value it
    has yielded is a match, the candidate it came from is one. *)
Definition reachable (g : FindGen) : Prop :=
  match g with
  | FindStart => True
  | FindAtYield CandidateStart _ => False
  | FindAtYield (CandidateAtYield f) confirmed =>
      confirmed = true -> cf_matched f = true
  end.

(** Why a value of [_find_matches] is not a match: the first pass found no
    position at or above the threshold, or the second pass rejected the
    position that the first pass found. *)
Definition unconfirmed {cv : Cv2} (image template : ndarray)
           (match_parameters : MatchParameters) (f : Found) : Prop :=
  found_matched f = false
  /\ (found_first_pass_matched f = false
      \/ (found_first_pass_matched f = true
          /\ exists r,
              Region_list r = found_region f
              /\ _confirm_match image template match_parameters r = Ok false)).

(** How [_find_matches] judges a value, [confirmed = first_pass_matched and
    _confirm_match(image, region, ...)]: the value is a match when the first
    pass matched and the second pass said yes of its region, and it is not
    one when the first pass did not match or the second pass said no. *)
Definition judged {cv : Cv2} (image template : ndarray)
           (match_parameters : MatchParameters) (y : Found) : Prop :=
  (exists r, Region_list r = found_region y)
  /\ forall r,
      Region_list r = found_region y ->
      if found_first_pass_matched y
      then _confirm_match image template match_parameters r = Ok (found_matched y)
      else found_matched y = false.

(** [Mask(r)] for the value of [Region.intersect]: a region or [None]. *)
Definition MaskArg_of (r : option Region.t) : MaskArg :=
  match r with
  | Some q => ArgRegion q
  | None => ArgNone
  end.

(** A region without area: the width or the height is 0. *)
Definition zero_area (z : Region.t) : Prop :=
  exists x0 y0 width height,
    z = Region.make x0 y0 width height /\ (width = 0 \/ height = 0).

(** A region with area. *)
Definition has_area (r : Region.t) : Prop :=
  Coord_ltb (Region.x r) (Region.right r) = true
  /\ Coord_ltb (Region.y r) (Region.bottom r) = true.

(** The pixels that a region stands for, as [Mask.to_array] fills them,
    [array[r.y:r.bottom, r.x:r.right] = 255]: the pixel at [(px, py)] with
    [r.x <= px < r.right] and [r.y <= py < r.bottom].  "No region" stands
    for no pixel: [Mask(None)] is the mask whose inverse is [Region.ALL]. *)
Definition between (lo hi : Coord) (p : Z) : bool :=
  negb (Coord_ltb (Fin p) lo) && Coord_ltb (Fin p) hi.

Definition covers (r : option Region.t) (px py : Z) : bool :=
  match r with
  | Some r =>
      between (Region.x r) (Region.right r) px
      && between (Region.y r) (Region.bottom r) py
  | None => false
  end.

(** A function on regions is a geometric intersection when its value stands
    for the pixels that both operands stand for. *)
Definition geometric
           (intersect : option Region.t -> option Region.t -> option Region.t)
  : Prop :=
  forall a b px py,
    covers (intersect a b) px py = covers a px py && covers b px py.

(** "No region": an unset region, or a region without area. *)
Definition no_region (z : option Region.t) : Prop :=
  z = None \/ exists q, z = Some q /\ zero_area q.

(** Masks, a display and a main loop for the examples. *)
Definition left_pixels : Mask :=
  mkMask None None (Some (Region.make 0 0 2 1)) true None.

Definition right_pixel : Mask :=
  mkMask None None (Some (Region.make 1 0 1 1)) false None.

Definition playing : Display :=
  mkDisplay CellNone None (Some (mkPipeline GST_PLAYING true)) None false true.

Definition idle_loop : MainLoop := mkMainLoop ∅ 1 [].

Definition frame_at (t : Q) : Frame := mkFrame (Some t) grey_200.

(** The signals of the queue, and the states between which they move the
    display: no underrun timeout, or the one timeout that [on_underrun] has
    armed on top of the timeouts [base] that were armed before. *)
Inductive QueueSignal : Type := Underrun | Running.

Definition emit (e : QueueSignal) (s : Display * MainLoop) : Display * MainLoop :=
  match e with
  | Underrun => emit_underrun s
  | Running => emit_running s
  end.

Definition debouncing (base : gmap nat (Z * Handler)) (s : Display * MainLoop)
  : Prop :=
  (underrun_timeout s.1 = None /\ sources s.2 = base)
  \/ (exists id,
        underrun_timeout s.1
        = Some (mkGObjectTimeout 2 restart_source_handler (Some id))
        /\ (1 <= id < next_source_id s.2)%nat
        /\ base !! id = None
        /\ sources s.2 = <[id := (2000, restart_source_handler)]> base).

(** The invariant of the scan of [cv2.minMaxLoc]: the running minimum and
    maximum are scores of cells that were seen, and bound all of them. *)
Definition extremes (seen : list (Position.t * Q))
           (acc : Q * Q * Position.t * Position.t) : Prop :=
  let '(mn, mx, pmn, pmx) := acc in
  In (pmn, mn) seen /\ In (pmx, mx) seen
  /\ forall p v, In (p, v) seen -> (mn <= v)%Q /\ (v <= mx)%Q.

(** The certainty that [_find_best_match_position] reads off a score of the
    heat map, and whether a score is a match. *)
Definition certainty_of (method : TemplateMatchMode) (v : Q) : Q :=
  match method with
  | TM_SQDIFF_NORMED => (1 - v)%Q
  | TM_CCORR_NORMED | TM_CCOEFF_NORMED => v
  end.

Definition matching (method : TemplateMatchMode) (threshold v : Q) : bool :=
  Qle_bool threshold (certainty_of method v).

(** The number of the cells whose score is a match. *)
Fixpoint count_matching (method : TemplateMatchMode) (threshold : Q)
         (cells : list (Position.t * Q)) : nat :=
  match cells with
  | [] => 0
  | c :: rest =>
      ((if matching method threshold c.2 then 1 else 0)
       + count_matching method threshold rest)%nat
  end.

(** What [cv2.rectangle] does to a cell. *)
Definition mask_cell (x1 y1 x2 y2 : Z) (v : Q) (c : Position.t * Q)
  : Position.t * Q :=
  (c.1, if in_rect x1 y1 x2 y2 c.1 then v else c.2).

(** The [mask_value] of [_find_candidate_matches]. *)
Definition mask_value (match_parameters : MatchParameters) : Q :=
  if String.eqb (match_method match_parameters) "sqdiff-normed" then 255 else 0.

(** The positions at which a template can lie in a frame. *)
Definition in_bounds (image template : ndarray) (p : Position.t) : Prop :=
  (0 <= Position.x p
        <= Z.of_nat (cols (shape image)) - Z.of_nat (cols (shape template)))
  /\ (0 <= Position.y p
          <= Z.of_nat (rows (shape image)) - Z.of_nat (rows (shape template))).

Definition cells_in (image template : ndarray) (a : array2 Q) : Prop :=
  forall p v, In (p, v) (scan_cells a) -> in_bounds image template p.

(** An array of at most [h] rows of at most [w] cells. *)
Definition within {A} (h w : nat) (a : array2 A) : Prop :=
  (length a <= h)%nat /\ Forall (fun row => (length row <= w)%nat) a.

(** An array with a cell: the first row has one. *)
Definition has_cell {A} (a : array2 A) : Prop :=
  exists c row rest, a = (c :: row) :: rest.

(** Scores that are not negative. *)
Definition nonneg (a : array2 Q) : Prop :=
  Forall (Forall (fun v => (0 <= v)%Q)) a.

(** The frames of [_find_candidate_matches] in which every score matches:
    the threshold is 0, the method is a correlation, and no score of the
    heat map is negative. *)
Definition always_matching (template : ndarray) (f : CandidateFrame) : Prop :=
  cf_matched f = true
  /\ cf_level f = 0%nat
  /\ cf_threshold f = 0%Q
  /\ cf_method f <> TM_SQDIFF_NORMED
  /\ nonneg (cf_heatmap f)
  /\ scan_cells (cf_heatmap f) <> []
  /\ exists p,
      cf_region f = Region_at p (cols (shape template)) (rows (shape template)).

(** What the loop over the levels leaves after a level: the heat map has a
    cell, it is the heat map of the template of the level in the frame of
    the level, and its cells are positions of the one in the other; the
    threshold is the one of the level; and the position is a cell whose
    score decides [matched]. *)
Definition good_level {cv : Cv2} (match_parameters : MatchParameters)
           (method : TemplateMatchMode)
           (image_pyramid template_pyramid : list ndarray)
           (lr : LevelResult) : Prop :=
  scan_cells (lr_heatmap lr) <> []
  /\ (exists i t roi_mask,
         image_pyramid !! lr_level lr = Some i
         /\ template_pyramid !! lr_level lr = Some t
         /\ _match_template i t method roi_mask = Ok (lr_heatmap lr)
         /\ cells_in i t (lr_heatmap lr))
  /\ lr_threshold lr
     = max0 (match_threshold match_parameters
             - (if Nat.ltb 0 (lr_level lr) then 2 # 10 else 0))%Q
  /\ exists v, In (lr_position lr, v) (scan_cells (lr_heatmap lr))
               /\ lr_matched lr = matching method (lr_threshold lr) v.

(** The frames of [_find_candidate_matches] that the search over the levels
    leaves: the heat map has a cell; and a match is at level 0, at a cell of
    the heat map whose score is a match, while the score that masks a match
    is not one. *)
Definition good_frame (image template : ndarray)
           (match_parameters : MatchParameters) (f : CandidateFrame) : Prop :=
  scan_cells (cf_heatmap f) <> []
  /\ (1 <= rows (shape template))%nat /\ (1 <= cols (shape template))%nat
  /\ (cf_matched f = true ->
      cf_level f = 0%nat
      /\ matching (cf_method f) (cf_threshold f) (mask_value match_parameters) = false
      /\ cells_in image template (cf_heatmap f)
      /\ exists p v,
          cf_region f = Region_at p (cols (shape template)) (rows (shape template))
          /\ In (p, v) (scan_cells (cf_heatmap f))
          /\ matching (cf_method f) (cf_threshold f) v = true).

(* ===================================================================== *)
(** * Masks of regions, and where the matches are *)
(* ===================================================================== *)

(** A mask that no image is part of: regions, combined and inverted. *)
Fixpoint region_only (m : Mask) {struct m} : Prop :=
  _image m = None
  /\ match _binop m with
     | Some n => region_only (left n) /\ region_only (right n)
     | None => True
     end.

(** An array of the two values of a binary mask. *)
Definition binary (a : ndarray) : Prop :=
  Forall (Forall (Forall (fun v => v = 0 \/ v = 255))) (data a).

(** The positions that a match at [p] rules out for later matches: the
    rectangle that [_find_candidate_matches] fills with [mask_value]. *)
Definition excluded (template : ndarray) (p q : Position.t) : bool :=
  in_rect (Position.x p - (Z.of_nat (cols (shape template)) - 1))
          (Position.y p - (Z.of_nat (rows (shape template)) - 1))
          (Position.x p + Z.of_nat (cols (shape template)) - 1)
          (Position.y p + Z.of_nat (rows (shape template)) - 1)
          q.

(** The template at [p] and the template at [q] share a pixel. *)
Definition overlap (template : ndarray) (p q : Position.t) : Prop :=
  exists x y,
    (Position.x p <= x < Position.x p + Z.of_nat (cols (shape template))
     /\ Position.y p <= y < Position.y p + Z.of_nat (rows (shape template)))
    /\ (Position.x q <= x < Position.x q + Z.of_nat (cols (shape template))
        /\ Position.y q <= y < Position.y q + Z.of_nat (rows (shape template))).

(** The heat map holds [mask_value] in the rectangles of the matches at
    [ps]. *)
Definition masked_around (template : ndarray) (match_parameters : MatchParameters)
           (ps : list Position.t) (a : array2 Q) : Prop :=
  forall p q u,
    In p ps -> In (q, u) (scan_cells a) -> excluded template p q = true ->
    u = mask_value match_parameters.

(** A value of [_find_matches] whose region is the template at [p]. *)
Definition found_at (template : ndarray) (p : Position.t) (y : Found) : Prop :=
  found_region y
  = Region_list (Region_at p (cols (shape template)) (rows (shape template))).

(** Values of [_find_matches] after matches at [ps]: every value that the
    first pass calls a match is the template at a position of the frame that
    no earlier match rules out, and a value that it does not call a match is
    the last one. *)
Fixpoint separated (image template : ndarray) (ps : list Position.t)
         (ys : list Found) : Prop :=
  match ys with
  | [] => True
  | y :: rest =>
      if found_first_pass_matched y
      then exists q,
          found_at template q y
          /\ in_bounds image template q
          /\ Forall (fun p => excluded template p q = false) ps
          /\ separated image template (q :: ps) rest
      else rest = []
  end.

(** An image without a pixel that differs, and an image whose pixels are
    between 0 and the pixels of another one of its size. *)
Definition all_zero (a : array2 Z) : Prop := Forall (Forall (fun v => v = 0)) a.

Definition below (a b : array2 Z) : Prop :=
  Forall2 (Forall2 (fun u v => 0 <= u <= v)) a b.

(** The methods that [MatchParameters] accepts. *)
Definition match_methods : list string :=
  ["sqdiff-normed"; "ccorr-normed"; "ccoeff-normed"]%string.

Definition confirm_methods : list string :=
  ["none"; "absdiff"; "normed-absdiff"]%string.

(* ===================================================================== *)
(** * [DeviceUnderTest]: waiting for a match *)
(* ===================================================================== *)

(** What the functions of the test script raise: an exception of Python
    or of the libraries, or [MatchTimeout(screenshot, expected,
    timeout_secs)], a [UITestFailure]. *)
Inductive Thrown : Type :=
| Exn (e : exn)
| MatchTimeout (screenshot : Frame) (expected : string) (timeout_secs : option Q).

(** How a call that can block ended: it returned, it raised, or it has not
    come back within the steps that were run. *)
Inductive Outcome (A : Type) : Type :=
| Returned (a : A)
| Threw (t : Thrown)
| Pending.
Arguments Returned {A} a.
Arguments Threw {A} t.
Arguments Pending {A}.

Definition Coord_eqb (a b : Coord) : bool :=
  match a, b with
  | NegInf, NegInf | PosInf, PosInf => true
  | Fin u, Fin v => u =? v
  | _, _ => false
  end.

(** [MatchResult.position]: [Position(self.region.x, self.region.y)], and
    [==] on positions. *)
Definition position (r : MatchResult) : Coord * Coord :=
  (Region.x (region r), Region.y (region r)).

Definition position_eqb (p q : Coord * Coord) : bool :=
  Coord_eqb p.1 q.1 && Coord_eqb p.2 q.2.

(** [max(10, timeout_secs)] in Python 2, where [None] is below every
    number. *)
Definition max_10 (timeout_secs : option Q) : Q :=
  match timeout_secs with
  | Some t => if Qltb 10 t then t else 10
  | None => 10
  end.

(** [timestamp > end_time] in Python 2, for a timestamp that can be
    [None]. *)
Definition later_than (timestamp : option Q) (end_time : Q) : bool :=
  match timestamp with
  | Some t => Qltb end_time t
  | None => false
  end.

(** The [for] loop of [wait_for_match] over the values of a generator, and
    the [raise] after it: [res] is unbound until the loop has run once. *)
Section WaitForMatch.

Variable G : Type.
Variable results : G -> gen_step MatchResult G.
Variable friendly_name : string.
Variable timeout_secs : option Q.
Variable consecutive_matches : Z.

Fixpoint wait_for_match_loop (fuel : nat) (s : G) (match_count : Z)
         (last_pos : Coord * Coord) (res : option MatchResult)
  : Outcome MatchResult :=
  match fuel with
  | O => Pending
  | S fuel =>
      match results s with
      | Yielded res s' =>
          let match_count :=
            if match_ res && ((match_count =? 0) || position_eqb (position res) last_pos)
            then match_count + 1
            else 0 in
          let last_pos := position res in
          if match_count =? consecutive_matches
          then Returned res
          else wait_for_match_loop fuel s' match_count last_pos (Some res)
      | Stopped =>
          match res with
          | Some res => Threw (MatchTimeout (frame res) friendly_name timeout_secs)
          | None =>
              Threw (Exn (NameError
                            "local variable 'res' referenced before assignment"))
          end
      | Raised e => Threw (Exn e)
      end
  end.

End WaitForMatch.

(** The suspended frame of [DeviceUnderTest.frames]: before its first
    line, or at its [yield] with [end_time] (unbound when [timeout_secs] is
    [None]) and [timestamp]; [first] is [True] before and [False] after. *)
Inductive FramesPc : Type :=
| FramesStart
| FramesAtYield (end_time : option Q) (timestamp : option Q).

Section Frames.

(** What the device is connected to: [self._time.time()] reads its clock,
    and [self._display.get_frame(timeout_secs, since=...)] blocks until
    it has a frame or raises. *)
Variable World : Type.
Variable time_time : World -> Q * World.
Variable display_get_frame : Q -> option Q -> World -> result (Frame * World).

(** [self._use_old_threading_behaviour] *)
Variable _use_old_threading_behaviour : bool.

(** The generator of [frames] with the fields of the device that it reads
    and writes. *)
Record FramesGen : Type := mkFramesGen {
  frames_pc : FramesPc;
  _last_grabbed_frame_time : option Q;
  world : World
}.

(** One round of the [while True] loop of [frames], up to the [return] or
    the [yield]. *)
Definition frames_round (timeout_secs : option Q) (first : bool)
           (end_time timestamp : option Q) (last_grabbed : option Q) (w : World)
  : gen_step Frame FramesGen :=
  let timestamp := if _use_old_threading_behaviour then last_grabbed else timestamp in
  let (_, w) := time_time w in
  match display_get_frame (max_10 timeout_secs) timestamp w with
  | Raise e => Raised e
  | Ok (frame, w) =>
      let (_, w) := time_time w in
      let timestamp := time frame in
      let last_grabbed :=
        if _use_old_threading_behaviour then timestamp else last_grabbed in
      if negb first
         && match timeout_secs, end_time with
            | Some _, Some end_time => later_than timestamp end_time
            | _, _ => false
            end
      then Stopped
      else Yielded frame
                   (mkFramesGen (FramesAtYield end_time timestamp) last_grabbed w)
  end.

(** [next()] on [DeviceUnderTest.frames(timeout_secs)] *)
Definition frames (timeout_secs : option Q) (g : FramesGen)
  : gen_step Frame FramesGen :=
  match frames_pc g with
  | FramesStart =>
      match timeout_secs with
      | Some t =>
          let (now, w) := time_time (world g) in
          frames_round timeout_secs true (Some (now + t)%Q) None
                       (_last_grabbed_frame_time g) w
      | None =>
          frames_round timeout_secs true None None
                       (_last_grabbed_frame_time g) (world g)
      end
  | FramesAtYield end_time timestamp =>
      frames_round timeout_secs false end_time timestamp
                   (_last_grabbed_frame_time g) (world g)
  end.

Context {cv : Cv2}.
Variable pyramid_levels : Z.
Variable _image_region : Frame -> Region.t.
Variable crop : Frame -> option Region.t -> result ndarray.

(** The arguments of [detect_match] and [wait_for_match], with [image]
    loaded and [match_parameters] defaulted; [friendly_name] is the name of
    the image. *)
Variable template : ndarray.
Variable friendly_name : string.
Variable match_parameters : MatchParameters.
Variable search_region : option Region.t.

(** [next()] on [DeviceUnderTest.detect_match(image, timeout_secs,
    match_parameters, region)]; drawing on the frame is left out. *)
Definition detect_match (timeout_secs : option Q) (g : FramesGen)
  : gen_step MatchResult FramesGen :=
  match frames timeout_secs g with
  | Yielded frame g' =>
      match match_once pyramid_levels _image_region crop template (Ok frame)
                       match_parameters search_region with
      | Ok result => Yielded result g'
      | Raise e => Raised e
      end
  | Stopped => Stopped
  | Raised e => Raised e
  end.

(** [DeviceUnderTest.wait_for_match(image, timeout_secs,
    consecutive_matches, match_parameters, region)] *)
Definition wait_for_match (timeout_secs : option Q) (consecutive_matches : Z)
           (fuel : nat) (g : FramesGen) : Outcome MatchResult :=
  wait_for_match_loop FramesGen (detect_match timeout_secs) friendly_name
                      timeout_secs consecutive_matches fuel g 0 (Fin 0, Fin 0) None.

End Frames.

Arguments mkFramesGen {World} frames_pc _last_grabbed_frame_time world.
Arguments frames_pc {World} f.
Arguments _last_grabbed_frame_time {World} f.
Arguments world {World} f.

(** [DeviceUnderTest.press_until_match(key, image, interval_secs,
    max_presses, match_parameters, region)] *)
Section PressUntilMatch.

(** [self.wait_for_match(image, timeout_secs=interval_secs, ...)] and
    [self.press(key)] on what the device is connected to. *)
Variable World : Type.
Variable wait_for_match_on : World -> Outcome MatchResult * World.
Variable press : World -> result World.

(** The [while True] loop with [i] presses done.  The value is the outcome
    with [i] as it is when the loop is left. *)
Fixpoint press_until_match_loop (fuel : nat) (max_presses i : Z) (w : World)
  : Outcome MatchResult * Z :=
  match fuel with
  | O => (Pending, i)
  | S fuel =>
      match wait_for_match_on w with
      | (Threw (MatchTimeout screenshot expected timeout_secs), w) =>
          if i <? max_presses
          then match press w with
               | Ok w => press_until_match_loop fuel max_presses (i + 1) w
               | Raise e => (Threw (Exn e), i)
               end
          else (Threw (MatchTimeout screenshot expected timeout_secs), i)
      | (other, _) => (other, i)
      end
  end.

Definition press_until_match (fuel : nat) (max_presses : Z) (w : World)
  : Outcome MatchResult * Z :=
  press_until_match_loop fuel max_presses 0 w.

End PressUntilMatch.

(** A result that is a match where [r] is. *)
Definition same_place (r y : MatchResult) : Prop :=
  match_ y = true /\ position_eqb (position y) (position r) = true.

(* ===================================================================== *)
(** * [wait_until] *)
(* ===================================================================== *)

(** The values of [callable_] are of a type [V] and what [predicate] makes
    of them of a type [P]; both have Python's [None] and a truth value, and
    [P] has [!=].  A round of the [while True] loop reads the clock and
    calls [callable_]: the rounds are given as the clock and the outcome of
    the call, in order; when they run out, [wait_until] has not come back.
    [time.sleep(interval_secs)] only moves the clock of the next round. *)
Section WaitUntil.

Variables V P : Type.
Variable truthy : V -> bool.
Variable None_V : V.
Variable predicate : V -> result P.
Variable truthy_P : P -> bool.
Variable None_P : P.
Variable ne_P : P -> P -> bool.

Fixpoint wait_until_loop (calls : list (Q * result V)) (expiry_time stable_secs : Q)
         (stable_value : V) (stable_predicate_value : P) (stable_since : option Q)
  : Outcome V :=
  match calls with
  | [] => Pending
  | (t, Raise e) :: _ => Threw (Exn e)
  | (t, Ok value) :: calls =>
      match predicate value with
      | Raise e => Threw (Exn e)
      | Ok predicate_value =>
          if negb (Qeq_bool stable_secs 0) then
            let changed := ne_P predicate_value stable_predicate_value in
            let stable_since := if changed then Some t else stable_since in
            let stable_value := if changed then value else stable_value in
            let stable_predicate_value :=
              if changed then predicate_value else stable_predicate_value in
            match (if truthy_P predicate_value
                   then match stable_since with
                        | Some since => Ok (Qle_bool stable_secs (t - since))
                        | None =>
                            Raise (NameError
                                     "local variable 'stable_since' referenced before assignment")
                        end
                   else Ok false) with
            | Raise e => Threw (Exn e)
            | Ok true => Returned stable_value
            | Ok false =>
                if Qle_bool expiry_time t
                then Returned (if negb (truthy value) then value else None_V)
                else wait_until_loop calls expiry_time stable_secs
                                     stable_value stable_predicate_value stable_since
            end
          else if truthy_P predicate_value then Returned value
          else if Qle_bool expiry_time t
          then Returned (if negb (truthy value) then value else None_V)
          else wait_until_loop calls expiry_time stable_secs
                               stable_value stable_predicate_value stable_since
      end
  end.

(** [wait_until(callable_, timeout_secs, interval_secs, predicate,
    stable_secs)] called when the clock is [now]. *)
Definition wait_until (now timeout_secs stable_secs : Q)
           (calls : list (Q * result V)) : Outcome V :=
  wait_until_loop calls (now + timeout_secs) stable_secs None_V None_P None.

(** The value of [predicate] in a round, when the round has one. *)
Definition predicate_value_of (call : Q * result V) : option P :=
  match call.2 with
  | Ok value => match predicate value with Ok p => Some p | Raise _ => None end
  | Raise _ => None
  end.

(** A round in which [callable_] returns a value that [predicate] does not
    accept, before the time is up. *)
Definition rejected (expiry_time : Q) (call : Q * result V) : Prop :=
  (exists p, predicate_value_of call = Some p /\ truthy_P p = false)
  /\ Qle_bool expiry_time call.1 = false.

(** The value [v] of round [i] has been stable up to round [j]: no round
    after [i] up to [j] has a predicate value that differs from the one of
    [v], the one of round [j] is true, and [stable_secs] have passed. *)
Definition stable_from (stable_secs : Q) (calls : list (Q * result V))
           (i j : nat) (v : V) : Prop :=
  (i <= j)%nat
  /\ exists ti tj p pj,
      calls !! i = Some (ti, Ok v) /\ predicate v = Ok p
      /\ (exists c, calls !! j = Some c /\ c.1 = tj
                    /\ predicate_value_of c = Some pj)
      /\ truthy_P pj = true
      /\ Qle_bool stable_secs (tj - ti) = true
      /\ forall k c, (i < k <= j)%nat -> calls !! k = Some c ->
                     exists pk, predicate_value_of c = Some pk /\ ne_P pk p = false.

(** What [stable_value], [stable_predicate_value] and [stable_since] hold
    after [n] rounds: nothing, while every predicate value was [None]; or
    the value and the time of a round [i] since which the predicate value
    has not changed. *)
Definition stable_state (calls : list (Q * result V)) (n : nat) (sv : V) (spv : P)
           (since : option Q) : Prop :=
  (since = None /\ spv = None_P /\ sv = None_V)
  \/ (exists i ti,
         (i < n)%nat /\ since = Some ti
         /\ calls !! i = Some (ti, Ok sv) /\ predicate sv = Ok spv
         /\ forall k c, (i < k < n)%nat -> calls !! k = Some c ->
                        exists pk, predicate_value_of c = Some pk
                                   /\ ne_P pk spv = false).

End WaitUntil.

(* ===================================================================== *)
(** * [DeviceUnderTest.is_screen_black] *)
(* ===================================================================== *)

(** [cv2.bitwise_and(a, b)]: the arrays must have one size. *)
Definition bitwise_and (a b : array2 Z) : result (array2 Z) :=
  if bool_decide (map length a = map length b)
  then Ok (zip_with (zip_with Z.land) a b)
  else Raise (Cv2Error "bitwise_and: sizes of input arguments do not match").

(** [a.max()] of numpy: an array without elements has no maximum. *)
Definition array_max (a : array2 Z) : result Z :=
  match concat a with
  | [] => Raise (ValueError "zero-size array to reduction operation maximum which has no identity")
  | v :: vs => Ok (fold_left Z.max vs v)
  end.

Record _IsScreenBlackResult : Type := mk_IsScreenBlackResult {
  black : bool;
  black_frame : Frame
}.

Section IsScreenBlack.

Context {cv : Cv2}.
Variable _image_region : Frame -> Region.t.
Variable crop : Frame -> option Region.t -> result ndarray.

(** What is left of the frame to look at: the grey values of the region,
    with the mask applied when there is one. *)
Definition masked_grey (frame : Frame) (mask : option (array2 Z))
           (region : option Region.t) : result (array2 Z) :=
  let _region := Region.intersect (Some (_image_region frame)) region in
  rbind (crop frame _region) (fun cropped =>
  let greyframe := cvtColor_BGR2GRAY cropped in
  match mask with
  | Some image => bitwise_and greyframe image
  | None => Ok greyframe
  end).

(** [DeviceUnderTest.is_screen_black(frame, mask, threshold, region)], with
    [frame] taken from [get_frame()] when it was [None], [mask] loaded and
    [threshold] defaulted; the debug images are left out. *)
Definition is_screen_black (the_frame : result Frame) (mask : option (array2 Z))
           (threshold : Z) (region : option Region.t)
  : result _IsScreenBlackResult :=
  rbind the_frame (fun frame =>
  rbind (masked_grey frame mask region) (fun greyframe =>
  rbind (array_max greyframe) (fun maxVal =>
  Ok (mk_IsScreenBlackResult (maxVal <=? threshold) frame)))).

End IsScreenBlack.

(* ===================================================================== *)
(** * [SinkPipeline]: the annotations on the output video *)
(* ===================================================================== *)

(** A sample of the source pipeline: the time of capture and the buffer. *)
Record Sample : Type := mkSample { sample_time : Q; sample_buffer : ndarray }.

Record _TextAnnotation : Type := mk_TextAnnotation {
  text_time : Q;
  text : string;
  duration : option Q
}.

(** [_TextAnnotation.end_time]: [self.time + self.duration] *)
Definition end_time (x : _TextAnnotation) : result Q :=
  match duration x with
  | Some d => Ok (text_time x + d)%Q
  | None => Raise (TypeError "unsupported operand type(s) for +: 'float' and 'NoneType'")
  end.

Record _Annotation : Type := mk_Annotation {
  annotation_time : option Q;
  annotation_region : option Region.t;
  label : string;
  colour : Z * Z * Z
}.

Definition MATCHED : Z * Z * Z := (32, 0, 255).
Definition NO_MATCH : Z * Z * Z := (32, 255, 255).

(** [_Annotation.from_result(result, label)] *)
Definition from_result (result : MatchResult) (label : string) : _Annotation :=
  mk_Annotation (mr_time result) (Some (region result)) label
                (if match_ result then MATCHED else NO_MATCH).

(** [==] on annotations: the tuples are compared field by field, the times
    as numbers. *)
Definition time_eqb (a b : option Q) : bool :=
  match a, b with
  | Some u, Some v => Qeq_bool u v
  | None, None => true
  | _, _ => false
  end.

Definition Region_eqb (a b : option Region.t) : bool :=
  match a, b with
  | Some r, Some s =>
      Coord_eqb (Region.x r) (Region.x s) && Coord_eqb (Region.y r) (Region.y s)
      && Coord_eqb (Region.right r) (Region.right s)
      && Coord_eqb (Region.bottom r) (Region.bottom s)
  | None, None => true
  | _, _ => false
  end.

Definition _Annotation_eqb (a b : _Annotation) : bool :=
  time_eqb (annotation_time a) (annotation_time b)
  && Region_eqb (annotation_region a) (annotation_region b)
  && String.eqb (label a) (label b)
  && bool_decide (colour a = colour b).

(** [l.remove(x)]: the first element that equals [x] is taken out; the
    [ValueError] for an [x] that is not in the list is the caller's
    business. *)
Fixpoint list_remove (x : _Annotation) (l : list _Annotation) : result (list _Annotation) :=
  match l with
  | [] => Raise (ValueError "list.remove(x): x not in list")
  | a :: rest =>
      if _Annotation_eqb a x then Ok rest
      else rmap (cons a) (list_remove x rest)
  end.

(** [annotation.time == now] and [now >= annotation.time] in Python 2, for
    a time that can be [None]. *)
Definition is_now (now : Q) (a : _Annotation) : bool :=
  match annotation_time a with
  | Some t => Qeq_bool t now
  | None => false
  end.

Definition is_due (now : Q) (a : _Annotation) : bool :=
  match annotation_time a with
  | Some t => Qle_bool t now
  | None => true
  end.

(** What [_push_sample] hands to [appsrc]: the sample, with the texts that
    were drawn on it, each with its origin and its grey level, and the
    annotations whose [draw] was called. *)
Record Pushed : Type := mkPushed {
  pushed_sample : Sample;
  drawn_texts : list (string * (Z * Z) * Z);
  drawn_annotations : list _Annotation
}.

Record SinkPipeline : Type := mkSinkPipeline {
  text_annotations : list _TextAnnotation;
  annotations : list _Annotation;
  _frames : list Sample;
  _sample_count : nat;
  appsrc : list Pushed
}.

(** [[x for x in self.text_annotations if now < x.end_time]]: the first
    [end_time] that raises ends the comprehension. *)
Fixpoint unexpired (now : Q) (l : list _TextAnnotation) : result (list _TextAnnotation) :=
  match l with
  | [] => Ok []
  | x :: rest =>
      rbind (end_time x) (fun e =>
      rbind (unexpired now rest) (fun rest' =>
      Ok (if Qltb now e then x :: rest' else rest')))
  end.

(** The loop over [list(self.annotations)]: the annotations of this very
    time are collected, and those that are due are removed. *)
Fixpoint sort_annotations (now : Q) (copy : list _Annotation)
         (to_draw remaining : list _Annotation)
  : result (list _Annotation * list _Annotation) :=
  match copy with
  | [] => Ok (to_draw, remaining)
  | annotation :: copy =>
      let to_draw := if is_now now annotation then to_draw ++ [annotation] else to_draw in
      rbind (if is_due now annotation then list_remove annotation remaining
             else Ok remaining)
            (fun remaining => sort_annotations now copy to_draw remaining)
  end.

(** The texts as they are drawn: the newest first, from the second line
    down, each in a grey that fades from 255 to 127 in a second and a half;
    [_draw_text] draws nothing for an empty text.  The first line, the time
    of day, is left out. *)
Definition text_colour (now : Q) (x : _TextAnnotation) : Z :=
  let age := ((now - text_time x) / 3)%Q in
  int_of (255 * (if Qltb (1 - age) (1 # 2) then 1 # 2 else 1 - age))%Q.

Definition draw_texts (now : Q) (current_texts : list _TextAnnotation)
  : list (string * (Z * Z) * Z) :=
  omap (fun d : string * (Z * Z) * Z =>
          if String.eqb d.1.1 EmptyString then None else Some d)
       (imap (fun i x => (text x, (10, (Z.of_nat i + 2) * 30), text_colour now x))
             (rev current_texts)).

(** [SinkPipeline._push_sample(sample)] *)
Definition _push_sample (s : SinkPipeline) (sample : Sample) : result SinkPipeline :=
  let now := sample_time sample in
  rbind (unexpired now (text_annotations s)) (fun texts =>
  let current_texts := filter (fun x => Qle_bool (text_time x) now = true) texts in
  rbind (sort_annotations now (annotations s) [] (annotations s))
        (fun '(to_draw, remaining) =>
  Ok (mkSinkPipeline texts remaining (_frames s) (S (_sample_count s))
        (appsrc s ++ [mkPushed sample (draw_texts now current_texts) to_draw])))).

Definition set_frames (s : SinkPipeline) (frames : list Sample) : SinkPipeline :=
  mkSinkPipeline (text_annotations s) (annotations s) frames (_sample_count s)
                 (appsrc s).

(** The [while self._frames] loop of [on_sample]: [self._frames] is a
    [deque], read here from its right end, where [pop()] takes the oldest
    sample from and [append()] puts it back. *)
Fixpoint push_old_samples (now : Q) (frames : list Sample) (s : SinkPipeline)
  : result SinkPipeline :=
  match frames with
  | [] => Ok (set_frames s [])
  | oldest :: rest =>
      if Qltb (now - (1 # 2)) (sample_time oldest)
      then Ok (set_frames s (oldest :: rest))
      else rbind (_push_sample (set_frames s rest) oldest)
                 (push_old_samples now rest)
  end.

(** [deque(maxlen=35).appendleft(sample)]: a full deque drops the sample at
    its right end. *)
Definition appendleft (frames : list Sample) (sample : Sample) : list Sample :=
  let l := frames ++ [sample] in
  drop (length l - 35) l.

(** [SinkPipeline.on_sample(sample)] *)
Definition on_sample (s : SinkPipeline) (sample : Sample) : result SinkPipeline :=
  let now := sample_time sample in
  push_old_samples now (appendleft (_frames s) sample) s.

(** The first lines of [SinkPipeline.__exit__]: the frame queue is
    drained. *)
Fixpoint drain (frames : list Sample) (s : SinkPipeline) : result SinkPipeline :=
  match frames with
  | [] => Ok (set_frames s [])
  | oldest :: rest => rbind (_push_sample (set_frames s rest) oldest) (drain rest)
  end.

Definition SinkPipeline_exit (s : SinkPipeline) : result SinkPipeline :=
  drain (_frames s) s.

(** [SinkPipeline.draw(obj, duration_secs, label)] for a string, with the
    clock and its time of day, and for a result. *)
Definition draw_text (s : SinkPipeline) (start_time : Q) (time_of_day : string)
           (obj : string) (duration_secs : option Q) : SinkPipeline :=
  mkSinkPipeline
    (text_annotations s
     ++ [mk_TextAnnotation start_time (time_of_day ++ " " ++ obj) duration_secs])
    (annotations s) (_frames s) (_sample_count s) (appsrc s).

Definition draw_result (s : SinkPipeline) (obj : MatchResult) (label : string)
  : SinkPipeline :=
  let annotation := from_result obj label in
  match annotation_time annotation with
  | Some t =>
      if Qeq_bool t 0 then s
      else mkSinkPipeline (text_annotations s) (annotations s ++ [annotation])
                          (_frames s) (_sample_count s) (appsrc s)
  | None => s
  end.

(* ===================================================================== *)
(** * [Display]: the events of the main loop *)
(* ===================================================================== *)

(** What the main loop delivers to the display: a timeout that expires, the
    end of the stream on the bus of a source pipeline, or a signal of the
    queue of a source pipeline.  The handlers are bound methods of the
    display: they run whatever [self.source_pipeline] is, also for the
    pipeline that [__exit__] has taken from the display and is still
    shutting down.  The events are handled one after the other while the
    handlers return. *)
Inductive Event : Type :=
| TimeoutExpires (id : nat)
| EndOfStream
| QueueEmits (signal : QueueSignal).

Definition handle (event : Event) (s : Display * MainLoop)
  : result (Display * MainLoop) :=
  match event with
  | TimeoutExpires id => fire id s
  | EndOfStream => on_eos_from_source_pipeline s
  | QueueEmits Underrun => Ok (on_underrun s)
  | QueueEmits Running => Ok (on_running s)
  end.

Fixpoint handle_all (events : list Event) (s : Display * MainLoop)
  : result (Display * MainLoop) :=
  match events with
  | [] => Ok s
  | event :: events => rbind (handle event s) (handle_all events)
  end.

(* ===================================================================== *)
(** * More inputs of the examples *)
(* ===================================================================== *)

(** A world for [frames]: the display delivers the frames of a list, one to
    a call, and the clock shows the time of the frame that was delivered
    last. *)
Definition Script : Type := (Q * list Frame)%type.

Definition script_time (w : Script) : Q * Script := (w.1, w).

Definition script_get_frame (timeout_secs : Q) (since : option Q) (w : Script)
  : result (Frame * Script) :=
  match w.2 with
  | [] => Raise (NoVideo "No video")
  | f :: rest => Ok (f, (default w.1 (time f), rest))
  end.

Definition script (now : Q) (fs : list Frame) : FramesGen Script :=
  mkFramesGen FramesStart (Some 0%Q) (now, fs).

(** A frame of the colour of [grey_200] and one of another colour. *)
Definition frame_200 (t : Q) : Frame := mkFrame (Some t) grey_200.
Definition frame_150 (t : Q) : Frame := mkFrame (Some t) grey_150.

(** The values of a [callable_] that returns [None] or an integer. *)
Inductive PyValue : Type := PyNone | PyInt (z : Z).

Definition PyValue_truthy (v : PyValue) : bool :=
  match v with
  | PyNone => false
  | PyInt z => negb (z =? 0)
  end.

Definition PyValue_ne (a b : PyValue) : bool :=
  match a, b with
  | PyNone, PyNone => false
  | PyInt u, PyInt v => negb (u =? v)
  | _, _ => true
  end.

(** A sink pipeline that holds two samples and an annotation for each. *)
Definition sample_at (t : Q) : Sample := mkSample t grey_200.

Definition found_at_time (t : Q) : _Annotation :=
  mk_Annotation (Some t) (Some (Region.make 0 0 1 1)) "match" MATCHED.

Definition sink : SinkPipeline :=
  mkSinkPipeline [mk_TextAnnotation 1 "12:00:01.00 KEY_OK" (Some 3%Q)]
                 [found_at_time 1; found_at_time (12 # 10)]
                 [sample_at 1; sample_at (12 # 10)] 0 [].

(* ===================================================================== *)
(** * Properties *)
(* ===================================================================== *)

Lemma length_twice {A} (l : list A) : length (twice l) = (2 * length l)%nat.
Proof.
  induction l as [|v l IH]; [reflexivity|].
  change (twice (v :: l)) with (v :: v :: twice l). cbn [length]. lia.
Qed.

Lemma cv2_ref_sizes : Cv2Sizes cv2_ref.
Proof.
  split.
  - reflexivity.
  - intros m. change (pyrUp m) with (twice (map twice m)).
    unfold shape_2d. cbn [fst snd]. f_equal.
    + rewrite length_twice, length_map. reflexivity.
    + destruct m as [|row m]; [reflexivity|]. apply (length_twice row).
  - intros a. change (cvtColor_BGR2GRAY a) with (cvtColor_BGR2GRAY_ref a).
    unfold cvtColor_BGR2GRAY_ref. rewrite map_map. apply map_ext.
    intros row. apply length_map.
  - intros g. change (normalize_MINMAX g) with (normalize_MINMAX_ref g).
    unfold normalize_MINMAX_ref. rewrite map_map. apply map_ext.
    intros row. apply length_map.
Qed.

Section MaskProperties.

Variable load_image : ndarray -> list nat -> result ndarray.

Local Abbreviation to_array := (to_array load_image).
Local Abbreviation coverage := (coverage load_image).
Local Abbreviation memo_sound := (memo_sound load_image).

Lemma Shape_eqb_eq s t : Shape_eqb s t = true <-> s = t.
Proof.
  destruct s as [a b c], t as [a' b' c']; unfold Shape_eqb; simpl.
  rewrite !andb_true_iff, !Nat.eqb_eq. split.
  - intros [[-> ->] ->]; reflexivity.
  - intros [= -> -> ->]; auto.
Qed.

Lemma memo_Some m s a : memo m s = Some a -> _array m = Some a /\ shape a = s.
Proof.
  unfold memo. destruct (_array m) as [c|]; [|discriminate].
  destruct (Shape_eqb (shape c) s) eqn:E; [|discriminate].
  intros [= <-]. apply Shape_eqb_eq in E. auto.
Qed.

Lemma coverage_forget m s : coverage (forget m) s = coverage m s.
Proof.
  induction m using Mask_tree_ind; simpl; [reflexivity|].
  rewrite IHm1, IHm2. reflexivity.
Qed.

Lemma forget_set_array m a : forget (set_array m a) = forget m.
Proof. destruct m; reflexivity. Qed.

Lemma coverage_set_array m a s : coverage (set_array m a) s = coverage m s.
Proof. destruct m; reflexivity. Qed.

(** [load_image] returns an image of the channel count it was asked for,
    with the height and the width it was given. *)
Hypothesis load_image_shape : forall img c a,
    load_image img [c] = Ok a ->
    shape a = mkShape (rows (shape img)) (cols (shape img)) c.

Lemma region_array_shape r s a : region_array r s = Ok a -> shape a = s.
Proof.
  unfold region_array. destruct (Region.intersect _ _) as [q|].
  - destruct (Region.y q), (Region.bottom q), (Region.x q), (Region.right q);
      cbn; try discriminate. intros [= <-]. reflexivity.
  - intros [= <-]. reflexivity.
Qed.

Lemma image_array_shape img s a : image_array load_image img s = Ok a -> shape a = s.
Proof.
  unfold image_array.
  destruct (Nat.eqb (rows (shape img)) (rows s)) eqn:Er; [|discriminate].
  destruct (Nat.eqb (cols (shape img)) (cols s)) eqn:Ec; [|discriminate].
  apply Nat.eqb_eq in Er, Ec. cbn.
  destruct (Nat.eqb (chans (shape img)) (chans s)) eqn:Eh; cbn.
  - apply Nat.eqb_eq in Eh. intros [= <-]. destruct (shape img), s; cbn in *; congruence.
  - intros H. rewrite (load_image_shape _ _ _ H), Er, Ec. destruct s; reflexivity.
Qed.

Lemma apply_invert_shape b a : shape (apply_invert b a) = shape a.
Proof. destruct b; reflexivity. Qed.

Lemma coverage_shape m : forall s a, coverage m s = Ok a -> shape a = s.
Proof.
  induction m as [i r v a0 | i o l r' r v a0 IHl IHr] using Mask_tree_ind;
    intros s a; cbn [coverage _image _binop _region _invert op left right].
  - destruct i as [img|].
    + destruct (image_array load_image img s) as [x|] eqn:E; cbn; [|discriminate].
      intros [= <-]. rewrite apply_invert_shape. eauto using image_array_shape.
    + destruct (region_array r s) as [x|] eqn:E; cbn; [|discriminate].
      intros [= <-]. rewrite apply_invert_shape. eauto using region_array_shape.
  - destruct i as [img|].
    + destruct (image_array load_image img s) as [x|] eqn:E; cbn; [|discriminate].
      intros [= <-]. rewrite apply_invert_shape. eauto using image_array_shape.
    + destruct (coverage l s) as [x|] eqn:El;
        [|destruct (String.eqb o "+"), (String.eqb o "-"); discriminate].
      destruct (coverage r' s) as [y|] eqn:Er;
        [|destruct (String.eqb o "+"), (String.eqb o "-"); discriminate].
      destruct (String.eqb o "+"); [|destruct (String.eqb o "-")]; cbn;
        try discriminate; intros [= <-]; rewrite apply_invert_shape; cbn; eauto.
Qed.

Lemma finish_result m r : (finish m r).2 = rmap (apply_invert (_invert m)) r.
Proof. destruct r; reflexivity. Qed.

Lemma finish_forget m r : forget (finish m r).1 = forget m.
Proof. destruct r, m; reflexivity. Qed.

Lemma coverage_same_forget m m' s :
  forget m' = forget m -> coverage m' s = coverage m s.
Proof. intros H. rewrite <- (coverage_forget m'), H. apply coverage_forget. Qed.

Lemma memo_sound_set_array m x s :
  memo_sound m -> coverage m s = Ok x -> memo_sound (set_array m (Some x)).
Proof.
  intros Hs Hc. destruct m as [i b rg v a]. split.
  - intros c [= <-]. rewrite (coverage_shape _ _ _ Hc).
    etransitivity; [|exact Hc].
    exact (coverage_set_array (mkMask i b rg v a) (Some x) s).
  - exact (proj2 Hs).
Qed.

Lemma finish_sound m r s :
  memo_sound m ->
  coverage m s = rmap (apply_invert (_invert m)) r ->
  (finish m r).2 = coverage m s
  /\ memo_sound (finish m r).1
  /\ forget (finish m r).1 = forget m.
Proof.
  intros Hs Hc. rewrite finish_result, finish_forget, Hc.
  split; [reflexivity|]. split; [|reflexivity].
  destruct r as [x|e]; [|exact Hs]. cbn [finish fst].
  change (rmap (apply_invert (_invert m)) (Ok x))
    with (Ok (apply_invert (_invert m) x)) in Hc.
  exact (memo_sound_set_array _ _ _ Hs Hc).
Qed.

(** Memoisation is transparent: on a mask whose memos are sound,
    [to_array] returns the coverage, and leaves a mask whose memos are
    sound and that is the same mask but for its memos. *)
Lemma to_array_memo m s :
  memo_sound m ->
  (to_array m s).2 = coverage m s
  /\ memo_sound (to_array m s).1
  /\ forget (to_array m s).1 = forget m.
Proof.
  induction m as [i r v a | i o l r' r v a IHl IHr] using Mask_tree_ind;
    intros Hs.
  - cbn [to_array]. destruct (memo _ s) as [c|] eqn:Hm.
    + apply memo_Some in Hm as [Hc <-].
      cbn [fst snd]. rewrite (proj1 Hs c Hc). auto.
    + cbn [_image _binop _region _invert].
      destruct i as [img|]; apply finish_sound; solve [assumption | reflexivity].
  - cbn [to_array]. destruct (memo _ s) as [c|] eqn:Hm.
    + apply memo_Some in Hm as [Hc <-].
      cbn [fst snd]. rewrite (proj1 Hs c Hc). auto.
    + cbn [_image _binop _region _invert op left right].
      destruct i as [img|];
        [apply finish_sound; solve [assumption | reflexivity]|].
      pose proof Hs as Hsm.
      destruct Hs as [Hs0 [Hl Hr]]. cbn [_binop left right] in Hl, Hr.
      specialize (IHl Hl) as (El & Sl & Fl). specialize (IHr Hr) as (Er & Sr & Fr).
      remember (mkMask None (Some (mkBinOp o l r')) r v a) as m eqn:Hm0.
      assert (Hfg : forall l1 r1,
                 forget l1 = forget l -> forget r1 = forget r' ->
                 forget (set_binop m (mkBinOp o l1 r1)) = forget m).
      { intros l1 r1 F1 F2. subst m. cbn. congruence. }
      assert (Hsd : forall l1 r1,
                 memo_sound l1 -> memo_sound r1 ->
                 forget l1 = forget l -> forget r1 = forget r' ->
                 memo_sound (set_binop m (mkBinOp o l1 r1))).
      { intros l1 r1 S1 S2 F1 F2. split; [|split; assumption].
        intros c Hc. rewrite (coverage_same_forget m) by (apply Hfg; auto).
        apply Hs0. subst m. exact Hc. }
      assert (Hcov : coverage m s =
                     rmap (apply_invert v)
                       (if String.eqb o "+"
                        then rmap2 arr_or (coverage l s) (coverage r' s)
                        else if String.eqb o "-"
                        then rmap2 difference (coverage l s) (coverage r' s)
                        else Raise (AssertionError "Unreachable: Unknown op")))
        by (subst m; reflexivity).
      assert (Hv : _invert m = v) by (subst m; reflexivity).
      destruct (to_array l s) as [l' rl]; cbn [fst snd] in El, Sl, Fl.
      destruct (to_array r' s) as [r'' rr]; cbn [fst snd] in Er, Sr, Fr.
      subst rl rr.
      destruct (String.eqb o "+") eqn:Eplus;
        [|destruct (String.eqb o "-") eqn:Eminus]; cbn [orb].
      3:{ cbn [fst snd]. rewrite Hcov. auto. }
      all: destruct (coverage l s) as [al|e];
        [destruct (coverage r' s) as [ar|e]|].
      all: try (cbn [fst snd]; rewrite Hcov; split; [reflexivity|];
                split; [apply Hsd | apply Hfg]; auto; fail).
      all: match goal with
           | |- context [finish ?m' ?x] =>
               destruct (finish_sound m' x s) as (A & B & C);
               [ apply Hsd; assumption
               | rewrite (coverage_same_forget m) by (apply Hfg; assumption);
                 rewrite Hcov; cbn [set_binop _invert]; rewrite Hv; reflexivity
               | rewrite A, C; split;
                 [ apply coverage_same_forget, Hfg; assumption
                 | split; [exact B | apply Hfg; assumption] ] ]
           end.
Qed.

Lemma rmap_apply_invert_false r : rmap (apply_invert false) r = r.
Proof. destruct r; reflexivity. Qed.

Lemma memo_sound_fresh m : memo_sound m -> memo_sound (set_array m None).
Proof. destruct m as [i b rg v a]. intros [_ H]. split; [discriminate | exact H]. Qed.

(** The coverage of [self op other] for masks with sound memos. *)
Lemma binop_coverage o f (a b : Mask) (s : Shape) :
  memo_sound a -> memo_sound b ->
  coverage (mkMask None (Some (mkBinOp o a (set_array b None))) None false None) s
  = rmap2 f (coverage a s) (coverage b s) ->
  exists m, binop_with load_image o a (ArgMask b) = Ok m
            /\ (to_array m s).2 = rmap2 f (to_array a s).2 (to_array b s).2.
Proof.
  intros Ha Hb Hc. eexists. split; [reflexivity|].
  destruct (to_array_memo a s Ha) as (-> & _).
  destruct (to_array_memo b s Hb) as (-> & _).
  rewrite <- Hc.
  apply to_array_memo. split; [discriminate|].
  split; [exact Ha | apply (memo_sound_fresh b Hb)].
Qed.

(** C4.  For every requested shape, [a + b] rasterises to the bitwise OR of
    the coverage of [a] and of [b], [a - b] rasterises to the bitwise AND of
    the coverage of [a] with the complement of the coverage of [b], and a
    mask whose invert flag is set rasterises to the complement of what the
    same mask rasterises to with the flag cleared.  An exception of an
    operand is the exception of the combination, the left operand first. *)
Theorem mask_union_difference_invert (a b : Mask) (s : Shape) :
  memo_sound a -> memo_sound b ->
  (exists m, Mask_add load_image a (ArgMask b) = Ok m
             /\ (to_array m s).2 = rmap2 arr_or (to_array a s).2 (to_array b s).2)
  /\ (exists m, Mask_sub load_image a (ArgMask b) = Ok m
                /\ (to_array m s).2
                   = rmap2 (fun x y => arr_and x (arr_invert y))
                       (to_array a s).2 (to_array b s).2)
  /\ (_invert a = true ->
      (to_array a s).2
      = rmap arr_invert (to_array (set_invert (set_array a None) false) s).2).
Proof.
  intros Ha Hb. split; [|split].
  - apply binop_coverage; try assumption.
    cbn [coverage _image _binop _invert op left right String.eqb Ascii.eqb Bool.eqb].
    rewrite rmap_apply_invert_false, (coverage_set_array b). reflexivity.
  - apply binop_coverage; try assumption.
    cbn [coverage _image _binop _invert op left right String.eqb Ascii.eqb Bool.eqb].
    rewrite rmap_apply_invert_false, (coverage_set_array b). reflexivity.
  - intros Hinv.
    destruct (to_array_memo a s Ha) as (-> & _).
    destruct (to_array_memo (set_invert (set_array a None) false) s) as (-> & _).
    { destruct a as [i bo rg v c]. split; [discriminate | exact (proj2 Ha)]. }
    destruct a as [i bo rg v c]. cbn in Hinv. subst v.
    cbn [coverage set_invert set_array _image _binop _region _invert].
    rewrite rmap_apply_invert_false.
    destruct i as [img|]; [reflexivity|].
    destruct bo as [[o l r]|]; reflexivity.
Qed.

End MaskProperties.

(* ===================================================================== *)
(** ** Pyramids *)
(* ===================================================================== *)

Section PyramidProperties.

Context {cv : Cv2} (sizes : Cv2Sizes cv).

Lemma narrow_test a :
  Nat.ltb (rows (shape a)) 20 || Nat.ltb (cols (shape a)) 20 = false <-> wide a.
Proof.
  unfold wide. rewrite orb_false_iff, !Nat.ltb_ge. reflexivity.
Qed.

Lemma pyrDown_fits small big : fits small big -> fits (pyrDown small) (pyrDown big).
Proof.
  unfold fits. rewrite !(pyrDown_shape cv sizes). cbn [rows cols].
  intros [Hr Hc]. split; apply Nat.Div0.div_le_mono; lia.
Qed.

Lemma last_cons_default {A} (t : list A) : forall a d d',
    List.last (a :: t) d = List.last (a :: t) d'.
Proof.
  induction t as [|b t IH]; intros a d d'; [reflexivity|].
  change (List.last (a :: b :: t) d) with (List.last (b :: t) d).
  change (List.last (a :: b :: t) d') with (List.last (b :: t) d').
  apply IH.
Qed.

Lemma build_pyramid_loop_length n last :
  (length (build_pyramid_loop n last) <= n)%nat.
Proof.
  revert last. induction n as [|n IH]; intros last; cbn [build_pyramid_loop].
  - reflexivity.
  - destruct (_ || _); cbn [length]; [lia|]. specialize (IH (pyrDown last)). lia.
Qed.

Lemma build_pyramid_loop_wide n : forall last k l,
    (last :: build_pyramid_loop n last) !! k = Some l ->
    (S k < length (last :: build_pyramid_loop n last))%nat ->
    wide l.
Proof.
  induction n as [|n IH]; intros last k l; cbn [build_pyramid_loop].
  - cbn [length]. lia.
  - destruct (_ || _) eqn:E; [cbn [length]; lia|].
    apply narrow_test in E. destruct k as [|k].
    + intros [= <-] _. exact E.
    + cbn [lookup list_lookup length]. intros Hl Hk.
      apply (IH (pyrDown last) k l Hl). cbn [length]. lia.
Qed.

Lemma build_pyramid_loop_stops n : forall last,
    (length (build_pyramid_loop n last) < n)%nat ->
    exists l, List.last (last :: build_pyramid_loop n last) last = l /\ ~ wide l.
Proof.
  induction n as [|n IH]; intros last; cbn [build_pyramid_loop].
  - cbn [length]. lia.
  - destruct (_ || _) eqn:E.
    + intros _. exists last. split; [reflexivity|].
      intros H. apply narrow_test in H. congruence.
    + cbn [length]. intros Hlen.
      destruct (IH (pyrDown last)) as (l & Hl & Hn); [lia|].
      exists l. split; [|exact Hn]. rewrite <- Hl.
      change (List.last (last :: pyrDown last :: ?t) last)
        with (List.last (pyrDown last :: t) last).
      apply last_cons_default.
Qed.

Lemma build_pyramid_loop_same_length n : forall template image,
    fits template image ->
    length (build_pyramid_loop (length (build_pyramid_loop n template)) image)
    = length (build_pyramid_loop n template).
Proof.
  induction n as [|n IH]; intros template image Hfit; cbn [build_pyramid_loop].
  - reflexivity.
  - destruct (_ || _) eqn:E; [reflexivity|]. apply narrow_test in E.
    cbn [length build_pyramid_loop].
    assert (Hw : wide image) by (destruct E, Hfit; split; lia).
    apply narrow_test in Hw. rewrite Hw. cbn [length]. f_equal.
    apply IH, pyrDown_fits, Hfit.
Qed.

(** C6, as amended.  [_build_pyramid] stops when the level count is reached
    or when the last level it has built is below 20px in a dimension: every
    level but the last is at least 20px high and wide, a pyramid that is
    shorter than the level count ends in a level that is not, and the
    pyramid of a frame that the template fits in is as long as the pyramid
    of the template. *)
Theorem build_pyramid_levels (image template : ndarray) (levels : Z) :
  let p := _build_pyramid template levels in
  (1 <= length p)%nat
  /\ (Z.of_nat (length p) <= Z.max 1 levels)
  /\ (forall k l, p !! k = Some l -> (S k < length p)%nat -> wide l)
  /\ (Z.of_nat (length p) < levels -> ~ wide (List.last p template))
  /\ (fits template image ->
      length (_build_pyramid image (Z.of_nat (length p))) = length p).
Proof.
  unfold _build_pyramid. cbn zeta. split; [|split; [|split; [|split]]].
  - cbn [length]. lia.
  - pose proof (build_pyramid_loop_length (Z.to_nat (levels - 1)) template).
    cbn [length]. lia.
  - apply build_pyramid_loop_wide.
  - intros Hlen.
    destruct (build_pyramid_loop_stops (Z.to_nat (levels - 1)) template)
      as (l & <- & Hn); [cbn [length] in Hlen; lia | exact Hn].
  - intros Hfit. cbn [length]. f_equal.
    set (n := length (build_pyramid_loop (Z.to_nat (levels - 1)) template)).
    replace (Z.to_nat (Z.of_nat (S n) - 1)) with n by lia.
    apply build_pyramid_loop_same_length, Hfit.
Qed.

End PyramidProperties.

(* ===================================================================== *)
(** ** The search over the levels *)
(* ===================================================================== *)

Section LevelProperties.

Context {cv : Cv2} (sizes : Cv2Sizes cv).

(** The region of interest is dropped exactly when the mask that the coarser
    level left, not yet scaled up, is below 3px in a dimension. *)
Lemma upsample_roi_None (m : array2 Z) :
  upsample_roi (Some m) = None
  <-> ((shape_2d m).1 < 3 \/ (shape_2d m).2 < 3)%nat.
Proof.
  unfold upsample_roi.
  destruct (Nat.ltb_spec (shape_2d m).1 3) as [H1|H1];
    destruct (Nat.ltb_spec (shape_2d m).2 3) as [H2|H2]; cbn [orb];
    split; intros H; solve [reflexivity | discriminate H | lia].
Qed.

(** C5.  When the region-of-interest mask of the coarser level, scaled up for
    the next finer level, is below 3px in a dimension, the engine has no
    region of interest at that level: [_match_template] searches the one
    rectangle that is the whole heat map, and the level runs as it does with
    [roi_mask = None]. *)
Theorem narrow_roi_searches_whole_image
        (m : array2 Z) (heatmap : array2 Q)
        (match_parameters : MatchParameters) (method : TemplateMatchMode)
        (image_pyramid template_pyramid : list ndarray)
        (level : nat) (rest : list nat) (last : option LevelResult) :
  ((shape_2d (pyrUp m)).1 < 3 \/ (shape_2d (pyrUp m)).2 < 3)%nat ->
  upsample_roi (Some m) = None
  /\ search_rois heatmap (upsample_roi (Some m))
     = [_Rect.mk 0 0 (Z.of_nat (shape_2d heatmap).2) (Z.of_nat (shape_2d heatmap).1)]
  /\ search_levels match_parameters method image_pyramid template_pyramid
       (level :: rest) (Some m) last
     = search_levels match_parameters method image_pyramid template_pyramid
         (level :: rest) None last.
Proof.
  rewrite (pyrUp_shape cv sizes). cbn [fst snd]. intros Hnarrow.
  assert (Hroi : upsample_roi (Some m) = None) by (apply upsample_roi_None; lia).
  split; [exact Hroi|]. split.
  - rewrite Hroi. reflexivity.
  - cbn [search_levels]. rewrite Hroi. reflexivity.
Qed.

End LevelProperties.

(* ===================================================================== *)
(** ** The confirmation pass *)
(* ===================================================================== *)

Lemma Qltb_lt a b : Qltb a b = true <-> (a < b)%Q.
Proof.
  unfold Qltb. rewrite negb_true_iff, <- not_true_iff_false, Qle_bool_iff.
  split; [apply Qnot_le_lt | apply Qlt_not_le].
Qed.

(** Truncating a threshold that is not negative does not change which
    integers are above it. *)
Lemma int_of_threshold (q : Q) (d : Z) :
  (0 <= q)%Q -> (int_of q <? d) = Qltb q (inject_Z d).
Proof.
  destruct q as [n p]. unfold Qle, int_of, Qltb, Qle_bool, inject_Z. cbn.
  intros Hn. rewrite Z.quot_div_nonneg by lia.
  destruct (Z.ltb_spec (n / Z.pos p) d) as [H|H];
    destruct (Z.leb_spec (d * Z.pos p) (n * 1)) as [H'|H']; cbn; try reflexivity.
  - exfalso. assert (d <= n / Z.pos p) by (apply Z.div_le_lower_bound; lia). lia.
  - exfalso. assert (n / Z.pos p < d) by (apply Z.div_lt_upper_bound; lia). lia.
Qed.

Lemma countNonZero_zero (a : array2 Z) :
  Nat.eqb (countNonZero a) 0 = forallb (forallb (Z.eqb 0)) a.
Proof.
  unfold countNonZero.
  induction a as [|row a IH]; [reflexivity|].
  cbn [concat forallb]. rewrite filter_app, length_app.
  destruct (forallb (Z.eqb 0) row) eqn:Hrow; cbn [andb].
  - rewrite <- IH. replace (filter (fun v => v <> 0) row) with (@nil Z); [reflexivity|].
    symmetry. clear IH. induction row as [|v row IHr]; [reflexivity|].
    cbn [forallb] in Hrow. apply andb_true_iff in Hrow as [Hv Hrow].
    apply Z.eqb_eq in Hv. subst v. rewrite filter_cons_False by auto. auto.
  - apply Nat.eqb_neq. clear IH.
    induction row as [|v row IHr]; [discriminate|].
    cbn [forallb] in Hrow. destruct (Z.eqb_spec 0 v) as [<-|Hv]; cbn [andb] in Hrow.
    + rewrite filter_cons_False by auto. auto.
    + rewrite filter_cons_True by auto. cbn [length]. lia.
Qed.

Section ConfirmProperties.

Context {cv : Cv2}.
Variables image template : ndarray.
Variable match_parameters : MatchParameters.

Lemma threshold_exceeds (a : array2 Z) :
  (0 <= confirm_threshold match_parameters)%Q ->
  threshold_u8 a (int_of (confirm_threshold match_parameters * 255)%Q) 255
  = map (map (fun d => if exceeds match_parameters d then 255 else 0)) a.
Proof.
  intros Hct. unfold threshold_u8, exceeds.
  apply map_ext. intros row. apply map_ext. intros d.
  rewrite int_of_threshold; [reflexivity|].
  apply Qmult_le_0_compat; [exact Hct | discriminate].
Qed.


End ConfirmProperties.

(* ===================================================================== *)
(** ** [match_all] *)
(* ===================================================================== *)

Lemma matches_before_app ts f rest :
  Forall (fun r => match_ r = true) ts -> match_ f = false ->
  matches_before (ts ++ f :: rest) = ts.
Proof.
  intros Hts Hf. induction Hts as [|t ts Ht _ IH]; cbn [matches_before app].
  - rewrite Hf. reflexivity.
  - rewrite Ht, IH. reflexivity.
Qed.

Lemma filter_matches ts f :
  Forall (fun r => match_ r = true) ts -> match_ f = false ->
  filter (fun r => match_ r = true) (ts ++ [f]) = ts.
Proof.
  intros Hts Hf. induction Hts as [|t ts Ht _ IH]; cbn [app].
  - rewrite filter_cons_False by congruence. reflexivity.
  - rewrite filter_cons_True by exact Ht. rewrite IH. reflexivity.
Qed.

Section MatchAllProperties.

Context {cv : Cv2}.
Variable pyramid_levels : Z.
Variable _image_region : Frame -> Region.t.
Variable crop : Frame -> option Region.t -> result ndarray.
Variable template : ndarray.
Variable the_frame : result Frame.
Variable match_parameters : MatchParameters.
Variable search_region : option Region.t.

Local Abbreviation private :=
  (_match_all pyramid_levels _image_region crop template the_frame
              match_parameters search_region).
Local Abbreviation public :=
  (match_all pyramid_levels _image_region crop template the_frame
             match_parameters search_region).

(** [match_all] asks [_match_all] once for each of its own values, passes
    the matches on, and returns at the first result that is not a match. *)
Lemma match_all_run fuel : forall any_matches g,
    run public fuel (any_matches, g)
    = (matches_before (run private fuel g).1,
       if forallb match_ (run private fuel g).1
       then (run private fuel g).2 else Finished).
Proof.
  induction fuel as [|fuel IH]; intros any_matches g; [reflexivity|].
  cbn [run match_all].
  destruct (private g) as [r g'| |e]; try reflexivity.
  destruct (match_ r) eqn:Hr.
  - rewrite (IH true g'). destruct (run private fuel g') as [rs e].
    cbn [fst snd matches_before forallb]. rewrite Hr. reflexivity.
  - destruct (run private fuel g') as [rs e].
    cbn [fst snd matches_before forallb]. rewrite Hr. reflexivity.
Qed.

Lemma matches_before_all rs : Forall (fun r => match_ r = true) (matches_before rs).
Proof.
  induction rs as [|r rs IH]; cbn [matches_before]; [constructor|].
  destruct (match_ r) eqn:Hr; constructor; assumption.
Qed.

(** C10.  Every value of [match_all] is a match.  When the underlying
    [_match_all] yields matches [ts] and then a result [f] that is not one,
    [match_all] yields [ts], which are the results of the underlying search
    that are matches, and returns without yielding [f]; when the first
    result of the underlying search is not a match, [match_all] yields
    nothing. *)
Theorem match_all_yields_the_matches (fuel : nat) (any_matches : bool)
        (g : MatchAllGen) :
  Forall (fun r => match_ r = true) (run public fuel (any_matches, g)).1
  /\ (forall ts f e,
         run private fuel g = (ts ++ [f], e) ->
         Forall (fun r => match_ r = true) ts -> match_ f = false ->
         run public fuel (any_matches, g) = (ts, Finished)
         /\ ts = filter (fun r => match_ r = true) (ts ++ [f])
         /\ ~ In f (run public fuel (any_matches, g)).1)
  /\ (forall f e,
         run private fuel g = ([f], e) -> match_ f = false ->
         run public fuel (any_matches, g) = ([], Finished)).
Proof.
  rewrite match_all_run. cbn [fst]. split; [apply matches_before_all|].
  assert (Hmain : forall ts f e,
             run private fuel g = (ts ++ [f], e) ->
             Forall (fun r => match_ r = true) ts -> match_ f = false ->
             (matches_before (run private fuel g).1,
              if forallb match_ (run private fuel g).1
              then (run private fuel g).2 else Finished) = (ts, Finished)).
  { intros ts f e Hrun Hts Hf. rewrite Hrun. cbn [fst snd].
    rewrite matches_before_app by assumption.
    replace (forallb match_ (ts ++ [f])) with false; [reflexivity|].
    symmetry. rewrite forallb_app. cbn [forallb]. rewrite Hf.
    apply andb_false_r. }
  split.
  - intros ts f e Hrun Hts Hf. rewrite (Hmain ts f e Hrun Hts Hf).
    split; [reflexivity|]. split; [symmetry; apply filter_matches; assumption|].
    cbn [fst]. rewrite Hrun. cbn [fst].
    rewrite matches_before_app by assumption.
    intros Hin. rewrite List.Forall_forall in Hts.
    specialize (Hts f Hin). congruence.
  - intros f e Hrun Hf. exact (Hmain [] f e Hrun (List.Forall_nil _) Hf).
Qed.

End MatchAllProperties.

(* ===================================================================== *)
(** ** [Display.get_frame] *)
(* ===================================================================== *)

Lemma fresh_Some since c f :
  fresh since c = Some f
  <-> c = CellFrame f /\ exists ft, time f = Some ft /\ (since < ft)%Q.
Proof.
  unfold fresh. split.
  - destruct c as [|f'|m]; try discriminate.
    destruct (time f') as [ft|] eqn:Ht; [|discriminate].
    destruct (Qltb since ft) eqn:Hlt; [|discriminate].
    intros [= ->]. split; [reflexivity|]. exists ft. split; [exact Ht|].
    apply Qltb_lt, Hlt.
  - intros (-> & ft & -> & Hlt). apply Qltb_lt in Hlt. rewrite Hlt. reflexivity.
Qed.

Lemma undecided_step since end_time written t rest d :
  undecided since end_time
    (last_frame (fold_left tell_user_thread written d), t) ->
  get_frame_loop since end_time ((written, t) :: rest) d
  = get_frame_loop since end_time rest (fold_left tell_user_thread written d).
Proof.
  intros (Hfresh & Hexn & Htime). cbn [fst snd] in *.
  cbn [get_frame_loop]. rewrite Hfresh.
  destruct (Qltb end_time t) eqn:Hlt; [apply Qltb_lt in Hlt; contradiction|].
  destruct (last_frame _) as [|f|m]; try reflexivity.
  exfalso. apply (Hexn m). reflexivity.
Qed.

(** The loop of [get_frame], at the first round that decides. *)
Lemma get_frame_loop_decides since end_time : forall rounds d k c t,
    observed d rounds !! k = Some (c, t) ->
    Forall (undecided since end_time) (take k (observed d rounds)) ->
    (forall f, fresh since c = Some f ->
               (get_frame_loop since end_time rounds d).2 = Done (Ok f)
               /\ last_used_frame (get_frame_loop since end_time rounds d).1 = Some f)
    /\ (forall message, c = CellException message ->
                        (get_frame_loop since end_time rounds d).2
                        = Done (Raise (RuntimeError message)))
    /\ (fresh since c = None -> (forall message, c <> CellException message) ->
        (end_time < t)%Q ->
        (get_frame_loop since end_time rounds d).2
        = Done (Raise (NoVideo "No video"))).
Proof.
  induction rounds as [|[written t0] rounds IH]; intros d k c t Hk Hpre.
  - discriminate Hk.
  - cbn [observed] in Hk, Hpre. destruct k as [|k].
    + injection Hk as Hc Ht. subst t0. cbn [get_frame_loop]. rewrite Hc.
      split; [|split].
      * intros f Hf. rewrite Hf. cbn [fst snd]. split; reflexivity.
      * intros m ->. reflexivity.
      * intros Hfresh Hexn Hlt. rewrite Hfresh.
        apply Qltb_lt in Hlt. rewrite Hlt.
        destruct c as [|f|m]; try reflexivity. exfalso. apply (Hexn m). reflexivity.
    + cbn [take] in Hpre. apply Forall_cons in Hpre as [H0 Hpre].
      rewrite (undecided_step _ _ _ _ _ _ H0).
      apply (IH _ k c t Hk Hpre).
Qed.

(** While no round decides, [get_frame] is still waiting. *)
Lemma get_frame_loop_waits since end_time : forall rounds d,
    Forall (undecided since end_time) (observed d rounds) ->
    (get_frame_loop since end_time rounds d).2 = Waiting.
Proof.
  induction rounds as [|[written t0] rounds IH]; intros d Hall; [reflexivity|].
  cbn [observed] in Hall. apply Forall_cons in Hall as [H0 Hall].
  rewrite (undecided_step _ _ _ _ _ _ H0). apply IH, Hall.
Qed.

(** C3.  [get_frame(timeout_secs, since)], called at time [now], looks at
    the cell in round after round.  In the first round [k] in which the cell
    holds a frame that is newer than [since], or an exception, or in which
    the time is later than [now + timeout_secs], it returns that frame,
    raises a [RuntimeError] with the message of that exception, or raises
    [NoVideo], in this order of precedence; [since] is
    [now - timeout_secs] when it is not given. *)
Theorem get_frame_outcome (timeout_secs now : Q) (since : option Q)
        (rounds : list Round) (d : Display) (k : nat) (c : Cell) (t : Q) :
  let cutoff := match since with Some s => s | None => (now - timeout_secs)%Q end in
  let end_time := (now + timeout_secs)%Q in
  observed d rounds !! k = Some (c, t) ->
  Forall (undecided cutoff end_time) (take k (observed d rounds)) ->
  (forall f ft, c = CellFrame f -> time f = Some ft -> (cutoff < ft)%Q ->
                (get_frame timeout_secs since now rounds d).2 = Done (Ok f))
  /\ (forall message, c = CellException message ->
                      (get_frame timeout_secs since now rounds d).2
                      = Done (Raise (RuntimeError message)))
  /\ (fresh cutoff c = None -> (forall message, c <> CellException message) ->
      (end_time < t)%Q ->
      (get_frame timeout_secs since now rounds d).2
      = Done (Raise (NoVideo "No video"))).
Proof.
  intros cutoff end_time Hk Hpre. unfold get_frame. fold cutoff end_time.
  destruct (get_frame_loop_decides cutoff end_time rounds d k c t Hk Hpre)
    as (Hframe & Hexn & Htime).
  split; [|split].
  - intros f ft -> Hft Hlt. apply Hframe, fresh_Some. eauto.
  - exact Hexn.
  - exact Htime.
Qed.

(* ===================================================================== *)
(** ** Underruns *)
(* ===================================================================== *)

(** An underrun while [underrun_timeout] is set changes nothing: no timeout
    is armed. *)
Lemma on_underrun_ignored d g t :
  underrun_timeout d = Some t -> on_underrun (d, g) = (d, g).
Proof. intros H. cbn [on_underrun]. rewrite H. reflexivity. Qed.

Lemma emit_underrun_again s :
  emit_underrun (emit_underrun s) = emit_underrun s.
Proof.
  destruct s as [[cell used [[state [|]]|] [t|] down enabled] g]; reflexivity.
Qed.

Lemma emit_underrun_repeated n s :
  Nat.iter (S n) emit_underrun s = emit_underrun s.
Proof.
  induction n as [|n IH]; [reflexivity|].
  change (Nat.iter (S (S n)) emit_underrun s)
    with (emit_underrun (Nat.iter (S n) emit_underrun s)).
  rewrite IH. apply emit_underrun_again.
Qed.

(** X28.  Whatever underrun and running signals arrive, in whatever order,
    at most one timeout is armed on top of the ones that were armed before. *)
Lemma debounce_one_timeout (signals : list QueueSignal) (base : gmap nat (Z * Handler))
      (p : Pipeline) : forall s,
    source_pipeline s.1 = Some p ->
    underrun_connected p = true ->
    (1 <= next_source_id s.2)%nat ->
    (forall id, (next_source_id s.2 <= id)%nat -> base !! id = None) ->
    debouncing base s ->
    debouncing base (fold_left (fun s e => emit e s) signals s).
Proof.
  induction signals as [|e signals IH]; intros [d g] Hp Hc Hnext Hfresh Hs;
    [exact Hs|].
  cbn [fold_left fst snd] in *.
  assert (Hstep : source_pipeline (emit e (d, g)).1 = Some p
                  /\ (next_source_id g <= next_source_id (emit e (d, g)).2)%nat
                  /\ debouncing base (emit e (d, g))).
  { destruct e; cbn [emit]; unfold emit_underrun, emit_running; cbn [fst];
      rewrite Hp, Hc; cbn [on_underrun on_running].
    - destruct Hs as [[Hnone Hbase]|(id & Hsome & Hid & Hfree & Hsources)];
        cbn [fst snd] in *.
      + rewrite Hnone.
        cbn [GObjectTimeout_start timeout_add timeout_secs handler fst snd
             set_underrun_timeout source_pipeline next_source_id].
        split; [exact Hp|]. split; [lia|]. right. exists (next_source_id g).
        cbn [fst snd underrun_timeout next_source_id sources].
        split; [reflexivity|]. split; [lia|]. split; [apply Hfresh; lia|].
        rewrite Hbase. reflexivity.
      + rewrite Hsome. cbn [fst snd]. split; [exact Hp|]. split; [lia|].
        right. exists id. auto.
    - destruct Hs as [[Hnone Hbase]|(id & Hsome & Hid & Hfree & Hsources)];
        cbn [fst snd] in *.
      + rewrite Hnone. cbn [fst snd]. split; [exact Hp|]. split; [lia|].
        left. auto.
      + rewrite Hsome.
        cbn [GObjectTimeout_cancel timeout_id fst snd set_underrun_timeout
             source_pipeline].
        destruct (Nat.eqb_spec id 0) as [H0|_]; [lia|].
        cbn [source_remove next_source_id]. split; [exact Hp|]. split; [lia|].
        left. cbn [fst snd underrun_timeout sources]. split; [reflexivity|].
        unfold source_remove. cbn [sources].
        rewrite Hsources. apply delete_insert_id, Hfree. }
  destruct Hstep as (Hp' & Hnext' & Hs').
  apply IH; try assumption; [lia|].
  intros id Hid. apply Hfresh. lia.
Qed.

(** C8.  With the underrun handler connected and no underrun timeout
    outstanding, any number of consecutive underrun signals leaves the state
    that one signal leaves: a single new timeout, which calls
    [restart_source] after 2s.  When it expires the source is restarted
    once, and the timeout is gone: what is armed afterwards is what was
    armed before the signals and the 5s timeout of [start_source]. *)
Theorem underruns_restart_once (n : nat) (d : Display) (g : MainLoop)
        (p : Pipeline) :
  source_pipeline d = Some p ->
  underrun_connected p = true ->
  underrun_timeout d = None ->
  sources g !! next_source_id g = None ->
  let id := next_source_id g in
  let after := Nat.iter (S n) emit_underrun (d, g) in
  after = emit_underrun (d, g)
  /\ sources after.2 = <[id := (2000, restart_source_handler)]> (sources g)
  /\ underrun_timeout after.1
     = Some (mkGObjectTimeout 2 restart_source_handler (Some id))
  /\ emit_underrun after = after
  /\ exists d' g',
      fire id after = Ok (d', g')
      /\ warnings g' = warnings g ++ [restart_warning]
      /\ source_pipeline d' = None
      /\ sources g' = <[S id := (5000, start_source_handler)]> (sources g).
Proof.
  intros Hp Hc Ht Hfresh id after.
  assert (Hone : after = emit_underrun (d, g)) by apply emit_underrun_repeated.
  assert (Hstate : emit_underrun (d, g)
                   = (set_underrun_timeout d
                        (Some (mkGObjectTimeout 2 restart_source_handler (Some id))),
                      mkMainLoop (<[id := (2000, restart_source_handler)]> (sources g))
                                 (S id) (warnings g))).
  { unfold emit_underrun. cbn [fst]. rewrite Hp, Hc. cbn [on_underrun].
    rewrite Ht. reflexivity. }
  split; [exact Hone|]. rewrite Hone.
  split; [rewrite Hstate; reflexivity|].
  split; [rewrite Hstate; reflexivity|].
  split; [apply emit_underrun_again|].
  rewrite Hstate. cbn [fire sources]. rewrite lookup_insert_eq.
  cbn [rbind restart_source set_underrun_timeout source_pipeline]. rewrite Hp.
  eexists _, _. split; [reflexivity|].
  cbn [warnings source_remove warn sources next_source_id GObjectTimeout_start
       timeout_add timeout_secs handler set_source_pipeline source_pipeline].
  split; [reflexivity|]. split; [reflexivity|].
  rewrite delete_insert_ne by (subst id; lia).
  rewrite delete_insert_id by exact Hfresh. reflexivity.
Qed.

(* ===================================================================== *)
(** ** [_find_matches] *)
(* ===================================================================== *)

Section FindMatchesProperties.

Context {cv : Cv2}.
Variable pyramid_levels : Z.
Variables image template : ndarray.
Variable match_parameters : MatchParameters.

Local Abbreviation find := (_find_matches pyramid_levels image template match_parameters).
Local Abbreviation round := (find_matches_round pyramid_levels image template match_parameters).
Local Abbreviation confirm := (_confirm_match image template match_parameters).
Local Abbreviation unconfirmed := (unconfirmed image template match_parameters).
Local Abbreviation judged := (judged image template match_parameters).

Lemma candidate_never_stops_at_start :
  _find_candidate_matches pyramid_levels image template match_parameters CandidateStart
  <> Stopped.
Proof.
  cbn [_find_candidate_matches]. destruct (first_candidate _ _ _ _); discriminate.
Qed.

Lemma candidate_yield c cand c' :
  _find_candidate_matches pyramid_levels image template match_parameters c
  = Yielded cand c' ->
  exists f, c' = CandidateAtYield f /\ cand_matched cand = cf_matched f.
Proof.
  destruct c as [|f0]; cbn [_find_candidate_matches].
  - destruct (first_candidate _ _ _ _) as [f|e]; [|discriminate].
    intros [= <- <-]. eauto.
  - unfold next_candidate. destruct (negb (cf_matched f0)); [discriminate|].
    destruct (negb _); [discriminate|].
    match goal with |- match ?r with _ => _ end = _ -> _ => destruct r as [f|e] end;
      [|discriminate].
    intros [= <- <-]. eauto.
Qed.

(** One round: the value is a match iff the first pass matched and the
    second pass confirmed it. *)
Lemma round_yield c y g :
  round c = Yielded y g ->
  reachable g
  /\ (exists c', g = FindAtYield c' (found_matched y))
  /\ (found_matched y = true -> found_first_pass_matched y = true)
  /\ (found_matched y = false -> unconfirmed y).
Proof.
  unfold find_matches_round.
  destruct (_find_candidate_matches _ _ _ _ c) as [cand c'| |e] eqn:Hc;
    try discriminate.
  apply candidate_yield in Hc as (f & -> & Hm).
  destruct (cand_matched cand) eqn:Hcm.
  - destruct (confirm (cand_region cand)) as [b|e] eqn:Hconf; [|discriminate].
    intros [= <- <-]. cbn [reachable found_matched found_first_pass_matched found_region].
    split; [congruence|]. split; [eauto|]. split; [reflexivity|].
    intros ->. split; [reflexivity|]. right. split; [reflexivity|]. eauto.
  - intros [= <- <-]. cbn [reachable found_matched found_first_pass_matched].
    split; [discriminate|]. split; [eauto|]. split; [discriminate|].
    intros _. split; [reflexivity|]. left. reflexivity.
Qed.

Lemma round_never_stops_at_start : round CandidateStart <> Stopped.
Proof.
  unfold find_matches_round.
  pose proof candidate_never_stops_at_start as H.
  destruct (_find_candidate_matches _ _ _ _ CandidateStart) as [cand c'| |e];
    [|contradiction|discriminate].
  destruct (if cand_matched cand then _ else _); discriminate.
Qed.

(** A candidate generator that is asked again after a match does not
    return: it yields the next candidate or raises. *)
Lemma round_never_stops_after_match f :
  cf_matched f = true -> round (CandidateAtYield f) <> Stopped.
Proof.
  intros Hm. unfold find_matches_round. cbn [_find_candidate_matches].
  unfold next_candidate. rewrite Hm. cbn [negb].
  destruct (negb _); [discriminate|].
  match goal with
  | |- match match ?r with _ => _ end with _ => _ end <> _ => destruct r as [f'|e]
  end; [|discriminate].
  destruct (if cand_matched _ then _ else _); discriminate.
Qed.

(** The shape of a run that has finished. *)
Lemma finished_run fuel : forall g ys,
    reachable g ->
    run find fuel g = (ys, Finished) ->
    match g with
    | FindAtYield _ false => ys = []
    | _ => exists ts f, ys = ts ++ [f]
                        /\ Forall (fun y => found_matched y = true) ts
                        /\ unconfirmed f
    end.
Proof.
  induction fuel as [|fuel IH]; intros g ys Hg; [discriminate|].
  cbn [run].
  assert (Hround : forall c,
             (round c <> Stopped) ->
             match round c with
             | Yielded y s' => let (ys0, e) := run find fuel s' in (y :: ys0, e)
             | Stopped => ([], Finished)
             | Raised e => ([], Failed e)
             end = (ys, Finished) ->
             exists ts f, ys = ts ++ [f]
                          /\ Forall (fun y => found_matched y = true) ts
                          /\ unconfirmed f).
  { intros c Hns. destruct (round c) as [y g'| |e] eqn:Hr;
      [|contradiction|discriminate].
    apply round_yield in Hr as (Hg' & (c' & ->) & Htrue & Hfalse).
    destruct (run find fuel (FindAtYield c' (found_matched y))) as [ys0 e0] eqn:Hrun.
    intros [= <- ->]. specialize (IH _ _ Hg' Hrun).
    destruct (found_matched y) eqn:Hy.
    - destruct IH as (ts & f & -> & Hts & Hf).
      exists (y :: ts), f. split; [reflexivity|]. split; [|exact Hf].
      constructor; assumption.
    - subst ys0. exists [], y. split; [reflexivity|]. split; [constructor|].
      apply Hfalse. reflexivity. }
  destruct g as [|c confirmed]; cbn [_find_matches].
  - destruct (_ || _); [discriminate|]. destruct (_ || _); [discriminate|].
    destruct (negb _); [discriminate|].
    apply Hround, round_never_stops_at_start.
  - destruct confirmed; cbn [negb].
    + destruct c as [|f]; [contradiction|]. cbn [reachable] in Hg.
      apply Hround, round_never_stops_after_match, Hg. reflexivity.
    + intros [= <-]. reflexivity.
Qed.

Lemma Region_list_inj r r0 : Region_list r = Region_list r0 -> r = r0.
Proof. destruct r, r0. intros [= -> -> -> ->]. reflexivity. Qed.

(** One round: the value says what the two passes said. *)
Lemma round_judged c y g : round c = Yielded y g -> judged y.
Proof.
  unfold find_matches_round.
  destruct (_find_candidate_matches _ _ _ _ c) as [cand c'| |e]; try discriminate.
  destruct (cand_matched cand) eqn:Hcm.
  - destruct (confirm (cand_region cand)) as [b|e] eqn:Hconf; [|discriminate].
    intros [= <- <-]. split; [exists (cand_region cand); reflexivity|].
    cbn [found_region found_first_pass_matched found_matched].
    intros r Hr. apply Region_list_inj in Hr as ->. exact Hconf.
  - intros [= <- <-]. split; [exists (cand_region cand); reflexivity|].
    cbn [found_region found_first_pass_matched found_matched].
    intros r _. reflexivity.
Qed.

Lemma find_start :
  (exists e, find FindStart = Raised e) \/ find FindStart = round CandidateStart.
Proof.
  cbn [_find_matches]. destruct (_ || _); [left; eauto|].
  destruct (_ || _); [left; eauto|].
  destruct (negb _); [left; eauto | right; reflexivity].
Qed.

(** A generator that has yielded a value that is not a match returns when
    it is asked again. *)
Lemma run_after_false fuel c :
  run find (S fuel) (FindAtYield c false) = ([], Finished).
Proof. reflexivity. Qed.

(** The values of a run: each says what the two passes said, one that is
    not a match is the last, and the generator returns after it. *)
Lemma run_judged fuel : forall g ys e,
    reachable g ->
    (forall c, g <> FindAtYield c false) ->
    run find fuel g = (ys, e) ->
    Forall judged ys
    /\ (forall i y, ys !! i = Some y -> found_matched y = false -> S i = length ys)
    /\ (forall ts f, ys = ts ++ [f] -> found_matched f = false ->
                     run find (S fuel) g = (ys, Finished)).
Proof.
  induction fuel as [|fuel IH]; intros g ys e Hg Hlive.
  - intros [= <- <-]. split; [constructor|]. split.
    + intros i y Hi. discriminate Hi.
    + intros [|t ts] f Hys; discriminate Hys.
  - assert (Hround : forall c,
               find g = round c ->
               run find (S fuel) g = (ys, e) ->
               Forall judged ys
               /\ (forall i y, ys !! i = Some y -> found_matched y = false ->
                               S i = length ys)
               /\ (forall ts f, ys = ts ++ [f] -> found_matched f = false ->
                                run find (S (S fuel)) g = (ys, Finished))).
    { intros c Hfind Hrun0.
      assert (Hstep : forall n,
                 run find (S n) g
                 = match round c with
                   | Yielded y s' => let (ys0, e0) := run find n s' in (y :: ys0, e0)
                   | Stopped => ([], Finished)
                   | Raised e0 => ([], Failed e0)
                   end)
        by (intros n; cbn [run]; rewrite Hfind; reflexivity).
      rewrite Hstep in Hrun0. rewrite (Hstep (S fuel)). clear Hstep.
      revert Hrun0.
      destruct (round c) as [y g'| |e0] eqn:Hr.
      - pose proof (round_judged _ _ _ Hr) as Hy.
        apply round_yield in Hr as (Hg' & (c' & ->) & _ & _).
        destruct (run find fuel (FindAtYield c' (found_matched y))) as [ys0 e1] eqn:Hrun.
        intros [= <- <-].
        destruct (found_matched y) eqn:Hm.
        + destruct (IH _ _ _ Hg' ltac:(intros c0; discriminate) Hrun)
            as (Hall & Hlast & Hend).
          split; [constructor; assumption|]. split.
          * intros [|i] y0 Hi Hf; cbn in Hi.
            -- injection Hi as <-. congruence.
            -- cbn [length]. f_equal. exact (Hlast i y0 Hi Hf).
          * intros [|t ts] f Hys Hf; cbn in Hys.
            -- injection Hys as Hy1 Hy2. congruence.
            -- injection Hys as <- ->. rewrite (Hend ts f eq_refl Hf). reflexivity.
        + assert (ys0 = []) as ->.
          { destruct fuel; cbn in Hrun; congruence. }
          split; [constructor; [assumption | constructor]|]. split.
          * intros [|i] y0 Hi Hf; cbn in Hi; [reflexivity | discriminate Hi].
          * intros ts f _ _. rewrite run_after_false. reflexivity.
      - intros [= <- <-]. split; [constructor|]. split.
        + intros i y Hi. discriminate Hi.
        + intros [|t ts] f Hys; discriminate Hys.
      - intros [= <- <-]. split; [constructor|]. split.
        + intros i y Hi. discriminate Hi.
        + intros [|t ts] f Hys; discriminate Hys. }
    destruct g as [|c confirmed].
    + destruct find_start as [[e0 He]|Hs]; [|exact (Hround CandidateStart Hs)].
      cbn [run]. rewrite He. intros [= <- <-]. split; [constructor|]. split.
      * intros i y Hi. discriminate Hi.
      * intros [|t ts] f Hys; discriminate Hys.
    + destruct confirmed; [|exfalso; exact (Hlive c eq_refl)].
      apply (Hround c). reflexivity.
Qed.


End FindMatchesProperties.

(** With [match_threshold=0] and a correlation method, the value that masks
    a match, 0, is itself at the threshold: the masked position matches
    again, for ever. *)
Lemma masked_frame_step (i : nat) :
  _find_matches 3 grey_200 grey_200 anything_matches
    (FindAtYield (CandidateAtYield (masked_frame i)) true)
  = Yielded masked_found
            (FindAtYield (CandidateAtYield (masked_frame (S i))) true).
Proof. reflexivity. Qed.

Lemma masked_frame_run (n : nat) : forall i,
    run (_find_matches 3 grey_200 grey_200 anything_matches) n
        (FindAtYield (CandidateAtYield (masked_frame i)) true)
    = (replicate n masked_found, Suspended).
Proof.
  induction n as [|n IH]; intros i; [reflexivity|].
  cbn [run]. rewrite masked_frame_step, IH. reflexivity.
Qed.

(** C1, at [MatchParameters(match_method="ccorr-normed", match_threshold=0,
    confirm_method="none")] with a frame and a template that are the same
    single pixel: however many values are asked of [_find_matches], each of
    them is a match, and the generator has not returned. *)
Theorem find_matches_never_ends_when_anything_matches (n : nat) :
  let out := run (_find_matches 3 grey_200 grey_200 anything_matches) n FindStart in
  length out.1 = n
  /\ Forall (fun y => found_matched y = true) out.1
  /\ out.2 = Suspended.
Proof.
  pose (first := mkCandidateFrame 0 [[120000 # 120000]] TM_CCORR_NORMED 0 0 true
                   (Region_at (Position.mk 0 0) 1 1) (120000 # 120000)).
  assert (H0 : _find_matches 3 grey_200 grey_200 anything_matches FindStart
               = Yielded (mkFound true [Fin 0; Fin 0; Fin 1; Fin 1] true
                                  (120000 # 120000))
                         (FindAtYield (CandidateAtYield first) true))
    by reflexivity.
  assert (H1 : _find_matches 3 grey_200 grey_200 anything_matches
                 (FindAtYield (CandidateAtYield first) true)
               = Yielded masked_found
                         (FindAtYield (CandidateAtYield (masked_frame 1)) true))
    by reflexivity.
  destruct n as [|[|n]]; cbn [run].
  - cbn. auto.
  - rewrite H0. cbn. repeat constructor.
  - rewrite H0, H1, masked_frame_run. cbn [fst snd length].
    rewrite length_replicate. split; [reflexivity|]. split; [|reflexivity].
    repeat constructor. apply Forall_replicate. reflexivity.
Qed.


(** C6 fails at a frame of 20x20: the level that [_build_pyramid] adds is
    10x10. *)
Lemma build_pyramid_level_below_20 :
  map shape (_build_pyramid (solid 20 20 0 0 0) 3)
  = [mkShape 20 20 3; mkShape 10 10 3]
  /\ ~ (forall image levels l,
           In l (_build_pyramid image levels) ->
           (20 <= rows (shape l))%nat /\ (20 <= cols (shape l))%nat).
Proof.
  split; [reflexivity|].
  intros H. specialize (H (solid 20 20 0 0 0) 3 (pyrDown (solid 20 20 0 0 0))).
  destruct H as [H _]; [right; left; reflexivity|].
  cbn in H. lia.
Qed.

(* ===================================================================== *)
(** ** No region *)
(* ===================================================================== *)

Lemma Coord_ltb_max_min a b c : Coord_ltb (Coord_max a b) (Coord_min c b) = false.
Proof.
  unfold Coord_max, Coord_min.
  destruct a as [|u|], b as [|v|], c as [|w|]; cbn; try reflexivity;
    repeat (match goal with
            | |- context [?p <? ?q] => destruct (Z.ltb_spec p q); cbn
            end); try reflexivity; lia.
Qed.

Lemma Coord_ltb_min_max a b c : Coord_ltb (Coord_max b a) (Coord_min b c) = false.
Proof.
  unfold Coord_max, Coord_min.
  destruct a as [|u|], b as [|v|], c as [|w|]; cbn; try reflexivity;
    repeat (match goal with
            | |- context [?p <? ?q] => destruct (Z.ltb_spec p q); cbn
            end); try reflexivity; lia.
Qed.

(** The design document also asks that [Region.ALL] be an identity of
    [intersect].  No function has both it and "no region" as identities,
    whatever it computes. *)
Lemma two_identities_are_one
      (intersect : option Region.t -> option Region.t -> option Region.t) :
  (forall r, intersect r (Some Region.ALL) = r) ->
  ~ (forall r, intersect None r = r).
Proof.
  intros Hall Hnone. specialize (Hall None). specialize (Hnone (Some Region.ALL)).
  congruence.
Qed.

Lemma between_meet lo1 hi1 lo2 hi2 p :
  between (Coord_max lo1 lo2) (Coord_min hi1 hi2) p
  = between lo1 hi1 p && between lo2 hi2 p.
Proof.
  unfold between, Coord_max, Coord_min.
  destruct lo1 as [|a|], lo2 as [|b|], hi1 as [|c|], hi2 as [|d|]; cbn;
    repeat (match goal with
            | |- context [?u <? ?v] => destruct (Z.ltb_spec u v); cbn
            end); try reflexivity; lia.
Qed.

Lemma between_nonempty lo hi p : between lo hi p = true -> Coord_ltb lo hi = true.
Proof.
  unfold between. destruct lo as [|a|], hi as [|b|]; cbn; try reflexivity;
    try discriminate.
  - rewrite andb_false_r. discriminate.
  - intros H. apply andb_true_iff in H as [H1 H2].
    apply negb_true_iff, Z.ltb_ge in H1. apply Z.ltb_lt in H2. apply Z.ltb_lt. lia.
Qed.

Lemma covers_no_region z px py : no_region z -> covers z px py = false.
Proof.
  intros [-> | (q & -> & x0 & y0 & w & h & -> & Hz)]; [reflexivity|].
  unfold covers, between, Region.make. cbn.
  destruct Hz as [-> | ->]; rewrite Z.add_0_r.
  - destruct (Z.ltb_spec px x0); cbn; [reflexivity|].
    destruct (Z.ltb_spec px x0); [lia | reflexivity].
  - rewrite andb_comm.
    destruct (Z.ltb_spec py y0); cbn; [reflexivity|].
    destruct (Z.ltb_spec py y0); [lia | reflexivity].
Qed.

Lemma covers_ALL px py : covers (Some Region.ALL) px py = true.
Proof. reflexivity. Qed.

Lemma covers_has_area r :
  has_area r -> exists px py, covers (Some r) px py = true.
Proof.
  assert (H1 : forall lo hi, Coord_ltb lo hi = true -> exists p, between lo hi p = true).
  { intros lo hi. unfold between. destruct lo as [|a|], hi as [|b|]; cbn;
      try discriminate; intros H.
    - exists (b - 1). apply Z.ltb_lt. lia.
    - exists 0. reflexivity.
    - exists a. apply Z.ltb_lt in H. rewrite Z.ltb_irrefl. cbn. apply Z.ltb_lt. exact H.
    - exists a. rewrite Z.ltb_irrefl. reflexivity. }
  intros [Hx Hy]. destruct (H1 _ _ Hx) as [px Hpx]. destruct (H1 _ _ Hy) as [py Hpy].
  exists px, py. cbn [covers]. rewrite Hpx, Hpy. reflexivity.
Qed.

(** The model of [Region.intersect] is a geometric intersection. *)
Lemma intersect_geometric : geometric Region.intersect.
Proof.
  intros [a|] [b|] px py; cbn [Region.intersect covers];
    rewrite ?andb_false_r; try reflexivity.
  pose proof (between_meet (Region.x a) (Region.right a) (Region.x b) (Region.right b) px)
    as Hx.
  pose proof (between_meet (Region.y a) (Region.bottom a) (Region.y b) (Region.bottom b) py)
    as Hy.
  destruct (Coord_ltb (Coord_max (Region.x a) (Region.x b))
                      (Coord_min (Region.right a) (Region.right b))) eqn:Hlx;
    [destruct (Coord_ltb (Coord_max (Region.y a) (Region.y b))
                         (Coord_min (Region.bottom a) (Region.bottom b))) eqn:Hly|];
    cbn [andb covers Region.x Region.y Region.right Region.bottom].
  - rewrite Hx, Hy.
    destruct (between (Region.x a) _ px), (between (Region.x b) _ px),
      (between (Region.y a) _ py), (between (Region.y b) _ py); reflexivity.
  - destruct (between (Coord_max (Region.y a) (Region.y b)) _ py) eqn:Hw.
    + apply between_nonempty in Hw. congruence.
    + symmetry in Hy. apply andb_false_iff in Hy as [Hy|Hy]; rewrite Hy;
        rewrite ?andb_false_r; reflexivity.
  - destruct (between (Coord_max (Region.x a) (Region.x b)) _ px) eqn:Hw.
    + apply between_nonempty in Hw. congruence.
    + symmetry in Hx. apply andb_false_iff in Hx as [Hx|Hx]; rewrite Hx;
        rewrite ?andb_false_r; reflexivity.
Qed.

(** What every geometric intersection does with "no region" and with
    [Region.ALL]. *)
Lemma geometric_no_region intersect r z :
  geometric intersect -> no_region z ->
  (forall px py, covers (intersect (Some r) z) px py = false)
  /\ (forall px py, covers (intersect z (Some r)) px py = false)
  /\ (forall px py,
         covers (intersect (Some r) (Some Region.ALL)) px py = covers (Some r) px py)
  /\ (has_area r -> intersect (Some r) z <> Some r).
Proof.
  intros Hg Hz. split; [|split; [|split]].
  - intros px py. rewrite Hg, (covers_no_region z px py Hz). apply andb_false_r.
  - intros px py. rewrite Hg, (covers_no_region z px py Hz). reflexivity.
  - intros px py. rewrite Hg, covers_ALL. apply andb_true_r.
  - intros Ha Heq. destruct (covers_has_area r Ha) as (px & py & Hc).
    pose proof (Hg (Some r) z px py) as H.
    rewrite Heq, Hc, (covers_no_region z px py Hz) in H. discriminate H.
Qed.

Section NoRegion.

Variable load_image : ndarray -> list nat -> result ndarray.

(** C9, as amended.  "No region" is not the identity of the intersection
    but its absorbing element.  This is so for every function that is a
    geometric intersection, whatever else it computes: an unset region and
    a region without area stand for no pixel, so the intersection of any
    region with one of them stands for no pixel, and it is not the region
    when the region has area; the intersection with [Region.ALL] stands for
    the pixels of the region, for every region.  The model of
    [Region.intersect] is such a function: its value for "no region" is
    [None], and [Region.ALL] is its identity on the regions that have area.
    A mask built from the intersection with "no region" covers nothing, for
    every shape. *)
Theorem no_region_absorbs (r : Region.t) (s : Shape) :
  (forall intersect z,
      geometric intersect -> no_region z ->
      (forall px py, covers (intersect (Some r) z) px py = false)
      /\ (forall px py, covers (intersect z (Some r)) px py = false)
      /\ (forall px py,
             covers (intersect (Some r) (Some Region.ALL)) px py
             = covers (Some r) px py)
      /\ (has_area r -> intersect (Some r) z <> Some r))
  /\ geometric Region.intersect
  /\ Region.intersect (Some r) None = None
  /\ Region.intersect None (Some r) = None
  /\ (forall z, zero_area z ->
                Region.intersect (Some r) (Some z) = None
                /\ Region.intersect (Some z) (Some r) = None)
  /\ (has_area r ->
      Region.intersect (Some r) (Some Region.ALL) = Some r
      /\ Region.intersect (Some Region.ALL) (Some r) = Some r)
  /\ (forall z m, no_region z ->
                  Mask_init load_image (MaskArg_of (Region.intersect (Some r) z)) false
                  = Ok m ->
                  (to_array load_image m s).2 = Ok (full s 0)).
Proof.
  split; [intros intersect z; apply geometric_no_region|].
  split; [exact intersect_geometric|].
  assert (Hzero : forall z, zero_area z ->
                            Region.intersect (Some r) (Some z) = None
                            /\ Region.intersect (Some z) (Some r) = None).
  { intros z (x0 & y0 & w & h & -> & Hz). unfold Region.intersect, Region.make.
    cbn [Region.x Region.y Region.right Region.bottom].
    destruct Hz as [-> | ->]; rewrite ?Z.add_0_r.
    + rewrite Coord_ltb_max_min, Coord_ltb_min_max. auto.
    + rewrite Coord_ltb_max_min, Coord_ltb_min_max, !andb_false_r. auto. }
  split; [reflexivity|]. split; [reflexivity|]. split; [exact Hzero|]. split.
  - intros [Hx Hy]. unfold Region.intersect, Region.ALL.
    cbn [Region.x Region.y Region.right Region.bottom].
    unfold Coord_max, Coord_min.
    destruct r as [[|x0|] [|y0|] [|x1|] [|y1|]]; cbn in *;
      try discriminate; rewrite ?Hx, ?Hy; auto.
  - intros z m Hz.
    assert (Region.intersect (Some r) z = None) as ->.
    { destruct Hz as [-> | (q & -> & Hq)]; [reflexivity | exact (proj1 (Hzero q Hq))]. }
    cbn [MaskArg_of Mask_init]. intros [= <-]. reflexivity.
Qed.

End NoRegion.

(** C9 fails at the region of one pixel: its intersection with an unset
    region, and with a region without area, is not the region, for every
    function that is a geometric intersection; with the model of
    [Region.intersect] it is "no region", and the masks differ on a frame of
    one pixel. *)
Lemma no_region_is_not_an_identity :
  let r := Region.make 0 0 1 1 in
  let s := mkShape 1 1 1 in
  Region.intersect (Some r) None <> Some r
  /\ Region.intersect (Some r) (Some (Region.make 0 0 0 0)) <> Some r
  /\ (forall m m',
         Mask_init load_image_ref (MaskArg_of (Region.intersect (Some r) None)) false
         = Ok m ->
         Mask_init load_image_ref (ArgRegion r) false = Ok m' ->
         (to_array load_image_ref m s).2 = Ok (mkArr s [[[0]]])
         /\ (to_array load_image_ref m' s).2 = Ok (mkArr s [[[255]]]))
  /\ ~ (forall r' z, (z = None \/ exists q, z = Some q /\ zero_area q) ->
                     Region.intersect (Some r') z = Some r')
  /\ (forall intersect,
         geometric intersect ->
         intersect (Some r) None <> Some r
         /\ intersect (Some r) (Some (Region.make 0 0 0 0)) <> Some r).
Proof.
  cbn zeta. split; [discriminate|]. split; [discriminate|]. split; [|split].
  - intros m m' [= <-] [= <-]. split; reflexivity.
  - intros H. specialize (H (Region.make 0 0 1 1) None (or_introl eq_refl)).
    discriminate H.
  - intros intersect Hg.
    assert (Ha : has_area (Region.make 0 0 1 1)) by (split; reflexivity).
    split.
    + exact (proj2 (proj2 (proj2 (geometric_no_region intersect _ None Hg
                                    (or_introl eq_refl)))) Ha).
    + refine (proj2 (proj2 (proj2 (geometric_no_region intersect _
                                     (Some (Region.make 0 0 0 0)) Hg _))) Ha).
      right. exists (Region.make 0 0 0 0). split; [reflexivity|].
      exists 0, 0, 0, 0. split; [reflexivity | left; reflexivity].
Qed.

(* ===================================================================== *)
(** ** The sequence of [_find_matches] ends *)
(* ===================================================================== *)

Lemma Qltb_false a b : Qltb a b = false <-> (b <= a)%Q.
Proof.
  unfold Qltb. rewrite negb_false_iff. apply Qle_bool_iff.
Qed.

Lemma minmax_step_extremes seen acc c :
  extremes seen acc -> extremes (seen ++ [c]) (minmax_step acc c).
Proof.
  destruct acc as [[[mn mx] pmn] pmx], c as [p v].
  intros (Hmn & Hmx & Hall). cbn [minmax_step extremes].
  destruct (Qltb v mn) eqn:E1, (Qltb mx v) eqn:E2;
    try apply Qltb_lt in E1; try apply Qltb_lt in E2;
    try apply Qltb_false in E1; try apply Qltb_false in E2.
  all: split; [apply in_or_app; cbn; auto|].
  all: split; [apply in_or_app; cbn; auto|].
  all: intros q u Hin; apply in_app_or in Hin as [Hin|[[= <- <-]|[]]].
  all: try (destruct (Hall q u Hin) as [Ha Hb]).
  all: split;
    eauto using Qle_refl, Qle_trans, Qlt_le_weak.
Qed.

Lemma fold_minmax_extremes rest : forall seen acc,
    extremes seen acc ->
    extremes (seen ++ rest) (fold_left minmax_step rest acc).
Proof.
  induction rest as [|c rest IH]; intros seen acc H; cbn [fold_left].
  - rewrite app_nil_r. exact H.
  - replace (seen ++ c :: rest) with ((seen ++ [c]) ++ rest)
      by (rewrite <- app_assoc; reflexivity).
    apply IH, minmax_step_extremes, H.
Qed.

Lemma minMaxLoc_extremes a :
  match minMaxLoc a with
  | Ok acc => extremes (scan_cells a) acc
  | Raise _ => scan_cells a = []
  end.
Proof.
  unfold minMaxLoc. destruct (scan_cells a) as [|[p v] rest]; [reflexivity|].
  apply (fold_minmax_extremes rest [(p, v)]). cbn.
  split; [auto|]. split; [auto|].
  intros q u [[= <- <-]|[]]. split; apply Qle_refl.
Qed.

(** [_find_best_match_position] finds a cell of the highest certainty. *)
Lemma find_best_match_position_spec a method threshold :
  match _find_best_match_position a method threshold with
  | Ok (matched, p, certainty) =>
      exists v, In (p, v) (scan_cells a)
                /\ certainty = certainty_of method v
                /\ matched = matching method threshold v
                /\ forall q u, In (q, u) (scan_cells a) ->
                               (certainty_of method u <= certainty)%Q
  | Raise _ => scan_cells a = []
  end.
Proof.
  unfold _find_best_match_position.
  pose proof (minMaxLoc_extremes a) as H.
  destruct (minMaxLoc a) as [[[[mn mx] pmn] pmx]|e]; [|exact H].
  destruct H as (Hmn & Hmx & Hall). cbn [rbind].
  destruct method; cbn [certainty_of].
  - exists mn. split; [exact Hmn|]. split; [reflexivity|]. split; [reflexivity|].
    intros q u Hin. destruct (Hall q u Hin) as [Hle _].
    unfold Qminus. apply Qplus_le_r, Qopp_le_compat, Hle.
  - exists mx. split; [exact Hmx|]. split; [reflexivity|]. split; [reflexivity|].
    intros q u Hin. apply (Hall q u Hin).
  - exists mx. split; [exact Hmx|]. split; [reflexivity|]. split; [reflexivity|].
    intros q u Hin. apply (Hall q u Hin).
Qed.

Lemma imap_imap {A B C} (f : nat -> B -> C) (g : nat -> A -> B) (l : list A) :
  imap f (imap g l) = imap (fun i a => f i (g i a)) l.
Proof.
  revert f g. induction l as [|a l IH]; intros f g; [reflexivity|].
  cbn [imap]. f_equal. apply IH.
Qed.

(** [cv2.rectangle] keeps the cells where they are, and masks the ones
    inside. *)
Lemma scan_cells_rectangle (a : array2 Q) x1 y1 x2 y2 v :
  scan_cells (rectangle a x1 y1 x2 y2 v)
  = map (mask_cell x1 y1 x2 y2 v) (scan_cells a).
Proof.
  unfold scan_cells, rectangle. rewrite imap_imap, concat_map.
  change (@map (list (Position.t * Q)) _)
    with (@fmap list _ (list (Position.t * Q)) (list (Position.t * Q))).
  rewrite fmap_imap. f_equal. apply imap_ext. intros y row _. cbn.
  rewrite imap_imap.
  change (map (mask_cell x1 y1 x2 y2 v)) with (fmap (M:=list) (mask_cell x1 y1 x2 y2 v)).
  rewrite fmap_imap. reflexivity.
Qed.

Lemma count_matching_masked method threshold x1 y1 x2 y2 v cells :
  matching method threshold v = false ->
  (count_matching method threshold (map (mask_cell x1 y1 x2 y2 v) cells)
   <= count_matching method threshold cells)%nat.
Proof.
  intros Hv. induction cells as [|[p u] cells IH]; [reflexivity|].
  cbn [map count_matching mask_cell fst snd].
  destruct (in_rect x1 y1 x2 y2 p); [rewrite Hv|];
    destruct (matching method threshold u); lia.
Qed.

Lemma count_matching_drops method threshold x1 y1 x2 y2 v cells p u :
  matching method threshold v = false ->
  In (p, u) cells -> in_rect x1 y1 x2 y2 p = true ->
  matching method threshold u = true ->
  (count_matching method threshold (map (mask_cell x1 y1 x2 y2 v) cells)
   < count_matching method threshold cells)%nat.
Proof.
  intros Hv Hin Hp Hu. induction cells as [|[q w] cells IH]; [destruct Hin|].
  cbn [map count_matching mask_cell fst snd].
  destruct Hin as [[= -> ->]|Hin].
  - rewrite Hp, Hv, Hu.
    pose proof (count_matching_masked method threshold x1 y1 x2 y2 v cells Hv). lia.
  - specialize (IH Hin).
    destruct (in_rect x1 y1 x2 y2 q); [rewrite Hv|];
      destruct (matching method threshold w); lia.
Qed.

Lemma count_matching_positive method threshold cells p u :
  In (p, u) cells -> matching method threshold u = true ->
  (1 <= count_matching method threshold cells)%nat.
Proof.
  intros Hin Hu. induction cells as [|[q w] cells IH]; [destruct Hin|].
  cbn [count_matching snd]. destruct Hin as [[= -> ->]|Hin].
  - rewrite Hu. lia.
  - specialize (IH Hin). lia.
Qed.

Lemma Region_at_extents p width height :
  Region_width (Region_at p width height) = Ok (Position.x p + Z.of_nat width - Position.x p)
  /\ Region_height (Region_at p width height)
     = Ok (Position.y p + Z.of_nat height - Position.y p).
Proof. split; reflexivity. Qed.

(** After a match, [_find_candidate_matches] masks the cell of the match and
    yields again; fewer cells are matches than before. *)
Lemma next_candidate_good image template match_parameters f :
  good_frame image template match_parameters f ->
  cf_matched f = true ->
  exists f',
    next_candidate template match_parameters f
    = Yielded (mkCandidate (cf_i f') (cf_matched f') (cf_region f') (cf_certainty f'))
              (CandidateAtYield f')
    /\ good_frame image template match_parameters f'
    /\ (count_matching (cf_method f') (cf_threshold f') (scan_cells (cf_heatmap f'))
        < count_matching (cf_method f) (cf_threshold f) (scan_cells (cf_heatmap f)))%nat.
Proof.
  intros (Hcells & Hrows & Hcols & Hmatch) Hm.
  destruct (Hmatch Hm) as (Hlevel & Hmask & Hbounds & p & v & Hregion & Hin & Hv).
  unfold next_candidate. rewrite Hm, Hlevel, Hregion. cbn [negb Nat.eqb].
  destruct (Region_at_extents p (cols (shape template)) (rows (shape template)))
    as [-> ->].
  cbn [rbind Region.extend Region_at Region.make Region.x Region.y Region.right
       Region.bottom Coord_add slice_index].
  fold (mask_value match_parameters).
  set (x1 := Position.x p + _). set (y1 := Position.y p + _).
  set (x2 := Position.x p + _ - 1). set (y2 := Position.y p + _ - 1).
  set (heatmap := rectangle (cf_heatmap f) x1 y1 x2 y2 (mask_value match_parameters)).
  assert (Hp : in_rect x1 y1 x2 y2 p = true).
  { unfold in_rect. rewrite !andb_true_iff, !Z.leb_le. subst x1 y1 x2 y2. lia. }
  assert (Hscan : scan_cells heatmap
                  = map (mask_cell x1 y1 x2 y2 (mask_value match_parameters))
                        (scan_cells (cf_heatmap f)))
    by apply scan_cells_rectangle.
  assert (Hbounds' : cells_in image template heatmap).
  { intros q u Hq. rewrite Hscan in Hq. apply in_map_iff in Hq as ([q' u'] & [= <- _] & Hq).
    apply (Hbounds q' u' Hq). }
  pose proof (find_best_match_position_spec heatmap (cf_method f)
                (cf_threshold f)) as Hbest.
  destruct (_find_best_match_position heatmap (cf_method f) (cf_threshold f))
    as [[[matched' p'] certainty']|e].
  - destruct Hbest as (v' & Hin' & _ & Hmatched' & _). cbn [rbind].
    eexists. split; [reflexivity|]. unfold good_frame.
    cbn [cf_heatmap cf_method cf_threshold cf_level cf_matched cf_region].
    split.
    + split; [|split; [exact Hrows|split; [exact Hcols|]]].
      * intros Hnil. rewrite Hnil in Hin'. destruct Hin'.
      * intros Hm'. split; [reflexivity|]. split; [exact Hmask|].
        split; [exact Hbounds'|]. exists p', v'.
        split; [reflexivity|]. split; [exact Hin'|]. congruence.
    + rewrite Hscan. apply (count_matching_drops _ _ _ _ _ _ _ _ p v); assumption.
  - exfalso. rewrite Hscan in Hbest. apply Hcells.
    destruct (scan_cells (cf_heatmap f)); [reflexivity | discriminate Hbest].
Qed.

Lemma run_step {Y S} (next : S -> gen_step Y S) fuel s y s' ys e :
  next s = Yielded y s' -> run next fuel s' = (ys, e) ->
  run next (Datatypes.S fuel) s = (y :: ys, e).
Proof. intros Hs Hrun. cbn [run]. rewrite Hs, Hrun. reflexivity. Qed.

Section FindMatchesEnds.

Context {cv : Cv2}.
Variable pyramid_levels : Z.
Variables image template : ndarray.
Variable match_parameters : MatchParameters.

Local Abbreviation find := (_find_matches pyramid_levels image template match_parameters).

(** The second pass returns, at every position of the template in the
    frame. *)
Hypothesis confirm_returns : forall p,
    in_bounds image template p ->
    exists b, _confirm_match image template match_parameters
                (Region_at p (cols (shape template)) (rows (shape template)))
              = Ok b.

(** What [_find_matches] yields for a candidate frame, and the frame it is
    suspended in. *)
Lemma yield_of_frame c f :
  good_frame image template match_parameters f ->
  _find_candidate_matches pyramid_levels image template match_parameters c
  = Yielded (mkCandidate (cf_i f) (cf_matched f) (cf_region f) (cf_certainty f))
            (CandidateAtYield f) ->
  exists y, find_matches_round pyramid_levels image template match_parameters c
            = Yielded y (FindAtYield (CandidateAtYield f) (found_matched y))
            /\ (found_matched y = true -> cf_matched f = true).
Proof.
  intros (_ & _ & _ & Hmatch) Hc. unfold find_matches_round. rewrite Hc.
  cbn [cand_matched cand_region cand_certainty].
  destruct (cf_matched f).
  - destruct (Hmatch eq_refl) as (_ & _ & Hbounds & p & v & Hregion & Hin & _).
    destruct (confirm_returns p (Hbounds p v Hin)) as [b Hb].
    rewrite Hregion, Hb.
    eexists (mkFound _ _ _ _). split; reflexivity.
  - eexists (mkFound _ _ _ _). split; [reflexivity|]. cbn. discriminate.
Qed.

Lemma ends_after_yield k : forall c f y,
    find_matches_round pyramid_levels image template match_parameters c
    = Yielded y (FindAtYield (CandidateAtYield f) (found_matched y)) ->
    (found_matched y = true -> cf_matched f = true) ->
    good_frame image template match_parameters f ->
    (count_matching (cf_method f) (cf_threshold f) (scan_cells (cf_heatmap f)) <= k)%nat ->
    exists fuel ts last,
      run find fuel (FindAtYield (CandidateAtYield f) (found_matched y))
      = (ts, Finished)
      /\ y :: ts = removelast (y :: ts) ++ [last]
      /\ Forall (fun r => found_matched r = true) (removelast (y :: ts))
      /\ found_matched last = false.
Proof.
  induction k as [|k IH]; intros c f y Hy Hym Hgood Hcount.
  - destruct (found_matched y) eqn:Hfy.
    + exfalso. destruct Hgood as (_ & _ & _ & Hmatch).
      destruct (Hmatch (Hym eq_refl)) as (_ & _ & _ & p & v & _ & Hin & Hv).
      pose proof (count_matching_positive _ _ _ _ _ Hin Hv). lia.
    + exists 1%nat, [], y. cbn. auto.
  - destruct (found_matched y) eqn:Hfy.
    + destruct (next_candidate_good image template match_parameters f Hgood
                  (Hym eq_refl))
        as (f' & Hnext & Hgood' & Hlt).
      destruct (yield_of_frame (CandidateAtYield f) f' Hgood' Hnext)
        as (y' & Hy' & Hym').
      destruct (IH _ f' y' Hy' Hym' Hgood')
        as (fuel & ts & last & Hrun & Hsplit & Hts & Hlast); [lia|].
      exists (S fuel), (y' :: ts), last.
      split;
        [apply (run_step find fuel (FindAtYield (CandidateAtYield f) true) y'
                  (FindAtYield (CandidateAtYield f') (found_matched y')) ts Finished);
         [exact Hy' | exact Hrun]|].
      split; [|split; [|exact Hlast]].
      * change (removelast (y :: y' :: ts)) with (y :: removelast (y' :: ts)).
        cbn [app]. f_equal. exact Hsplit.
      * change (removelast (y :: y' :: ts)) with (y :: removelast (y' :: ts)).
        constructor; assumption.
    + exists 1%nat, [], y. cbn. auto.
Qed.

End FindMatchesEnds.

Lemma has_cell_scan {A} (a : array2 A) : has_cell a -> scan_cells a <> [].
Proof. intros (c & row & rest & ->). discriminate. Qed.

(** The cells of an array of at most [h] rows of at most [w] cells. *)
Lemma scan_cells_within {A} (h w : nat) (a : array2 A) p v :
  within h w a -> In (p, v) (scan_cells a) ->
  (0 <= Position.x p < Z.of_nat w) /\ (0 <= Position.y p < Z.of_nat h).
Proof.
  intros [Hlen Hrows]. unfold scan_cells. rewrite in_concat.
  intros (cells & Hcells & Hin).
  apply list_elem_of_In, elem_of_lookup_imap_1 in Hcells as (y & row & -> & Hy).
  apply list_elem_of_In, elem_of_lookup_imap_1 in Hin as (x & u & [= -> ->] & Hx).
  cbn [Position.x Position.y].
  apply lookup_lt_Some in Hx as Hxlt. apply lookup_lt_Some in Hy as Hylt.
  rewrite Forall_lookup in Hrows. specialize (Hrows y row Hy). cbn in Hrows. lia.
Qed.

Lemma full_2d_within {A} h w (v : A) : within h w (full_2d h w v).
Proof.
  unfold within, full_2d. rewrite length_replicate. split; [reflexivity|].
  apply Forall_replicate. rewrite length_replicate. reflexivity.
Qed.

Lemma write_result_within h w heatmap roi res :
  within h w heatmap -> within h w (write_result heatmap roi res).
Proof.
  intros [Hlen Hrows]. unfold write_result.
  destruct (bool_decide _); [|split; assumption].
  split; [rewrite length_imap; exact Hlen|].
  rewrite Forall_lookup in Hrows. apply Forall_lookup. intros y row Hy.
  apply list_lookup_imap_Some in Hy as (row0 & Hy & ->).
  specialize (Hrows y row0 Hy). cbn in Hrows.
  destruct (_ && _); [rewrite length_imap|]; exact Hrows.
Qed.

Lemma write_result_has_cell heatmap roi res :
  has_cell heatmap -> has_cell (write_result heatmap roi res).
Proof.
  intros (c & row & rest & ->). unfold write_result.
  destruct (bool_decide _); [|unfold has_cell; eauto].
  cbn [imap]. destruct (_ && _); [|unfold has_cell; eauto].
  cbn [imap]. unfold has_cell. eauto.
Qed.

Lemma match_template_has_cell {cv : Cv2} image template method roi_mask :
  fits template image ->
  exists heatmap,
    _match_template image template method roi_mask = Ok heatmap
    /\ has_cell heatmap /\ cells_in image template heatmap.
Proof.
  intros [Hr Hc]. unfold _match_template.
  set (h := Z.of_nat (rows (shape image)) - Z.of_nat (rows (shape template)) + 1).
  set (w := Z.of_nat (cols (shape image)) - Z.of_nat (cols (shape template)) + 1).
  destruct (Z.ltb_spec h 0) as [Hh|Hh]; [subst h; lia|].
  destruct (Z.ltb_spec w 0) as [Hw|Hw]; [subst w; lia|].
  cbn [orb]. eexists. split; [reflexivity|].
  set (start := full_2d (Z.to_nat h) (Z.to_nat w)
                  (if TemplateMatchMode_eqb method TM_SQDIFF_NORMED then 1%Q else 0%Q)).
  assert (Hfull : has_cell start /\ within (Z.to_nat h) (Z.to_nat w) start).
  { split; [|apply full_2d_within]. subst start.
    destruct (Z.to_nat h) as [|h'] eqn:Eh; [subst h; lia|].
    destruct (Z.to_nat w) as [|w'] eqn:Ew; [subst w; lia|].
    unfold has_cell, full_2d. cbn [replicate]. eauto. }
  generalize (search_rois start roi_mask) as rois.
  revert Hfull. generalize start as heatmap. clear start.
  intros heatmap Hcell rois.
  assert (Hfold : has_cell (fold_left
                    (fun heatmap0 roi =>
                       write_result heatmap0 roi
                         (matchTemplate
                            (image_slice image
                               (_Rect_shrink
                                  (_Rect_expand roi
                                     (_Size.mk (Z.of_nat (rows (shape template)))
                                               (Z.of_nat (cols (shape template)))))
                                  (_Size.mk 1 1)))
                            template method)) rois heatmap)
                  /\ within (Z.to_nat h) (Z.to_nat w)
                       (fold_left
                    (fun heatmap0 roi =>
                       write_result heatmap0 roi
                         (matchTemplate
                            (image_slice image
                               (_Rect_shrink
                                  (_Rect_expand roi
                                     (_Size.mk (Z.of_nat (rows (shape template)))
                                               (Z.of_nat (cols (shape template)))))
                                  (_Size.mk 1 1)))
                            template method)) rois heatmap)).
  { revert heatmap Hcell.
    induction rois as [|roi rois IH]; intros heatmap [Hcell Hwithin];
      [split; assumption|].
    cbn [fold_left]. apply IH.
    split; [apply write_result_has_cell, Hcell | apply write_result_within, Hwithin]. }
  destruct Hfold as [Hcell' Hwithin']. split; [exact Hcell'|].
  intros p v Hin. destruct (scan_cells_within _ _ _ p v Hwithin' Hin) as [Hx Hy].
  unfold in_bounds. subst h w. lia.
Qed.

Lemma last_cons {A} (a : A) (l : list A) d : List.last (a :: l) d = List.last l a.
Proof.
  destruct l as [|b l]; [reflexivity|].
  change (List.last (a :: b :: l) d) with (List.last (b :: l) d).
  apply last_cons_default.
Qed.

Section SearchLevels.

Context {cv : Cv2}.
Variable match_parameters : MatchParameters.
Variable method : TemplateMatchMode.
Variables image_pyramid template_pyramid : list ndarray.

Local Abbreviation good :=
  (good_level match_parameters method image_pyramid template_pyramid).

(** The loop over the levels does not raise when each level of the template
    fits in the level of the frame; a match that it leaves is at the last
    of the levels. *)
Lemma search_levels_good levels : forall roi_mask last,
    (forall l, In l levels ->
               exists i t, image_pyramid !! l = Some i
                           /\ template_pyramid !! l = Some t /\ fits t i) ->
    match last with
    | Some lr => good lr
    | None => levels <> []
    end ->
    exists lr,
      search_levels match_parameters method image_pyramid template_pyramid
                    levels roi_mask last = Ok (Some lr)
      /\ good lr
      /\ (lr_matched lr = true ->
          lr_level lr
          = List.last levels (match last with Some l0 => lr_level l0 | None => 0%nat end)).
Proof.
  induction levels as [|level rest IH]; intros roi_mask last Hfit Hlast.
  - destruct last as [lr|]; [|contradiction]. exists lr. cbn. auto.
  - destruct (Hfit level (or_introl eq_refl)) as (i & t & Hi & Ht & Hti).
    cbn [search_levels]. unfold index. rewrite Hi, Ht. cbn [rbind].
    destruct (match_template_has_cell i t method (upsample_roi roi_mask) Hti)
      as (heatmap & Htemplate & Hcell & Hbounds).
    rewrite Htemplate.
    cbn [rbind]. apply has_cell_scan in Hcell.
    set (threshold := max0 _).
    pose proof (find_best_match_position_spec heatmap method threshold) as Hbest.
    destruct (_find_best_match_position heatmap method threshold)
      as [[[matched p] certainty]|e]; [|contradiction].
    destruct Hbest as (v & Hin & _ & Hmatched & _). cbn [rbind].
    assert (Hthis : good (mkLevelResult level heatmap threshold matched p certainty)).
    { split; [exact Hcell|]. split; [exists i, t, (upsample_roi roi_mask); auto|].
      split; [reflexivity|]. exists v. auto. }
    destruct matched; cbn [negb].
    + destruct (IH (Some (if TemplateMatchMode_eqb method TM_SQDIFF_NORMED
                          then threshold_binary_inv heatmap (1 - threshold) 255
                          else threshold_binary heatmap threshold 255))
                   (Some (mkLevelResult level heatmap threshold true p certainty)))
        as (lr & Hlr & Hgood & Hlevel).
      * intros l Hl. apply Hfit. right. exact Hl.
      * exact Hthis.
      * exists lr. split; [exact Hlr|]. split; [exact Hgood|].
        intros Hm. rewrite (Hlevel Hm). cbn [lr_level]. symmetry. apply last_cons.
    + eexists. split; [reflexivity|]. split; [exact Hthis|]. discriminate.
Qed.

End SearchLevels.

Lemma max0_nonneg v : (0 <= max0 v)%Q.
Proof.
  unfold max0. destruct (Qltb 0 v) eqn:E; [|apply Qle_refl].
  apply Qltb_lt in E. apply Qlt_le_weak, E.
Qed.

(** Where the threshold is positive, or the method is the squared
    difference, the score that masks a match is not a match at level 0. *)
Lemma mask_value_not_matching match_parameters method :
  method_of (match_method match_parameters) = Ok method ->
  (match_method match_parameters = "sqdiff-normed"
   \/ (0 < match_threshold match_parameters)%Q) ->
  matching method (max0 (match_threshold match_parameters - 0))
           (mask_value match_parameters) = false.
Proof.
  unfold method_of, mask_value, matching. intros Hmethod Hcond.
  apply not_true_iff_false. rewrite Qle_bool_iff.
  destruct (String.eqb_spec (match_method match_parameters) "sqdiff-normed") as [Hs|Hs].
  - injection Hmethod as <-. cbn [certainty_of]. intros Hle.
    pose proof (max0_nonneg (match_threshold match_parameters - 0)) as H0.
    assert (H : (0 <= 1 - 255)%Q) by (eapply Qle_trans; eassumption).
    revert H. unfold Qle. cbn. lia.
  - destruct Hcond as [Hc|Hpos]; [contradiction|].
    assert (Hcert : certainty_of method 0 = 0%Q).
    { destruct (String.eqb _ "ccorr-normed"); [injection Hmethod as <-; reflexivity|].
      destruct (String.eqb _ "ccoeff-normed"); [injection Hmethod as <-; reflexivity|].
      discriminate. }
    rewrite Hcert. unfold max0.
    assert (Hpos' : (0 < match_threshold match_parameters - 0)%Q).
    { revert Hpos. destruct (match_threshold match_parameters) as [n d].
      unfold Qlt, Qminus, Qplus, Qopp. cbn. lia. }
    apply Qltb_lt in Hpos' as E. rewrite E. apply Qlt_not_le, Hpos'.
Qed.

Section FirstCandidate.

Context {cv : Cv2} (sizes : Cv2Sizes cv).

Lemma build_pyramid_loop_fits n : forall template image,
    fits template image ->
    forall l t,
      (template :: build_pyramid_loop n template) !! l = Some t ->
      exists i,
        (image :: build_pyramid_loop (length (build_pyramid_loop n template)) image) !! l
        = Some i
        /\ fits t i.
Proof.
  induction n as [|n IH]; intros template image Hfit l t; cbn [build_pyramid_loop].
  - destruct l as [|l]; [|discriminate]. intros [= <-]. exists image. auto.
  - destruct (_ || _) eqn:E.
    + destruct l as [|l]; [|discriminate]. intros [= <-]. exists image. auto.
    + apply narrow_test in E. destruct l as [|l].
      * intros [= <-]. exists image. auto.
      * cbn [length build_pyramid_loop].
        assert (Hw : wide image) by (destruct E, Hfit; split; lia).
        apply narrow_test in Hw. rewrite Hw.
        cbn [lookup list_lookup]. intros Hl.
        apply (IH (pyrDown template) (pyrDown image) (pyrDown_fits sizes _ _ Hfit) l t Hl).
Qed.

Variable pyramid_levels : Z.
Variables image template : ndarray.
Variable match_parameters : MatchParameters.

(** For a template that fits in the frame, the loop over the levels leaves
    a level, and [_find_candidate_matches] reaches its first [yield]; a
    match is at level 0. *)
Lemma first_candidate_level method :
  fits template image ->
  0 < pyramid_levels ->
  method_of (match_method match_parameters) = Ok method ->
  exists lr,
    first_candidate pyramid_levels image template match_parameters
    = Ok (frame_of_level template method lr)
    /\ good_level match_parameters method
         (_build_pyramid image
            (Z.of_nat (length (_build_pyramid template pyramid_levels))))
         (_build_pyramid template pyramid_levels) lr
    /\ (lr_matched lr = true -> lr_level lr = 0%nat).
Proof.
  intros Hfit Hlevels Hmethod.
  unfold first_candidate. rewrite Hmethod. cbn [rbind].
  destruct (Z.leb_spec pyramid_levels 0) as [H|_]; [lia|].
  set (tp := _build_pyramid template pyramid_levels).
  set (ip := _build_pyramid image (Z.of_nat (length tp))).
  destruct (search_levels_good match_parameters method ip tp
              (rev (seq 0 (length tp))) None None) as (lr & -> & Hgood & Hlevel).
  { intros l Hl. apply in_rev in Hl. apply in_seq in Hl as [_ Hl].
    destruct (tp !! l) as [t|] eqn:Ht;
      [|apply lookup_ge_None in Ht; lia].
    subst tp ip. unfold _build_pyramid in *.
    set (n := length (build_pyramid_loop (Z.to_nat (pyramid_levels - 1)) template)).
    replace (Z.to_nat (Z.of_nat (length (template :: build_pyramid_loop
                                           (Z.to_nat (pyramid_levels - 1)) template)) - 1))
      with n by (cbn [length]; lia).
    destruct (build_pyramid_loop_fits _ template image Hfit l t Ht) as (i & Hi & Hti).
    eauto. }
  { subst tp. unfold _build_pyramid. cbn [length seq rev].
    intros H. apply app_eq_nil in H as [_ H]. discriminate H. }
  cbn [rbind]. exists lr. split; [reflexivity|]. split; [exact Hgood|].
  intros Hm. rewrite (Hlevel Hm). subst tp. unfold _build_pyramid.
  cbn [length seq rev]. apply last_last.
Qed.

Lemma upsample_0 p : _upsample p 0 = p.
Proof.
  unfold _upsample. cbn [Z.of_nat Z.pow]. rewrite !Z.mul_1_r.
  destruct p; reflexivity.
Qed.

(** With a positive threshold, or the squared difference, that first frame
    is a good one. *)
Lemma first_candidate_good method :
  fits template image ->
  (1 <= rows (shape template))%nat -> (1 <= cols (shape template))%nat ->
  0 < pyramid_levels ->
  method_of (match_method match_parameters) = Ok method ->
  (match_method match_parameters = "sqdiff-normed"
   \/ (0 < match_threshold match_parameters)%Q) ->
  exists f,
    first_candidate pyramid_levels image template match_parameters = Ok f
    /\ good_frame image template match_parameters f.
Proof.
  intros Hfit Hrows Hcols Hlevels Hmethod Hcond.
  destruct (first_candidate_level method Hfit Hlevels Hmethod)
    as (lr & -> & Hgood & Hlevel).
  eexists. split; [reflexivity|].
  destruct Hgood as (Hcells & (i & t & roi & Hi & Ht & _ & Hbounds) & Hthreshold
                     & v & Hin & Hmatched).
  unfold good_frame, frame_of_level.
  cbn [cf_heatmap cf_method cf_threshold cf_level cf_matched cf_region].
  split; [exact Hcells|]. split; [exact Hrows|]. split; [exact Hcols|].
  intros Hm. pose proof (Hlevel Hm) as Hzero.
  split; [exact Hzero|]. split; [|split].
  - rewrite Hthreshold, Hzero. cbn [Nat.ltb Nat.leb].
    apply mask_value_not_matching; assumption.
  - rewrite Hzero in Hi, Ht. injection Hi as <-. injection Ht as <-. exact Hbounds.
  - exists (lr_position lr), v. rewrite Hzero, upsample_0.
    split; [reflexivity|]. split; [exact Hin | congruence].
Qed.

(** The second pass returns, at every position of the template in the
    frame. *)
Hypothesis confirm_returns : forall p,
    in_bounds image template p ->
    exists b, _confirm_match image template match_parameters
                (Region_at p (cols (shape template)) (rows (shape template)))
              = Ok b.

(** For a template that fits in the frame and is accepted by
    [_find_matches], parameters that [MatchParameters] accepts, and a
    threshold that is positive unless the method is the squared difference:
    the values of [_find_matches] are matches, then one value that is not a
    match, and then the generator returns. *)
Theorem find_matches_ends :
  fits template image ->
  (1 <= rows (shape template))%nat -> (1 <= cols (shape template))%nat ->
  chans (shape template) = 3%nat ->
  0 < pyramid_levels ->
  (exists method, method_of (match_method match_parameters) = Ok method) ->
  (match_method match_parameters = "sqdiff-normed"
   \/ (0 < match_threshold match_parameters)%Q) ->
  exists fuel ts last,
    run (_find_matches pyramid_levels image template match_parameters) fuel FindStart
    = (ts ++ [last], Finished)
    /\ Forall (fun r => found_matched r = true) ts
    /\ found_matched last = false.
Proof.
  intros Hfit Hrows Hcols Hchans Hlevels [method Hmethod] Hcond.
  destruct (first_candidate_good method Hfit Hrows Hcols Hlevels Hmethod Hcond)
    as (f & Hf & Hgood).
  assert (Hc : _find_candidate_matches pyramid_levels image template match_parameters
                 CandidateStart
               = Yielded (mkCandidate (cf_i f) (cf_matched f) (cf_region f)
                                      (cf_certainty f))
                         (CandidateAtYield f))
    by (cbn [_find_candidate_matches]; rewrite Hf; reflexivity).
  destruct (yield_of_frame pyramid_levels image template match_parameters
              confirm_returns CandidateStart f Hgood Hc) as (y & Hy & Hym).
  destruct (ends_after_yield pyramid_levels image template match_parameters
              confirm_returns _ CandidateStart f y Hy Hym Hgood (le_n _))
    as (fuel & ts & last & Hrun & Hsplit & Hts & Hlast).
  exists (S fuel), (removelast (y :: ts)), last.
  split; [|split; [exact Hts | exact Hlast]].
  rewrite <- Hsplit.
  apply (run_step _ fuel FindStart y
           (FindAtYield (CandidateAtYield f) (found_matched y)) ts Finished);
    [|exact Hrun].
  cbn [_find_matches]. destruct Hfit as [Hr Hc'].
  destruct (Nat.ltb_spec (rows (shape image)) (rows (shape template))); [lia|].
  destruct (Nat.ltb_spec (cols (shape image)) (cols (shape template))); [lia|].
  destruct (Nat.ltb_spec (rows (shape template)) 1); [lia|].
  destruct (Nat.ltb_spec (cols (shape template)) 1); [lia|].
  cbn [orb]. rewrite Hchans. cbn [Nat.eqb negb]. exact Hy.
Qed.

End FirstCandidate.

(* ===================================================================== *)
(** ** The second pass returns *)
(* ===================================================================== *)

Lemma py_slice_length {A} (l : list A) lo k :
  0 <= lo -> 0 <= k -> lo + k <= Z.of_nat (length l) ->
  length (py_slice l lo (lo + k)) = Z.to_nat k.
Proof.
  intros Hlo Hk Hhi. unfold py_slice, py_bound.
  rewrite length_take, length_drop.
  destruct (Z.ltb_spec (lo + k) 0); destruct (Z.ltb_spec lo 0); lia.
Qed.

Lemma py_slice_Forall {A} (P : A -> Prop) (l : list A) lo hi :
  Forall P l -> Forall P (py_slice l lo hi).
Proof. intros H. unfold py_slice. apply Forall_take, Forall_drop, H. Qed.

Lemma map_constant {A B} (f : A -> B) (c : B) (l : list A) :
  Forall (fun a => f a = c) l -> map f l = replicate (length l) c.
Proof.
  induction 1 as [|a l Ha _ IH]; [reflexivity|].
  cbn [map length replicate]. rewrite Ha, IH. reflexivity.
Qed.

(** The window of a well-formed frame at a position of the template has the
    rows and the columns of the template. *)
Lemma image_slice_rows image (r : _Rect.t) :
  well_formed image ->
  0 <= _Rect.x r -> 0 <= _Rect.w r ->
  _Rect.x r + _Rect.w r <= Z.of_nat (cols (shape image)) ->
  0 <= _Rect.y r -> 0 <= _Rect.h r ->
  _Rect.y r + _Rect.h r <= Z.of_nat (rows (shape image)) ->
  map length (data (image_slice image r))
  = replicate (Z.to_nat (_Rect.h r)) (Z.to_nat (_Rect.w r)).
Proof.
  intros [Hlen Hrows] Hx Hw Hxw Hy Hh Hyh. unfold image_slice. cbn [data].
  rewrite map_map.
  rewrite (map_constant _ (Z.to_nat (_Rect.w r))).
  - rewrite py_slice_length by lia. reflexivity.
  - apply py_slice_Forall. eapply Forall_impl; [exact Hrows|].
    intros row Hrow. cbn in *. apply py_slice_length; lia.
Qed.

Section ConfirmReturns.

Context {cv : Cv2} (sizes : Cv2Sizes cv).
Variables image template : ndarray.
Variable match_parameters : MatchParameters.

(** On well-formed arrays the second pass returns at every position of the
    template in the frame. *)
Lemma confirm_match_returns p :
  well_formed image -> well_formed template ->
  in_bounds image template p ->
  exists b, _confirm_match image template match_parameters
              (Region_at p (cols (shape template)) (rows (shape template)))
            = Ok b.
Proof.
  intros Himage Htemplate [Hx Hy]. unfold _confirm_match.
  destruct (String.eqb (confirm_method match_parameters) "none"); [eauto|].
  cbn [region_slice Region_at Region.make Region.x Region.y Region.right
       Region.bottom slice_index rbind].
  set (r := _Rect.mk _ _ _ _).
  assert (Hroi : map length (data (image_slice image r))
                 = map length (data template)).
  { rewrite image_slice_rows; subst r; cbn [_Rect.x _Rect.y _Rect.w _Rect.h];
      try lia; [|exact Himage].
    destruct Htemplate as [Hlen Hrows].
    rewrite (map_constant length (cols (shape template)) (data template) Hrows).
    rewrite Hlen. f_equal; lia. }
  assert (Hgray : map length (cvtColor_BGR2GRAY (image_slice image r))
                  = map length (cvtColor_BGR2GRAY template))
    by (rewrite !(cvtColor_size cv sizes); exact Hroi).
  unfold absdiff.
  destruct (String.eqb (confirm_method match_parameters) "normed-absdiff").
  - rewrite bool_decide_eq_true_2
      by (rewrite !(normalize_size cv sizes); exact Hgray).
    cbn [rbind]. eauto.
  - rewrite bool_decide_eq_true_2 by exact Hgray. cbn [rbind]. eauto.
Qed.

Variable pyramid_levels : Z.

(** X29.  The sequence ends where the threshold is positive.  For well-formed
    arrays, a template that fits in the frame and is accepted by
    [_find_matches], parameters that [MatchParameters] accepts, and a
    threshold that is positive unless the method is the squared difference:
    the values of [_find_matches] are matches, then one value that is not a
    match, and then the generator returns. *)
Theorem find_matches_matches_then_one_more :
  well_formed image -> well_formed template ->
  fits template image ->
  (1 <= rows (shape template))%nat -> (1 <= cols (shape template))%nat ->
  chans (shape template) = 3%nat ->
  0 < pyramid_levels ->
  (exists method, method_of (match_method match_parameters) = Ok method) ->
  (match_method match_parameters = "sqdiff-normed"
   \/ (0 < match_threshold match_parameters)%Q) ->
  exists fuel ts last,
    run (_find_matches pyramid_levels image template match_parameters) fuel FindStart
    = (ts ++ [last], Finished)
    /\ Forall (fun r => found_matched r = true) ts
    /\ found_matched last = false.
Proof.
  intros Himage Htemplate. apply (find_matches_ends sizes).
  intros p Hp. apply confirm_match_returns; assumption.
Qed.

End ConfirmReturns.

(* ===================================================================== *)
(** ** The sequence of [_find_matches] does not end *)
(* ===================================================================== *)

Lemma Forall_imap {A B} (P : A -> Prop) (R : B -> Prop) (f : nat -> A -> B) l :
  (forall i x, P x -> R (f i x)) -> Forall P l -> Forall R (imap f l).
Proof.
  intros Hf Hl. rewrite Forall_lookup in Hl. apply Forall_lookup.
  intros i y Hy. apply list_lookup_imap_Some in Hy as (x & Hx & ->).
  apply Hf, (Hl i x Hx).
Qed.

Lemma rectangle_nonneg a x1 y1 x2 y2 v :
  nonneg a -> (0 <= v)%Q -> nonneg (rectangle a x1 y1 x2 y2 v).
Proof.
  intros Ha Hv. unfold nonneg, rectangle.
  eapply Forall_imap; [|exact Ha]. intros y row Hrow.
  eapply Forall_imap; [|exact Hrow]. intros x old Hold. cbn.
  destruct (in_rect _ _ _ _ _); assumption.
Qed.

Lemma write_result_nonneg heatmap roi res :
  nonneg heatmap -> nonneg res -> nonneg (write_result heatmap roi res).
Proof.
  intros Ha Hres. unfold write_result.
  destruct (bool_decide _); [|exact Ha].
  eapply Forall_imap; [|exact Ha]. intros y row Hrow. cbn.
  destruct (_ && _); [|exact Hrow].
  eapply Forall_imap; [|exact Hrow]. intros x old Hold. cbn.
  destruct (_ && _); [|exact Hold].
  unfold nonneg in Hres. rewrite Forall_lookup in Hres.
  destruct (res !! _) as [r|] eqn:Hr; cbn; [|exact Hold].
  specialize (Hres _ _ Hr). rewrite Forall_lookup in Hres.
  destruct (r !! _) as [u|] eqn:Hu; cbn; [|exact Hold].
  apply (Hres _ _ Hu).
Qed.

Lemma nonneg_cells a p v : nonneg a -> In (p, v) (scan_cells a) -> (0 <= v)%Q.
Proof.
  intros Ha. unfold scan_cells. rewrite in_concat.
  intros (cells & Hcells & Hin).
  apply list_elem_of_In, elem_of_lookup_imap_1 in Hcells as (y & row & -> & Hy).
  apply list_elem_of_In, elem_of_lookup_imap_1 in Hin as (x & u & [= -> ->] & Hx).
  unfold nonneg in Ha. rewrite Forall_lookup in Ha. specialize (Ha y row Hy).
  rewrite Forall_lookup in Ha. apply (Ha x u Hx).
Qed.

Lemma max0_nonpos v : (v <= 0)%Q -> max0 v = 0%Q.
Proof.
  intros Hv. unfold max0. destruct (Qltb 0 v) eqn:E; [|reflexivity].
  apply Qltb_lt in E. exfalso. apply (Qlt_not_le _ _ E Hv).
Qed.

Lemma matching_nonneg method v :
  method <> TM_SQDIFF_NORMED -> (0 <= v)%Q -> matching method 0 v = true.
Proof.
  intros Hmethod Hv. unfold matching. apply Qle_bool_iff.
  destruct method; [contradiction | exact Hv | exact Hv].
Qed.

Section FindMatchesNeverEnds.

Context {cv : Cv2} (sizes : Cv2Sizes cv).
Variable pyramid_levels : Z.
Variables image template : ndarray.
Variable match_parameters : MatchParameters.
Variable method : TemplateMatchMode.

Local Abbreviation find := (_find_matches pyramid_levels image template match_parameters).

Hypothesis correlation : method <> TM_SQDIFF_NORMED.
Hypothesis the_method : method_of (match_method match_parameters) = Ok method.
Hypothesis no_threshold : (match_threshold match_parameters <= 0)%Q.
Hypothesis no_confirmation : confirm_method match_parameters = "none".

(** The scores of the template in the frame are not negative, at every
    level and in every window. *)
Hypothesis scores_nonneg : forall l i t r,
    _build_pyramid image (Z.of_nat (length (_build_pyramid template pyramid_levels)))
      !! l = Some i ->
    _build_pyramid template pyramid_levels !! l = Some t ->
    nonneg (matchTemplate (image_slice i r) t method).

Lemma not_the_squared_difference :
  String.eqb (match_method match_parameters) "sqdiff-normed" = false.
Proof.
  destruct (String.eqb _ _) eqn:E; [|reflexivity].
  exfalso. apply correlation. revert the_method. unfold method_of. rewrite E.
  intros [= <-]. reflexivity.
Qed.

Lemma match_template_nonneg l i t roi_mask heatmap :
  _build_pyramid image (Z.of_nat (length (_build_pyramid template pyramid_levels)))
    !! l = Some i ->
  _build_pyramid template pyramid_levels !! l = Some t ->
  _match_template i t method roi_mask = Ok heatmap ->
  nonneg heatmap.
Proof.
  intros Hi Ht. unfold _match_template. destruct (_ || _); [discriminate|].
  intros [= <-].
  replace (TemplateMatchMode_eqb method TM_SQDIFF_NORMED) with false
    by (destruct method; [contradiction correlation | |]; reflexivity).
  match goal with
  | |- nonneg (fold_left _ ?rois ?start) =>
      assert (Hstart : nonneg start)
        by (apply Forall_replicate, Forall_replicate; apply Qle_refl);
      generalize rois; revert Hstart; generalize start
  end.
  intros heatmap Hh rs. revert heatmap Hh.
  induction rs as [|roi rs IH]; intros heatmap Hh; [exact Hh|].
  cbn [fold_left]. apply IH, write_result_nonneg; [exact Hh|].
  apply (scores_nonneg l i t _ Hi Ht).
Qed.

(** After a match, a frame in which every score matches yields a match
    again, in such a frame. *)
Lemma next_candidate_matches f :
  always_matching template f ->
  exists f',
    next_candidate template match_parameters f
    = Yielded (mkCandidate (cf_i f') (cf_matched f') (cf_region f') (cf_certainty f'))
              (CandidateAtYield f')
    /\ always_matching template f'.
Proof.
  intros (Hm & Hlevel & Hthreshold & Hmethod & Hnonneg & Hcells & p & Hregion).
  unfold next_candidate. rewrite Hm, Hlevel, Hregion. cbn [negb Nat.eqb].
  destruct (Region_at_extents p (cols (shape template)) (rows (shape template)))
    as [-> ->].
  cbn [rbind Region.extend Region_at Region.make Region.x Region.y Region.right
       Region.bottom Coord_add slice_index].
  rewrite not_the_squared_difference.
  set (heatmap := rectangle (cf_heatmap f) _ _ _ _ 0%Q).
  assert (Hnonneg' : nonneg heatmap)
    by (apply rectangle_nonneg; [exact Hnonneg | apply Qle_refl]).
  assert (Hcells' : scan_cells heatmap <> []).
  { subst heatmap. rewrite scan_cells_rectangle. intros H. apply Hcells.
    destruct (scan_cells (cf_heatmap f)); [reflexivity | discriminate H]. }
  pose proof (find_best_match_position_spec heatmap (cf_method f)
                (cf_threshold f)) as Hbest.
  destruct (_find_best_match_position heatmap (cf_method f) (cf_threshold f))
    as [[[matched' p'] certainty']|e]; [|contradiction].
  destruct Hbest as (v' & Hin' & _ & Hmatched' & _). cbn [rbind].
  eexists. split; [reflexivity|]. unfold always_matching.
  cbn [cf_heatmap cf_method cf_threshold cf_level cf_matched cf_region].
  split; [|eauto 10]. rewrite Hmatched', Hthreshold.
  apply matching_nonneg; [exact Hmethod|]. apply (nonneg_cells heatmap p' v'); assumption.
Qed.

Lemma always_matching_run n : forall f,
    always_matching template f ->
    let out := run find n (FindAtYield (CandidateAtYield f) true) in
    length out.1 = n
    /\ Forall (fun y => found_matched y = true) out.1
    /\ out.2 = Suspended.
Proof.
  induction n as [|n IH]; intros f Hf; [cbn; auto|].
  destruct (next_candidate_matches f Hf) as (f' & Hnext & Hf').
  assert (Hstep : find (FindAtYield (CandidateAtYield f) true)
                  = Yielded (mkFound true (Region_list (cf_region f')) true
                                     (cf_certainty f'))
                            (FindAtYield (CandidateAtYield f') true)).
  { cbn [_find_matches negb]. unfold find_matches_round.
    cbn [_find_candidate_matches]. rewrite Hnext.
    cbn [cand_matched cand_region cand_certainty].
    destruct Hf' as (-> & _). unfold _confirm_match. rewrite no_confirmation.
    reflexivity. }
  cbn zeta. cbn [run]. rewrite Hstep.
  destruct (IH f' Hf') as (Hlen & Hall & Hend).
  destruct (run find n (FindAtYield (CandidateAtYield f') true)) as [ys e].
  cbn [fst snd length] in *. split; [lia|]. split; [|exact Hend].
  constructor; [reflexivity | exact Hall].
Qed.

(** The sequence does not end where there is no threshold.  With a
    correlation method, [match_threshold] at or below 0 and no confirmation,
    and scores that are not negative: every value of [_find_matches] is a
    match, however many are asked for, and the generator does not return. *)
Theorem find_matches_never_ends (n : nat) :
  fits template image ->
  (1 <= rows (shape template))%nat -> (1 <= cols (shape template))%nat ->
  chans (shape template) = 3%nat ->
  0 < pyramid_levels ->
  let out := run find n FindStart in
  length out.1 = n
  /\ Forall (fun y => found_matched y = true) out.1
  /\ out.2 = Suspended.
Proof.
  intros Hfit Hrows Hcols Hchans Hlevels.
  destruct n as [|n]; [cbn; auto|].
  destruct (first_candidate_level sizes pyramid_levels image template
              match_parameters method Hfit Hlevels the_method)
    as (lr & Hfirst & Hgood & Hlevel).
  destruct Hgood as (Hcells & (i & t & roi & Hi & Ht & Htemplate & _) & Hthreshold
                     & v & Hin & Hmatched).
  assert (Hzero : lr_threshold lr = 0%Q).
  { rewrite Hthreshold. apply max0_nonpos.
    destruct (Nat.ltb 0 (lr_level lr)).
    - revert no_threshold. destruct (match_threshold match_parameters) as [a b].
      unfold Qle, Qminus, Qplus, Qopp. cbn. lia.
    - revert no_threshold. destruct (match_threshold match_parameters) as [a b].
      unfold Qle, Qminus, Qplus, Qopp. cbn. lia. }
  assert (Hnonneg : nonneg (lr_heatmap lr))
    by exact (match_template_nonneg _ i t roi _ Hi Ht Htemplate).
  assert (Hm : lr_matched lr = true).
  { rewrite Hmatched, Hzero. apply matching_nonneg; [exact correlation|].
    apply (nonneg_cells _ _ _ Hnonneg Hin). }
  assert (Hf : always_matching template (frame_of_level template method lr)).
  { unfold always_matching, frame_of_level.
    cbn [cf_heatmap cf_method cf_threshold cf_level cf_matched cf_region].
    rewrite (Hlevel Hm). eauto 10. }
  assert (Hstep : find FindStart
                  = Yielded (mkFound true
                               (Region_list (cf_region (frame_of_level template method lr)))
                               true (lr_certainty lr))
                            (FindAtYield
                               (CandidateAtYield (frame_of_level template method lr))
                               true)).
  { cbn [_find_matches]. destruct Hfit as [Hr Hc].
    destruct (Nat.ltb_spec (rows (shape image)) (rows (shape template))); [lia|].
    destruct (Nat.ltb_spec (cols (shape image)) (cols (shape template))); [lia|].
    destruct (Nat.ltb_spec (rows (shape template)) 1); [lia|].
    destruct (Nat.ltb_spec (cols (shape template)) 1); [lia|].
    cbn [orb]. rewrite Hchans. cbn [Nat.eqb negb].
    unfold find_matches_round. cbn [_find_candidate_matches]. rewrite Hfirst.
    cbn [cand_matched cand_region cand_certainty frame_of_level cf_matched
         cf_region cf_certainty cf_i].
    rewrite Hm. unfold _confirm_match. rewrite no_confirmation. reflexivity. }
  cbn zeta. cbn [run]. rewrite Hstep.
  destruct (always_matching_run n _ Hf) as (Hlen & Hall & Hend).
  destruct (run find n _) as [ys e].
  cbn [fst snd length] in *. split; [lia|]. split; [|exact Hend].
  constructor; [reflexivity | exact Hall].
Qed.

End FindMatchesNeverEnds.

(* ===================================================================== *)
(** ** The algebra of masks *)
(* ===================================================================== *)

Lemma invert8_lor u v : invert8 (Z.lor u v) = Z.land (invert8 u) (invert8 v).
Proof.
  unfold invert8. apply Z.bits_inj'. intros n Hn.
  change 256 with (2 ^ 8). rewrite Z.land_spec.
  destruct (Z.lt_ge_cases n 8) as [Hlt|Hge].
  - rewrite !Z.mod_pow2_bits_low, !Z.lnot_spec, Z.lor_spec by lia.
    apply negb_orb.
  - rewrite !Z.mod_pow2_bits_high by lia. reflexivity.
Qed.

Lemma invert8_lor_invert8 u v :
  invert8 (Z.lor (invert8 u) v) = Z.land u (invert8 v).
Proof.
  unfold invert8. apply Z.bits_inj'. intros n Hn.
  change 256 with (2 ^ 8). rewrite Z.land_spec.
  destruct (Z.lt_ge_cases n 8) as [Hlt|Hge].
  - rewrite !Z.mod_pow2_bits_low, !Z.lnot_spec, Z.lor_spec by lia.
    rewrite Z.mod_pow2_bits_low, Z.lnot_spec by lia.
    rewrite negb_orb, negb_involutive. reflexivity.
  - rewrite !Z.mod_pow2_bits_high by lia. apply eq_sym, andb_false_r.
Qed.

Lemma map_zip_with {A B C D} (f : C -> D) (g : A -> B -> C) (l : list A) :
  forall k, map f (zip_with g l k) = zip_with (fun x y => f (g x y)) l k.
Proof.
  induction l as [|x l IH]; intros [|y k]; cbn; try reflexivity.
  rewrite IH. reflexivity.
Qed.

Lemma zip_with_map_l {A A' B C} (g : A' -> B -> C) (p : A -> A') (l : list A) :
  forall k, zip_with g (map p l) k = zip_with (fun x y => g (p x) y) l k.
Proof.
  induction l as [|x l IH]; intros [|y k]; cbn; try reflexivity.
  rewrite IH. reflexivity.
Qed.

Lemma zip_with_map_r {A B B' C} (g : A -> B' -> C) (q : B -> B') (l : list A) :
  forall k, zip_with g l (map q k) = zip_with (fun x y => g x (q y)) l k.
Proof.
  induction l as [|x l IH]; intros [|y k]; cbn; try reflexivity.
  rewrite IH. reflexivity.
Qed.

Lemma zip_with_pointwise {A B C} (g h : A -> B -> C) (l : list A) :
  (forall x y, g x y = h x y) -> forall k, zip_with g l k = zip_with h l k.
Proof.
  intros E. induction l as [|x l IH]; intros [|y k]; cbn; try reflexivity.
  rewrite E, IH. reflexivity.
Qed.

Lemma zip_with_swap {A B C} (g : A -> B -> C) (h : B -> A -> C) (l : list A) :
  (forall x y, g x y = h y x) -> forall k, zip_with g l k = zip_with h k l.
Proof.
  intros E. induction l as [|x l IH]; intros [|y k]; cbn; try reflexivity.
  rewrite E, IH. reflexivity.
Qed.

Lemma zip_with_regroup {A B C AB BC R} (g : AB -> C -> R) (h : A -> B -> AB)
      (g' : A -> BC -> R) (h' : B -> C -> BC) (l : list A) :
  (forall x y z, g (h x y) z = g' x (h' y z)) ->
  forall k j, zip_with g (zip_with h l k) j = zip_with g' l (zip_with h' k j).
Proof.
  intros E. induction l as [|x l IH]; intros [|y k] [|z j]; cbn; try reflexivity.
  rewrite E, IH. reflexivity.
Qed.

Lemma zip_with_same {A} (g : A -> A -> A) (l : list A) :
  (forall x, g x x = x) -> zip_with g l l = l.
Proof.
  intros E. induction l as [|x l IH]; cbn; [reflexivity|].
  rewrite E, IH. reflexivity.
Qed.

(** The laws of the pixel operations, array by array. *)
Lemma arr_invert_or a b :
  arr_invert (arr_or a b) = arr_and (arr_invert a) (arr_invert b).
Proof.
  unfold arr_invert, arr_or, arr_and, arr_map, arr_map2. cbn [shape data]. f_equal.
  rewrite map_zip_with, zip_with_map_l, zip_with_map_r.
  apply zip_with_pointwise. intros r1 r2.
  rewrite map_zip_with, zip_with_map_l, zip_with_map_r.
  apply zip_with_pointwise. intros p1 p2.
  rewrite map_zip_with, zip_with_map_l, zip_with_map_r.
  apply zip_with_pointwise. exact invert8_lor.
Qed.

Lemma arr_invert_or_invert a b :
  arr_invert (arr_or (arr_invert a) b) = arr_and a (arr_invert b).
Proof.
  unfold arr_invert, arr_or, arr_and, arr_map, arr_map2. cbn [shape data]. f_equal.
  rewrite map_zip_with, zip_with_map_l, zip_with_map_r.
  apply zip_with_pointwise. intros r1 r2.
  rewrite map_zip_with, zip_with_map_l, zip_with_map_r.
  apply zip_with_pointwise. intros p1 p2.
  rewrite map_zip_with, zip_with_map_l, zip_with_map_r.
  apply zip_with_pointwise. exact invert8_lor_invert8.
Qed.

Lemma arr_or_comm a b : shape a = shape b -> arr_or a b = arr_or b a.
Proof.
  intros Hs. unfold arr_or, arr_map2. rewrite Hs. f_equal.
  apply zip_with_swap. intros r1 r2.
  apply zip_with_swap. intros p1 p2.
  apply zip_with_swap. exact Z.lor_comm.
Qed.

Lemma arr_or_assoc a b c : arr_or (arr_or a b) c = arr_or a (arr_or b c).
Proof.
  unfold arr_or, arr_map2. cbn [shape data]. f_equal.
  apply zip_with_regroup. intros r1 r2 r3.
  apply zip_with_regroup. intros p1 p2 p3.
  apply zip_with_regroup. intros u v w. apply eq_sym, Z.lor_assoc.
Qed.

Lemma arr_or_same a : arr_or a a = a.
Proof.
  unfold arr_or, arr_map2. destruct a as [s d]; cbn [shape data]. f_equal.
  apply zip_with_same. intros r.
  apply zip_with_same. intros p.
  apply zip_with_same. exact Z.lor_diag.
Qed.

Lemma difference_difference a b c :
  difference (difference a b) c = difference a (arr_or b c).
Proof.
  unfold difference. rewrite arr_invert_or.
  unfold arr_and, arr_map2. cbn [shape data]. f_equal.
  apply zip_with_regroup. intros r1 r2 r3.
  apply zip_with_regroup. intros p1 p2 p3.
  apply zip_with_regroup. intros u v w. apply eq_sym, Z.land_assoc.
Qed.

Lemma Forall_zip_with_2 {A B C} (P : A -> Prop) (Q : B -> Prop) (R : C -> Prop)
      (f : A -> B -> C) (l : list A) :
  (forall x y, P x -> Q y -> R (f x y)) ->
  forall k, Forall P l -> Forall Q k -> Forall R (zip_with f l k).
Proof.
  intros H. induction l as [|x l IH]; intros [|y k] Hl Hk; cbn; try constructor.
  - inversion Hl; inversion Hk; subst. auto.
  - inversion Hl; inversion Hk; subst. auto.
Qed.

Lemma binary_or a b : binary a -> binary b -> binary (arr_or a b).
Proof.
  unfold binary, arr_or, arr_map2. cbn [data].
  apply Forall_zip_with_2. intros r1 r2.
  apply Forall_zip_with_2. intros p1 p2.
  apply Forall_zip_with_2. intros u v [-> | ->] [-> | ->]; cbn; auto.
Qed.

Lemma binary_and a b : binary a -> binary b -> binary (arr_and a b).
Proof.
  unfold binary, arr_and, arr_map2. cbn [data].
  apply Forall_zip_with_2. intros r1 r2.
  apply Forall_zip_with_2. intros p1 p2.
  apply Forall_zip_with_2. intros u v [-> | ->] [-> | ->]; cbn; auto.
Qed.

Lemma binary_invert a : binary a -> binary (arr_invert a).
Proof.
  unfold binary, arr_invert, arr_map. cbn [data]. intros H.
  apply Forall_map. eapply Forall_impl; [exact H|]. intros r Hr. cbn beta.
  apply Forall_map. eapply Forall_impl; [exact Hr|]. intros p Hp. cbn beta.
  apply Forall_map. eapply Forall_impl; [exact Hp|].
  intros v [-> | ->]; cbn; auto.
Qed.

Lemma binary_full s v : v = 0 \/ v = 255 -> binary (full s v).
Proof.
  intros Hv. unfold binary, full. cbn [data].
  apply Forall_replicate, Forall_replicate, Forall_replicate, Hv.
Qed.

Lemma binary_assign a y0 y1 x0 x1 :
  binary a -> binary (assign_slice2 a y0 y1 x0 x1 255).
Proof.
  unfold binary, assign_slice2. cbn [data]. intros H.
  apply Forall_lookup. intros i row Hrow.
  apply list_lookup_imap_Some in Hrow as (row0 & Hrow0 & ->).
  pose proof (proj1 (Forall_lookup _ _) H i row0 Hrow0) as Hr.
  destruct (in_slice _ y0 y1 i); [|exact Hr].
  apply Forall_lookup. intros j px Hpx.
  apply list_lookup_imap_Some in Hpx as (px0 & Hpx0 & ->).
  pose proof (proj1 (Forall_lookup _ _) Hr j px0 Hpx0) as Hp.
  destruct (in_slice _ x0 x1 j); [|exact Hp].
  apply Forall_map. apply Forall_forall. auto.
Qed.

Lemma binary_region_array r s a : region_array r s = Ok a -> binary a.
Proof.
  unfold region_array. destruct (Region.intersect _ _) as [q|].
  - destruct (Region.y q), (Region.bottom q), (Region.x q), (Region.right q);
      cbn; try discriminate. intros [= <-].
    apply binary_assign, binary_full. auto.
  - intros [= <-]. apply binary_full. auto.
Qed.

Section MaskLaws.

Variable load_image : ndarray -> list nat -> result ndarray.

Local Abbreviation to_array := (to_array load_image).
Local Abbreviation coverage := (coverage load_image).
Local Abbreviation memo_sound := (memo_sound load_image).
Local Abbreviation Mask_add := (Mask_add load_image).
Local Abbreviation Mask_sub := (Mask_sub load_image).
Local Abbreviation Mask_invert := (Mask_invert load_image).

Hypothesis load_image_shape : forall img c a,
    load_image img [c] = Ok a ->
    shape a = mkShape (rows (shape img)) (cols (shape img)) c.

Lemma to_array_coverage m s : memo_sound m -> (to_array m s).2 = coverage m s.
Proof. intros H. apply (to_array_memo load_image load_image_shape m s H). Qed.

Lemma Mask_init_copy m invert :
  Mask_init load_image (ArgMask m) invert
  = Ok (set_invert (set_array m None) (xorb invert (_invert m))).
Proof. destruct m as [i b r v a], invert; reflexivity. Qed.

Lemma coverage_copy m invert s :
  coverage (set_invert (set_array m None) (xorb invert (_invert m))) s
  = rmap (apply_invert (xorb invert (_invert m)))
      match _image m with
      | Some img => image_array load_image img s
      | None =>
          match _binop m with
          | Some n =>
              if String.eqb (op n) "+"
              then rmap2 arr_or (coverage (left n) s) (coverage (right n) s)
              else if String.eqb (op n) "-"
              then rmap2 difference (coverage (left n) s) (coverage (right n) s)
              else Raise (AssertionError "Unreachable: Unknown op")
          | None => region_array (_region m) s
          end
      end.
Proof. destruct m as [i [n|] r v a]; reflexivity. Qed.

Lemma memo_sound_copy m b :
  memo_sound m -> memo_sound (set_invert (set_array m None) b).
Proof.
  destruct m as [i bo r v a]. intros [_ H]. split; [discriminate | exact H].
Qed.

Lemma coverage_sum a b s :
  coverage (mkMask None (Some (mkBinOp "+" a b)) None false None) s
  = rmap2 arr_or (coverage a s) (coverage b s).
Proof.
  cbn [coverage _image _binop _invert op left right String.eqb Ascii.eqb
       Bool.eqb].
  apply rmap_apply_invert_false.
Qed.

Lemma coverage_difference a b s :
  coverage (mkMask None (Some (mkBinOp "-" a b)) None false None) s
  = rmap2 difference (coverage a s) (coverage b s).
Proof.
  cbn [coverage _image _binop _invert op left right String.eqb Ascii.eqb
       Bool.eqb].
  apply rmap_apply_invert_false.
Qed.

(** X1.  Inverting a mask twice gives the mask back, with no array memoised
    in it: [~~m] is [m] itself, not a mask that complements an array twice,
    and it rasterises to what [m] rasterises to. *)
Theorem double_inversion_is_the_mask (m : Mask) (s : Shape) :
  memo_sound m ->
  rbind (Mask_invert m) Mask_invert = Ok (set_array m None)
  /\ (to_array (set_array m None) s).2 = (to_array m s).2.
Proof.
  intros Hm. split.
  - destruct m as [i b r v a]. cbn. rewrite negb_involutive. reflexivity.
  - rewrite !to_array_coverage by auto using memo_sound_fresh.
    apply coverage_set_array.
Qed.

(** Both operands of an operator are made into masks of their own by
    [Mask(other)]; the copy rasterises to what the operand rasterises to. *)
Lemma Mask_init_plain m : Mask_init load_image (ArgMask m) false = Ok (set_array m None).
Proof. destruct m; reflexivity. Qed.

Lemma to_array_sum a b s :
  memo_sound a -> memo_sound b ->
  (to_array (mkMask None (Some (mkBinOp "+" a (set_array b None))) None false None) s).2
  = rmap2 arr_or (coverage a s) (coverage b s).
Proof.
  intros Ha Hb. rewrite to_array_coverage.
  - rewrite coverage_sum, coverage_set_array. reflexivity.
  - split; [discriminate|]. split; [exact Ha | apply memo_sound_fresh, Hb].
Qed.

Lemma to_array_difference a b s :
  memo_sound a -> memo_sound b ->
  (to_array (mkMask None (Some (mkBinOp "-" a (set_array b None))) None false None) s).2
  = rmap2 difference (coverage a s) (coverage b s).
Proof.
  intros Ha Hb. rewrite to_array_coverage.
  - rewrite coverage_difference, coverage_set_array. reflexivity.
  - split; [discriminate|]. split; [exact Ha | apply memo_sound_fresh, Hb].
Qed.

Lemma memo_sound_sum o a b :
  memo_sound a -> memo_sound b ->
  memo_sound (mkMask None (Some (mkBinOp o a (set_array b None))) None false None).
Proof.
  intros Ha Hb. split; [discriminate|].
  split; [exact Ha | apply memo_sound_fresh, Hb].
Qed.

(** X2.  De Morgan: the complement of a union is the difference of the
    complement of the one mask and the other, [~(a + b)] and [~a - b]
    rasterise to the same array or raise the same exception. *)
Theorem inverted_union_is_difference (a b : Mask) (s : Shape) :
  memo_sound a -> memo_sound b ->
  exists l r,
    rbind (Mask_add a (ArgMask b)) Mask_invert = Ok l
    /\ rbind (Mask_invert a) (fun na => Mask_sub na (ArgMask b)) = Ok r
    /\ (to_array l s).2 = (to_array r s).2.
Proof.
  intros Ha Hb.
  exists (mkMask None (Some (mkBinOp "+" a (set_array b None))) None true None),
         (mkMask None
                 (Some (mkBinOp "-" (set_invert (set_array a None) (negb (_invert a)))
                                (set_array b None)))
                 None false None).
  split; [destruct a, b; reflexivity|]. split; [destruct a, b; reflexivity|].
  rewrite !to_array_coverage.
  2:{ split; [discriminate|]. split; [|apply memo_sound_fresh, Hb].
      apply memo_sound_copy, Ha. }
  2:{ split; [discriminate|]. split; [exact Ha | apply memo_sound_fresh, Hb]. }
  rewrite coverage_difference, coverage_set_array.
  change (coverage (mkMask None (Some (mkBinOp "+" a (set_array b None))) None true None) s)
    with (rmap (apply_invert true)
            (rmap2 arr_or (coverage a s) (coverage (set_array b None) s))).
  rewrite coverage_set_array.
  assert (Hinner : exists x,
             coverage a s = rmap (apply_invert (_invert a)) x
             /\ coverage (set_invert (set_array a None) (negb (_invert a))) s
                = rmap (apply_invert (negb (_invert a))) x).
  { destruct a as [i [n|] r v c]; eexists; split; reflexivity. }
  destruct Hinner as (x & -> & ->).
  destruct x as [x|e]; [|reflexivity].
  destruct (coverage b s) as [y|e]; [|reflexivity].
  destruct (_invert a); cbn; f_equal.
  - apply arr_invert_or_invert.
  - apply arr_invert_or.
Qed.

(** X3.  The union of masks is associative and idempotent, exceptions
    included, and it is commutative when both masks rasterise. *)
Theorem union_laws (a b c : Mask) (s : Shape) :
  memo_sound a -> memo_sound b -> memo_sound c ->
  (exists l r,
      rbind (Mask_add a (ArgMask b)) (fun ab => Mask_add ab (ArgMask c)) = Ok l
      /\ rbind (Mask_add b (ArgMask c)) (fun bc => Mask_add a (ArgMask bc)) = Ok r
      /\ (to_array l s).2 = (to_array r s).2)
  /\ (exists aa, Mask_add a (ArgMask a) = Ok aa
                 /\ (to_array aa s).2 = (to_array a s).2)
  /\ (forall x y,
         (to_array a s).2 = Ok x -> (to_array b s).2 = Ok y ->
         exists ab ba,
           Mask_add a (ArgMask b) = Ok ab /\ Mask_add b (ArgMask a) = Ok ba
           /\ (to_array ab s).2 = (to_array ba s).2).
Proof.
  intros Ha Hb Hc. split; [|split].
  - exists (mkMask None
              (Some (mkBinOp "+"
                       (mkMask None (Some (mkBinOp "+" a (set_array b None)))
                               None false None)
                       (set_array c None)))
              None false None),
           (mkMask None
              (Some (mkBinOp "+" a
                       (set_array
                          (mkMask None (Some (mkBinOp "+" b (set_array c None)))
                                  None false None)
                          None)))
              None false None).
    split; [destruct a, b, c; reflexivity|].
    split; [destruct a, b, c; reflexivity|].
    rewrite !to_array_sum by auto using memo_sound_sum.
    rewrite !coverage_sum, !coverage_set_array.
    destruct (coverage a s) as [x|e]; [|reflexivity].
    destruct (coverage b s) as [y|e]; [|reflexivity].
    destruct (coverage c s) as [z|e]; [|reflexivity].
    cbn. f_equal. apply arr_or_assoc.
  - exists (mkMask None (Some (mkBinOp "+" a (set_array a None))) None false None).
    split; [destruct a; reflexivity|].
    rewrite to_array_sum, to_array_coverage by assumption.
    destruct (coverage a s) as [x|e]; [|reflexivity].
    cbn. f_equal. apply arr_or_same.
  - intros x y Hx Hy.
    exists (mkMask None (Some (mkBinOp "+" a (set_array b None))) None false None),
           (mkMask None (Some (mkBinOp "+" b (set_array a None))) None false None).
    split; [destruct a, b; reflexivity|]. split; [destruct a, b; reflexivity|].
    rewrite !to_array_sum by assumption.
    rewrite to_array_coverage in Hx, Hy by assumption. rewrite Hx, Hy.
    cbn. f_equal. apply arr_or_comm.
    rewrite (coverage_shape load_image load_image_shape _ _ _ Hx).
    rewrite (coverage_shape load_image load_image_shape _ _ _ Hy). reflexivity.
Qed.

(** X4.  Taking two masks away one after the other is taking their union
    away: [a - b - c] and [a - (b + c)] rasterise to the same array or raise
    the same exception. *)
Theorem difference_of_union (a b c : Mask) (s : Shape) :
  memo_sound a -> memo_sound b -> memo_sound c ->
  exists l r,
    rbind (Mask_sub a (ArgMask b)) (fun ab => Mask_sub ab (ArgMask c)) = Ok l
    /\ rbind (Mask_add b (ArgMask c)) (fun bc => Mask_sub a (ArgMask bc)) = Ok r
    /\ (to_array l s).2 = (to_array r s).2.
Proof.
  intros Ha Hb Hc.
  exists (mkMask None
            (Some (mkBinOp "-"
                     (mkMask None (Some (mkBinOp "-" a (set_array b None)))
                             None false None)
                     (set_array c None)))
            None false None),
         (mkMask None
            (Some (mkBinOp "-" a
                     (set_array
                        (mkMask None (Some (mkBinOp "+" b (set_array c None)))
                                None false None)
                        None)))
            None false None).
  split; [destruct a, b, c; reflexivity|].
  split; [destruct a, b, c; reflexivity|].
  rewrite !to_array_difference by auto using memo_sound_sum.
  rewrite coverage_difference, coverage_sum, !coverage_set_array.
  destruct (coverage a s) as [x|e]; [|reflexivity].
  destruct (coverage b s) as [y|e]; [|reflexivity].
  destruct (coverage c s) as [z|e]; [|reflexivity].
  cbn. f_equal. apply difference_difference.
Qed.

Lemma to_array_memoised m s m1 a :
  to_array m s = (m1, Ok a) -> _array m1 = Some a.
Proof.
  destruct m as [i bo r v c]. cbn [to_array].
  destruct (memo _ s) as [c0|] eqn:Hm.
  - intros [= <- <-]. apply memo_Some in Hm. tauto.
  - cbn [_image _binop _region].
    assert (Hfin : forall m' x, finish m' x = (m1, Ok a) -> _array m1 = Some a).
    { intros m' [x|e]; cbn; [|discriminate]. intros [= <- <-]. reflexivity. }
    destruct i as [img|]; [apply Hfin|].
    destruct bo as [[o l r0]|]; [|apply Hfin].
    cbn [op left right].
    destruct (String.eqb o "+" || String.eqb o "-"); [|discriminate].
    destruct (to_array l s) as [l' [al|e]]; [|discriminate].
    destruct (to_array r0 s) as [r' [ar|e]]; [|discriminate].
    apply Hfin.
Qed.

(** X5.  A second call of [to_array] for the same shape is answered from
    the memo: it returns the array of the first call and leaves the mask as
    the first call left it. *)
Theorem to_array_again (m m1 : Mask) (s : Shape) (a : ndarray) :
  memo_sound m ->
  to_array m s = (m1, Ok a) ->
  to_array m1 s = (m1, Ok a).
Proof.
  intros Hm H.
  pose proof (to_array_memoised _ _ _ _ H) as Hmemo.
  pose proof (to_array_coverage m s Hm) as Hc. rewrite H in Hc. cbn [snd] in Hc.
  pose proof (coverage_shape load_image load_image_shape _ _ _ (eq_sym Hc)) as Hs.
  assert (Hhit : memo m1 s = Some a).
  { unfold memo. rewrite Hmemo.
    rewrite (proj2 (Shape_eqb_eq _ _) Hs). reflexivity. }
  destruct m1 as [i bo r v c]. cbn [to_array]. rewrite Hhit. reflexivity.
Qed.

Lemma binary_coverage m : forall s a,
    region_only m -> coverage m s = Ok a -> binary a.
Proof.
  induction m as [i r v a0 | i o l r' r v a0 IHl IHr] using Mask_tree_ind;
    intros s a [Hi Hsub]; cbn [_image _binop left right] in Hi, Hsub; subst i;
    cbn [coverage _image _binop _region _invert op left right].
  - destruct (region_array r s) as [x|] eqn:E; cbn; [|discriminate].
    intros [= <-]. apply binary_region_array in E.
    destruct v; cbn; auto using binary_invert.
  - destruct Hsub as [Hl Hr].
    destruct (coverage l s) as [x|] eqn:El;
      [|destruct (String.eqb o "+"), (String.eqb o "-"); discriminate].
    destruct (coverage r' s) as [y|] eqn:Er;
      [|destruct (String.eqb o "+"), (String.eqb o "-"); discriminate].
    specialize (IHl _ _ Hl El). specialize (IHr _ _ Hr Er).
    destruct (String.eqb o "+"); [|destruct (String.eqb o "-")]; cbn;
      try discriminate; intros [= <-]; unfold difference;
      destruct v; cbn; auto using binary_invert, binary_or, binary_and.
Qed.

(** X6.  A mask that is built from regions with [+], [-] and [~] is a
    binary mask: every value of the array it rasterises to is 0 or 255. *)
Theorem region_masks_are_binary (m : Mask) (s : Shape) (a : ndarray) :
  region_only m -> memo_sound m ->
  (to_array m s).2 = Ok a ->
  binary a.
Proof.
  intros Hr Hm H. rewrite to_array_coverage in H by exact Hm.
  exact (binary_coverage m s a Hr H).
Qed.

End MaskLaws.

(* ===================================================================== *)
(** ** Where the matches are *)
(* ===================================================================== *)

Lemma excluded_overlap template p q :
  excluded template p q = false -> ~ overlap template p q.
Proof.
  unfold excluded, in_rect, overlap. intros H (x & y & [Hx Hy] & [Hx' Hy']).
  apply not_true_iff_false in H. apply H.
  rewrite !andb_true_iff, !Z.leb_le. lia.
Qed.

Lemma overlap_sym template p q : overlap template p q -> overlap template q p.
Proof. intros (x & y & H1 & H2). exists x, y. auto. Qed.

Lemma Region_at_inj p q w h : Region_at p w h = Region_at q w h -> p = q.
Proof. destruct p, q. unfold Region_at, Region.make. cbn. intros [= -> ->]. reflexivity. Qed.

(** After a match at [p], the next frame of [_find_candidate_matches] has
    the heat map of the frame with the positions that [p] rules out
    masked. *)
Lemma next_candidate_masks image template match_parameters f p :
  good_frame image template match_parameters f ->
  cf_matched f = true ->
  cf_region f = Region_at p (cols (shape template)) (rows (shape template)) ->
  exists f',
    next_candidate template match_parameters f
    = Yielded (mkCandidate (cf_i f') (cf_matched f') (cf_region f') (cf_certainty f'))
              (CandidateAtYield f')
    /\ good_frame image template match_parameters f'
    /\ forall q u,
        In (q, u) (scan_cells (cf_heatmap f')) ->
        exists u0, In (q, u0) (scan_cells (cf_heatmap f))
                   /\ u = if excluded template p q
                          then mask_value match_parameters else u0.
Proof.
  intros Hgood Hm Hregion.
  destruct (next_candidate_good image template match_parameters f Hgood Hm)
    as (f' & Hnext & Hgood' & _).
  exists f'. split; [exact Hnext|]. split; [exact Hgood'|].
  destruct Hgood as (_ & _ & _ & Hmatch).
  destruct (Hmatch Hm) as (Hlevel & _).
  unfold next_candidate in Hnext. rewrite Hm, Hlevel, Hregion in Hnext.
  cbn [negb Nat.eqb] in Hnext.
  destruct (Region_at_extents p (cols (shape template)) (rows (shape template)))
    as [Hw Hh].
  rewrite Hw, Hh in Hnext.
  cbn [rbind Region.extend Region_at Region.make Region.x Region.y Region.right
       Region.bottom Coord_add slice_index] in Hnext.
  fold (mask_value match_parameters) in Hnext.
  destruct (_find_best_match_position _ (cf_method f) (cf_threshold f))
    as [[[matched' p'] certainty']|e]; [|discriminate Hnext].
  cbn [rbind] in Hnext.
  apply (f_equal (fun s => match s with
                           | Yielded _ (CandidateAtYield x) => Some (cf_heatmap x)
                           | _ => None
                           end)) in Hnext.
  cbn [cf_heatmap] in Hnext. injection Hnext as Hheat.
  intros q u Hin. rewrite <- Hheat, scan_cells_rectangle in Hin.
  apply in_map_iff in Hin as ([q0 u0] & Heq & Hin0).
  unfold mask_cell in Heq. cbn [fst snd] in Heq. injection Heq as -> <-.
  exists u0. split; [exact Hin0|].
  unfold excluded.
  replace (Position.x p - (Z.of_nat (cols (shape template)) - 1))
    with (Position.x p
          + - (Position.x p + Z.of_nat (cols (shape template)) - Position.x p - 1))
    by lia.
  replace (Position.y p - (Z.of_nat (rows (shape template)) - 1))
    with (Position.y p
          + - (Position.y p + Z.of_nat (rows (shape template)) - Position.y p - 1))
    by lia.
  reflexivity.
Qed.

Section WhereTheMatchesAre.

Context {cv : Cv2} (sizes : Cv2Sizes cv).
Variable pyramid_levels : Z.
Variables image template : ndarray.
Variable match_parameters : MatchParameters.

Local Abbreviation find := (_find_matches pyramid_levels image template match_parameters).

(** The threshold is positive, or the method is the squared difference:
    the score that masks a match is not a match. *)
Hypothesis masking : match_method match_parameters = "sqdiff-normed"
                     \/ (0 < match_threshold match_parameters)%Q.

Lemma run_after_rejection fuel c ys e :
  run find fuel (FindAtYield c false) = (ys, e) -> ys = [].
Proof. destruct fuel; cbn; intros [= <- _]; reflexivity. Qed.

(** A frame whose candidate the first pass calls a match: its position is
    in the frame, and no match that the heat map is masked around rules it
    out. *)
Lemma matched_frame_position ps f :
  good_frame image template match_parameters f ->
  masked_around template match_parameters ps (cf_heatmap f) ->
  cf_matched f = true ->
  exists q,
    cf_region f = Region_at q (cols (shape template)) (rows (shape template))
    /\ in_bounds image template q
    /\ Forall (fun p => excluded template p q = false) ps.
Proof.
  intros (_ & _ & _ & Hmatch) Hmasked Hm.
  destruct (Hmatch Hm) as (_ & Hmask & Hbounds & q & v & Hregion & Hin & Hv).
  exists q. split; [exact Hregion|]. split; [exact (Hbounds q v Hin)|].
  apply Forall_forall. intros p Hp.
  destruct (excluded template p q) eqn:E; [|reflexivity].
  rewrite (Hmasked p q v (proj1 (list_elem_of_In _ _) Hp) Hin E) in Hv. congruence.
Qed.

Lemma separated_run fuel : forall f confirmed p ps ys e,
    good_frame image template match_parameters f ->
    masked_around template match_parameters ps (cf_heatmap f) ->
    (confirmed = true ->
     cf_matched f = true
     /\ cf_region f = Region_at p (cols (shape template)) (rows (shape template))) ->
    run find fuel (FindAtYield (CandidateAtYield f) confirmed) = (ys, e) ->
    separated image template (p :: ps) ys.
Proof.
  induction fuel as [|fuel IH]; intros f confirmed p ps ys e Hgood Hmasked Hconf;
    [intros [= <- _]; exact I|].
  destruct confirmed; [|intros H; apply run_after_rejection in H; subst ys; exact I].
  destruct (Hconf eq_refl) as [Hm Hregion].
  destruct (next_candidate_masks image template match_parameters f p Hgood Hm Hregion)
    as (f' & Hnext & Hgood' & Hheat).
  assert (Hmasked' : masked_around template match_parameters (p :: ps) (cf_heatmap f')).
  { intros p0 q u Hp0 Hin Hex. destruct (Hheat q u Hin) as (u0 & Hin0 & ->).
    destruct Hp0 as [<-|Hp0]; [rewrite Hex; reflexivity|].
    destruct (excluded template p q); [reflexivity|].
    exact (Hmasked p0 q u0 Hp0 Hin0 Hex). }
  cbn [run _find_matches negb]. unfold find_matches_round.
  cbn [_find_candidate_matches]. rewrite Hnext.
  cbn [cand_matched cand_region cand_certainty].
  destruct (cf_matched f') eqn:Hm'.
  - destruct (matched_frame_position (p :: ps) f' Hgood' Hmasked' Hm')
      as (q & Hregion' & Hbounds & Hfree).
    destruct (_confirm_match image template match_parameters (cf_region f'))
      as [confirmed'|err]; [|intros [= <- _]; exact I].
    destruct (run find fuel (FindAtYield (CandidateAtYield f') confirmed'))
      as [rest e'] eqn:Hrun.
    intros [= <- _]. cbn [separated found_first_pass_matched].
    exists q. split; [unfold found_at; cbn; rewrite Hregion'; reflexivity|].
    split; [exact Hbounds|]. split; [exact Hfree|].
    apply (IH f' confirmed' q (p :: ps) rest e' Hgood' Hmasked'); [|exact Hrun].
    intros _. split; [exact Hm' | exact Hregion'].
  - destruct (run find fuel (FindAtYield (CandidateAtYield f') false))
      as [rest e'] eqn:Hrun.
    intros [= <- _]. cbn [separated found_first_pass_matched].
    apply run_after_rejection in Hrun. exact Hrun.
Qed.

Lemma separated_start fuel ys e :
  run find fuel FindStart = (ys, e) -> separated image template [] ys.
Proof.
  destruct fuel as [|fuel]; [intros [= <- _]; exact I|].
  cbn [run _find_matches].
  destruct (Nat.ltb_spec (rows (shape image)) (rows (shape template))) as [|Hr];
    [intros [= <- _]; exact I|].
  destruct (Nat.ltb_spec (cols (shape image)) (cols (shape template))) as [|Hc];
    [intros [= <- _]; exact I|].
  destruct (Nat.ltb_spec (rows (shape template)) 1) as [|Hr1];
    [intros [= <- _]; exact I|].
  destruct (Nat.ltb_spec (cols (shape template)) 1) as [|Hc1];
    [intros [= <- _]; exact I|].
  cbn [orb]. destruct (negb _); [intros [= <- _]; exact I|].
  unfold find_matches_round. cbn [_find_candidate_matches].
  destruct (method_of (match_method match_parameters)) as [method|err] eqn:Hmethod;
    [|unfold first_candidate; rewrite Hmethod; intros [= <- _]; exact I].
  destruct (Z.ltb_spec 0 pyramid_levels) as [Hl|Hl].
  2:{ unfold first_candidate. rewrite Hmethod. cbn [rbind].
      destruct (Z.leb_spec pyramid_levels 0); [|lia]. intros [= <- _]. exact I. }
  destruct (first_candidate_good sizes pyramid_levels image template match_parameters
              method (conj Hr Hc) Hr1 Hc1 Hl Hmethod masking) as (f & -> & Hgood).
  cbn [cand_matched cand_region cand_certainty].
  assert (Hnone : masked_around template match_parameters [] (cf_heatmap f))
    by (intros p q u []).
  destruct (cf_matched f) eqn:Hm.
  - destruct (matched_frame_position [] f Hgood Hnone Hm)
      as (q & Hregion & Hbounds & Hfree).
    destruct (_confirm_match image template match_parameters (cf_region f))
      as [confirmed|err]; [|intros [= <- _]; exact I].
    destruct (run find fuel (FindAtYield (CandidateAtYield f) confirmed))
      as [rest e'] eqn:Hrun.
    intros [= <- _]. cbn [separated found_first_pass_matched].
    exists q. split; [unfold found_at; cbn; rewrite Hregion; reflexivity|].
    split; [exact Hbounds|]. split; [exact Hfree|].
    apply (separated_run fuel f confirmed q [] rest e' Hgood Hnone); [|exact Hrun].
    intros _. split; [exact Hm | exact Hregion].
  - destruct (run find fuel (FindAtYield (CandidateAtYield f) false))
      as [rest e'] eqn:Hrun.
    intros [= <- _]. cbn [separated found_first_pass_matched].
    apply run_after_rejection in Hrun. exact Hrun.
Qed.

Lemma separated_within ps ys y :
  separated image template ps ys ->
  In y ys -> found_first_pass_matched y = true ->
  exists q, found_at template q y /\ in_bounds image template q.
Proof.
  revert ps. induction ys as [|y0 rest IH]; intros ps Hs Hin Hy; [destruct Hin|].
  cbn [separated] in Hs. destruct Hin as [->|Hin].
  - rewrite Hy in Hs. destruct Hs as (q & Hq & Hb & _). eauto.
  - destruct (found_first_pass_matched y0).
    + destruct Hs as (q & _ & _ & _ & Hrest). exact (IH _ Hrest Hin Hy).
    + subst rest. destruct Hin.
Qed.

Lemma separated_from ps ys j y :
  separated image template ps ys ->
  ys !! j = Some y -> found_first_pass_matched y = true ->
  exists q, found_at template q y
            /\ Forall (fun p => excluded template p q = false) ps.
Proof.
  revert ps j. induction ys as [|y0 rest IH]; intros ps j Hs Hj Hy;
    [discriminate Hj|].
  cbn [separated] in Hs. destruct j as [|j].
  - injection Hj as ->. rewrite Hy in Hs. destruct Hs as (q & Hq & _ & Hfree & _).
    eauto.
  - cbn in Hj. destruct (found_first_pass_matched y0).
    + destruct Hs as (q0 & _ & _ & _ & Hrest).
      destruct (IH _ _ Hrest Hj Hy) as (q & Hq & Hfree).
      exists q. split; [exact Hq|]. inversion Hfree; assumption.
    + subst rest. discriminate Hj.
Qed.

Lemma separated_pair ps ys i j yi yj :
  separated image template ps ys ->
  (i < j)%nat -> ys !! i = Some yi -> ys !! j = Some yj ->
  found_first_pass_matched yj = true ->
  exists p q, found_at template p yi /\ found_at template q yj
              /\ excluded template p q = false.
Proof.
  revert ps i j. induction ys as [|y0 rest IH]; intros ps i j Hs Hij Hi Hj Hy;
    [discriminate Hi|].
  cbn [separated] in Hs. destruct j as [|j]; [lia|]. cbn in Hj.
  destruct (found_first_pass_matched y0) eqn:Hy0;
    [|subst rest; discriminate Hj].
  destruct Hs as (q0 & Hq0 & _ & _ & Hrest).
  destruct i as [|i].
  - injection Hi as <-.
    destruct (separated_from _ _ _ _ Hrest Hj Hy) as (q & Hq & Hfree).
    exists q0, q. split; [exact Hq0|]. split; [exact Hq|].
    inversion Hfree; assumption.
  - cbn in Hi. apply (IH _ i j Hrest); [lia | assumption..].
Qed.

(** X7.  Where the threshold is positive or the method is the squared
    difference, every value of [_find_matches] that the first pass calls a
    match is the template at a position inside the frame that was searched:
    the region starts at [0 <= x <= W - w], [0 <= y <= H - h]. *)
Theorem matches_lie_within_the_frame (fuel : nat) (ys : list Found) (e : ending)
        (y : Found) :
  run find fuel FindStart = (ys, e) ->
  In y ys ->
  found_first_pass_matched y = true ->
  exists q, found_at template q y /\ in_bounds image template q.
Proof.
  intros Hrun. apply (separated_within []). exact (separated_start fuel ys e Hrun).
Qed.

(** X8.  Where the threshold is positive or the method is the squared
    difference, no two values of [_find_matches] that the first pass calls
    matches overlap: the template at the position of the one shares no
    pixel with the template at the position of the other. *)
Theorem matches_do_not_overlap (fuel : nat) (ys : list Found) (e : ending)
        (i j : nat) (yi yj : Found) :
  run find fuel FindStart = (ys, e) ->
  (i < j)%nat -> ys !! i = Some yi -> ys !! j = Some yj ->
  found_first_pass_matched yj = true ->
  exists p q, found_at template p yi /\ found_at template q yj
              /\ ~ overlap template p q.
Proof.
  intros Hrun Hij Hi Hj Hy.
  destruct (separated_pair [] ys i j yi yj (separated_start fuel ys e Hrun) Hij Hi Hj Hy)
    as (p & q & Hp & Hq & Hex).
  exists p, q. split; [exact Hp|]. split; [exact Hq|].
  apply excluded_overlap, Hex.
Qed.

End WhereTheMatchesAre.

(* ===================================================================== *)
(** ** The first pass, step by step *)
(* ===================================================================== *)

(** X9.  [_find_best_match_position] returns a position of the heat map
    whose certainty no position of the heat map exceeds: the lowest score
    for the squared difference, the highest for the correlations.  The
    result is a match iff that certainty is at or above the threshold.  On
    a heat map without positions, OpenCV raises. *)
Theorem best_match_position_is_best (a : array2 Q) (method : TemplateMatchMode)
        (threshold : Q) :
  match _find_best_match_position a method threshold with
  | Ok (matched, p, certainty) =>
      (exists v, In (p, v) (scan_cells a) /\ certainty = certainty_of method v)
      /\ matched = Qle_bool threshold certainty
      /\ forall q u, In (q, u) (scan_cells a) ->
                     (certainty_of method u <= certainty)%Q
  | Raise _ => scan_cells a = []
  end.
Proof.
  pose proof (find_best_match_position_spec a method threshold) as H.
  destruct (_find_best_match_position a method threshold) as [[[matched p] c]|e];
    [|exact H].
  destruct H as (v & Hin & Hc & Hm & Hbest).
  split; [eauto|]. split; [|exact Hbest].
  rewrite Hm, Hc. reflexivity.
Qed.

Lemma map_length_imap {A B} (f : nat -> list A -> list B) (a : list (list A)) :
  (forall y row, length (f y row) = length row) ->
  map length (imap f a) = map length a.
Proof.
  revert f. induction a as [|row a IH]; intros f Hf; [reflexivity|].
  cbn [imap map]. rewrite Hf. f_equal. apply IH. intros y r. apply Hf.
Qed.

Lemma write_result_size heatmap roi res :
  map length (write_result heatmap roi res) = map length heatmap.
Proof.
  unfold write_result. destruct (bool_decide _); [|reflexivity].
  apply map_length_imap. intros y row.
  destruct (_ && _); [|reflexivity]. apply length_imap.
Qed.

(** X10.  [_match_template] returns a heat map of [H - h + 1] rows of
    [W - w + 1] scores for a template of [h] by [w] in an image of [H] by
    [W], whatever the regions of interest are; it raises [ValueError] when
    one of the two sizes is negative, and only then. *)
Theorem match_template_size {cv : Cv2} (image template : ndarray)
        (method : TemplateMatchMode) (roi_mask : option (array2 Z)) :
  match _match_template image template method roi_mask with
  | Ok heatmap =>
      map length heatmap
      = replicate (rows (shape image) + 1 - rows (shape template))
                  (cols (shape image) + 1 - cols (shape template))%nat
      /\ (rows (shape template) <= rows (shape image) + 1)%nat
      /\ (cols (shape template) <= cols (shape image) + 1)%nat
  | Raise e =>
      e = ValueError "negative dimensions are not allowed"
      /\ ((rows (shape image) + 1 < rows (shape template))%nat
          \/ (cols (shape image) + 1 < cols (shape template))%nat)
  end.
Proof.
  unfold _match_template.
  set (h := Z.of_nat (rows (shape image)) - Z.of_nat (rows (shape template)) + 1).
  set (w := Z.of_nat (cols (shape image)) - Z.of_nat (cols (shape template)) + 1).
  destruct (Z.ltb_spec h 0) as [Hh|Hh]; [split; [reflexivity | subst h; lia]|].
  destruct (Z.ltb_spec w 0) as [Hw|Hw]; [split; [reflexivity | subst w; lia]|].
  cbn [orb]. split; [|subst h w; lia].
  set (start := full_2d (Z.to_nat h) (Z.to_nat w) _).
  assert (Hstart : map length start
                   = replicate (rows (shape image) + 1 - rows (shape template))
                               (cols (shape image) + 1 - cols (shape template))%nat).
  { subst start. unfold full_2d.
    change (map length) with (fmap (M:=list) (@length Q)).
    rewrite fmap_replicate, length_replicate. f_equal; subst h w; lia. }
  generalize (search_rois start roi_mask) as rois. revert Hstart.
  generalize start as heatmap. clear start.
  intros heatmap Hsize rois. revert heatmap Hsize.
  induction rois as [|roi rois IH]; intros heatmap Hsize; [exact Hsize|].
  cbn [fold_left]. apply IH. rewrite write_result_size. exact Hsize.
Qed.

(** X11.  [MatchParameters] accepts the three match methods and the three
    confirm methods and nothing else: what it accepts is stored as given,
    and its match method is one that [_find_candidate_matches] has an OpenCV
    constant for; what it rejects is a [ValueError]. *)
Theorem MatchParameters_are_valid (mm : string) (mt : Q) (cm : string) (ct : Q)
        (ep : nat) :
  match MatchParameters_init mm mt cm ct ep with
  | Ok p =>
      p = mkMatchParameters mm mt cm ct ep
      /\ In mm match_methods /\ In cm confirm_methods
      /\ exists method, method_of (match_method p) = Ok method
  | Raise e =>
      (exists msg, e = ValueError msg)
      /\ (~ In mm match_methods \/ ~ In cm confirm_methods)
  end.
Proof.
  unfold MatchParameters_init, match_methods, confirm_methods, method_of.
  destruct (String.eqb_spec mm "sqdiff-normed") as [->|H1]; cbn [orb negb].
  2: destruct (String.eqb_spec mm "ccorr-normed") as [->|H2]; cbn [orb negb].
  3: destruct (String.eqb_spec mm "ccoeff-normed") as [->|H3]; cbn [orb negb].
  4: { split; [eauto|]. left. cbn. intros [H|[H|[H|[]]]]; congruence. }
  all: destruct (String.eqb_spec cm "none") as [->|C1]; cbn [orb negb].
  all: try (destruct (String.eqb_spec cm "absdiff") as [->|C2]; cbn [orb negb]).
  all: try (destruct (String.eqb_spec cm "normed-absdiff") as [->|C3]; cbn [orb negb]).
  all: try (split; [eauto|]; right; cbn; intros [H|[H|[H|[]]]]; congruence).
  all: split; [reflexivity|]; split; [cbn; auto|]; split; [cbn; auto|];
    cbn; eauto.
Qed.

(* ===================================================================== *)
(** ** The second pass: what it confirms *)
(* ===================================================================== *)

Lemma int_of_nonneg (q : Q) : (0 <= q)%Q -> 0 <= int_of q.
Proof.
  destruct q as [n p]. unfold Qle, int_of. cbn. intros Hn.
  rewrite Z.quot_div_nonneg by lia. apply Z.div_pos; lia.
Qed.

Lemma int_of_mono (q q' : Q) : (0 <= q)%Q -> (q <= q')%Q -> int_of q <= int_of q'.
Proof.
  destruct q as [n p], q' as [n' p']. unfold Qle, int_of. cbn. intros Hn Hle.
  rewrite !Z.quot_div_nonneg by nia.
  apply Z.div_le_lower_bound; [lia|].
  pose proof (Z.mul_div_le n (Z.pos p) ltac:(lia)). nia.
Qed.

Lemma all_zero_count (a : array2 Z) :
  Nat.eqb (countNonZero a) 0 = true <-> all_zero a.
Proof.
  rewrite countNonZero_zero. unfold all_zero.
  rewrite forallb_forall, Forall_forall. split.
  - intros H row Hrow. apply Forall_forall. intros v Hv.
    specialize (H row (proj1 (list_elem_of_In _ _) Hrow)).
    rewrite forallb_forall in H.
    symmetry. apply Z.eqb_eq, H, list_elem_of_In, Hv.
  - intros H row Hrow. apply forallb_forall. intros v Hv.
    specialize (H row (proj2 (list_elem_of_In _ _) Hrow)).
    rewrite Forall_forall in H.
    apply Z.eqb_eq. symmetry. apply H, list_elem_of_In, Hv.
Qed.

Lemma pixel_at_Some {A} (a : array2 A) x y v :
  pixel_at a x y = Some v ->
  exists row, a !! Z.to_nat y = Some row /\ row !! Z.to_nat x = Some v.
Proof.
  unfold pixel_at. destruct (_ || _); [discriminate|].
  destruct (a !! Z.to_nat y) as [row|]; [|discriminate]. eauto.
Qed.

Lemma below_pixel a b x y :
  below a b ->
  match pixel_at a x y, pixel_at b x y with
  | Some u, Some v => 0 <= u <= v
  | None, None => True
  | _, _ => False
  end.
Proof.
  intros H. unfold pixel_at, below, array2 in *. destruct (_ || _); [exact I|].
  destruct (a !! Z.to_nat y) as [ra|] eqn:Ea.
  - destruct (Forall2_lookup_l _ _ _ _ _ H Ea) as (rb & -> & Hrow).
    destruct (ra !! Z.to_nat x) as [u|] eqn:Eu.
    + destruct (Forall2_lookup_l _ _ _ _ _ Hrow Eu) as (v & -> & Huv). exact Huv.
    + destruct (rb !! Z.to_nat x) as [v|] eqn:Ev; [|exact I].
      destruct (Forall2_lookup_r _ _ _ _ _ Hrow Ev) as (u & Hu & _).
      rewrite Eu in Hu. discriminate Hu.
  - destruct (b !! Z.to_nat y) as [rb|] eqn:Eb; [|exact I].
    destruct (Forall2_lookup_r _ _ _ _ _ H Eb) as (ra & Hra & _).
    rewrite Ea in Hra. discriminate Hra.
Qed.

Lemma erode_pass_below kernel a b :
  below a b -> below (erode_pass kernel a) (erode_pass kernel b).
Proof.
  intros H. unfold erode_pass.
  apply Forall2_same_length_lookup. split.
  - rewrite !length_imap. exact (Forall2_length _ _ _ H).
  - intros y ra rb Ha Hb.
    apply list_lookup_imap_Some in Ha as (ra0 & Ha0 & ->).
    apply list_lookup_imap_Some in Hb as (rb0 & Hb0 & ->).
    destruct (Forall2_lookup_l _ _ _ _ _ H Ha0) as (rb1 & Hb1 & Hrow).
    rewrite Hb0 in Hb1. injection Hb1 as <-.
    apply Forall2_same_length_lookup. split.
    + rewrite !length_imap. exact (Forall2_length _ _ _ Hrow).
    + intros x u v Hu Hv.
      apply list_lookup_imap_Some in Hu as (u0 & _ & ->).
      apply list_lookup_imap_Some in Hv as (v0 & _ & ->).
      induction (kernel_offsets kernel) as [|d ds IH]; cbn [fold_right]; [lia|].
      pose proof (below_pixel a b (Z.of_nat x + d.1) (Z.of_nat y + d.2) H) as Hp.
      destruct (pixel_at a _ _) as [pa|], (pixel_at b _ _) as [pb|];
        try contradiction; lia.
Qed.

Lemma erode_below kernel n : forall a b,
    below a b -> below (erode a kernel n) (erode b kernel n).
Proof.
  unfold erode. induction n as [|n IH]; intros a b H; cbn [Nat.iter]; [exact H|].
  apply erode_pass_below, IH, H.
Qed.

Lemma below_all_zero a b : below a b -> all_zero b -> all_zero a.
Proof.
  unfold below, all_zero. intros H. induction H as [|ra rb a b Hrow _ IH];
    intros Hz; [constructor|].
  inversion Hz as [|? ? Hrb Hb]; subst. constructor; [|exact (IH Hb)].
  clear -Hrow Hrb. induction Hrow as [|u v ra rb Huv _ IH]; [constructor|].
  inversion Hrb; subst. constructor; [lia | auto].
Qed.

Lemma erode_pass_all_zero a :
  all_zero a -> all_zero (erode_pass MORPH_ELLIPSE_3x3 a).
Proof.
  intros Hz. unfold erode_pass.
  change (kernel_offsets MORPH_ELLIPSE_3x3)
    with [(0, -1); (-1, 0); (0, 0); (1, 0); (0, 1)].
  assert (Hpix : forall x y v, pixel_at a x y = Some v -> v = 0).
  { intros x y v Hv. apply pixel_at_Some in Hv as (row & Hrow & Hv).
    pose proof (proj1 (Forall_lookup _ _) Hz _ _ Hrow) as Hr.
    exact (proj1 (Forall_lookup _ _) Hr _ _ Hv). }
  apply Forall_lookup. intros y row Hrow.
  apply list_lookup_imap_Some in Hrow as (row0 & Hrow0 & ->).
  apply Forall_lookup. intros x v Hv.
  apply list_lookup_imap_Some in Hv as (v0 & Hv0 & ->).
  assert (Hcentre : pixel_at a (Z.of_nat x + 0) (Z.of_nat y + 0) = Some v0).
  { unfold pixel_at, array2 in *. rewrite !Z.add_0_r.
    destruct (Z.ltb_spec (Z.of_nat x) 0); [lia|].
    destruct (Z.ltb_spec (Z.of_nat y) 0); [lia|].
    cbn [orb]. rewrite !Nat2Z.id, Hrow0. exact Hv0. }
  pose proof (Hpix _ _ _ Hcentre) as ->.
  cbn [fold_right fst snd]. rewrite Hcentre.
  repeat match goal with
         | |- context [pixel_at a ?x ?y] =>
             let E := fresh "E" in
             destruct (pixel_at a x y) as [?|] eqn:E;
             [apply Hpix in E; subst|]
         end; reflexivity.
Qed.

Lemma erode_all_zero n a :
  all_zero a -> all_zero (erode a MORPH_ELLIPSE_3x3 n).
Proof.
  unfold erode. induction n as [|n IH]; intros H; cbn [Nat.iter]; [exact H|].
  apply erode_pass_all_zero, IH, H.
Qed.

Lemma threshold_below (a : array2 Z) t t' :
  t <= t' -> below (threshold_u8 a t' 255) (threshold_u8 a t 255).
Proof.
  intros Ht. unfold below, threshold_u8.
  induction a as [|row a IH]; cbn [map]; constructor; [|exact IH].
  clear IH. induction row as [|v row IH]; cbn [map]; constructor; [|exact IH].
  destruct (Z.ltb_spec t' v), (Z.ltb_spec t v); lia.
Qed.

Lemma absdiff_same (g : array2 Z) :
  exists d, absdiff g g = Ok d /\ all_zero d.
Proof.
  unfold absdiff. rewrite bool_decide_eq_true_2 by reflexivity.
  eexists. split; [reflexivity|]. unfold all_zero.
  induction g as [|row g IH]; cbn [zip_with]; constructor; [|exact IH].
  clear IH. induction row as [|v row IH]; cbn [zip_with]; constructor; [|exact IH].
  lia.
Qed.

Lemma threshold_all_zero (d : array2 Z) t :
  0 <= t -> all_zero d -> all_zero (threshold_u8 d t 255).
Proof.
  intros Ht H. unfold threshold_u8, all_zero in *.
  apply Forall_map. eapply Forall_impl; [exact H|]. intros row Hrow. cbn beta.
  apply Forall_map. eapply Forall_impl; [exact Hrow|]. intros v ->. cbn beta.
  destruct (Z.ltb_spec t 0); [lia | reflexivity].
Qed.

Section WhatIsConfirmed.

Context {cv : Cv2}.
Variables image template : ndarray.

(** X12.  A region of the frame that is the template, pixel by pixel, is
    confirmed, whatever the confirm method and the number of erode passes
    are, for every [confirm_threshold] that is not negative. *)
Theorem identical_region_is_confirmed (match_parameters : MatchParameters)
        (region : Region.t) :
  region_slice image region = Ok template ->
  (0 <= confirm_threshold match_parameters)%Q ->
  _confirm_match image template match_parameters region = Ok true.
Proof.
  intros Hroi Hct. unfold _confirm_match. rewrite Hroi.
  destruct (String.eqb (confirm_method match_parameters) "none"); [reflexivity|].
  cbn [rbind].
  assert (Hany : forall g : array2 Z,
             rbind (absdiff g g) (fun d =>
               Ok (Nat.eqb (countNonZero
                              (erode (threshold_u8 d
                                        (int_of (confirm_threshold match_parameters * 255)%Q)
                                        255)
                                     MORPH_ELLIPSE_3x3
                                     (erode_passes match_parameters))) 0))
             = Ok true).
  { intros g. destruct (absdiff_same g) as (d & -> & Hd). cbn [rbind]. f_equal.
    apply all_zero_count, erode_all_zero, threshold_all_zero; [|exact Hd].
    apply int_of_nonneg, Qmult_le_0_compat; [exact Hct | discriminate]. }
  destruct (String.eqb (confirm_method match_parameters) "normed-absdiff");
    apply Hany.
Qed.

(** X13.  Relaxing the second pass never loses a match: a region that is
    confirmed stays confirmed when [confirm_threshold] is raised and when
    [erode_passes] is raised, the method being the same. *)
Theorem relaxed_parameters_keep_the_match (strict relaxed : MatchParameters)
        (region : Region.t) :
  confirm_method relaxed = confirm_method strict ->
  (0 <= confirm_threshold strict)%Q ->
  (confirm_threshold strict <= confirm_threshold relaxed)%Q ->
  (erode_passes strict <= erode_passes relaxed)%nat ->
  _confirm_match image template strict region = Ok true ->
  _confirm_match image template relaxed region = Ok true.
Proof.
  intros Hmethod Hct Hle Hpasses. unfold _confirm_match. rewrite Hmethod.
  destruct (String.eqb (confirm_method strict) "none"); [reflexivity|].
  destruct (region_slice image region) as [roi|e]; [|discriminate].
  cbn [rbind].
  assert (Hany : forall r : result (array2 Z),
             rbind r (fun d =>
               Ok (Nat.eqb (countNonZero
                              (erode (threshold_u8 d
                                        (int_of (confirm_threshold strict * 255)%Q) 255)
                                     MORPH_ELLIPSE_3x3 (erode_passes strict))) 0))
             = Ok true ->
             rbind r (fun d =>
               Ok (Nat.eqb (countNonZero
                              (erode (threshold_u8 d
                                        (int_of (confirm_threshold relaxed * 255)%Q) 255)
                                     MORPH_ELLIPSE_3x3 (erode_passes relaxed))) 0))
             = Ok true).
  { intros [d|e]; [|discriminate]. cbn [rbind]. intros [= H]. f_equal.
    apply all_zero_count in H. apply all_zero_count.
    replace (erode_passes relaxed)
      with ((erode_passes relaxed - erode_passes strict) + erode_passes strict)%nat
      by lia.
    unfold erode. rewrite Nat.iter_add.
    apply (erode_all_zero (erode_passes relaxed - erode_passes strict)).
    eapply below_all_zero; [|exact H].
    apply erode_below, threshold_below, int_of_mono.
    - apply Qmult_le_0_compat; [exact Hct | discriminate].
    - apply Qmult_le_compat_r; [exact Hle | discriminate]. }
  destruct (String.eqb (confirm_method strict) "normed-absdiff"); apply Hany.
Qed.

End WhatIsConfirmed.

(* ===================================================================== *)
(** ** Waiting for a match *)
(* ===================================================================== *)

Lemma Coord_eqb_eq a b : Coord_eqb a b = true <-> a = b.
Proof.
  destruct a, b; cbn; try (split; [discriminate | congruence]);
    try (split; reflexivity).
  rewrite Z.eqb_eq. split; congruence.
Qed.

Lemma position_eqb_eq p q : position_eqb p q = true <-> p = q.
Proof.
  destruct p as [a b], q as [c d]. unfold position_eqb. cbn [fst snd].
  rewrite andb_true_iff, !Coord_eqb_eq. split; [intros [-> ->] | intros [= -> ->]];
    auto.
Qed.

Section WaitForMatchProperties.

Variable G : Type.
Variable results : G -> gen_step MatchResult G.
Variable friendly_name : string.
Variable timeout_secs : option Q.
Variable consecutive_matches : Z.

Local Abbreviation loop :=
  (wait_for_match_loop G results friendly_name timeout_secs consecutive_matches).

Hypothesis at_least_one : 1 <= consecutive_matches.

(** The loop with [match_count] matches in a row behind it. *)
Lemma wait_for_match_loop_returns fuel : forall s seen match_count last_pos res r,
    0 <= match_count < consecutive_matches ->
    (Z.to_nat match_count <= length seen)%nat ->
    Forall (fun y => match_ y = true /\ position y = last_pos)
           (drop (length seen - Z.to_nat match_count) seen) ->
    loop fuel s match_count last_pos res = Returned r ->
    exists more,
      run results (length more) s = (more, Suspended)
      /\ (length more <= fuel)%nat
      /\ List.last (seen ++ more) r = r
      /\ more <> []
      /\ (Z.to_nat consecutive_matches <= length (seen ++ more))%nat
      /\ Forall (same_place r)
                (drop (length (seen ++ more) - Z.to_nat consecutive_matches)
                      (seen ++ more)).
Proof.
  induction fuel as [|fuel IH]; intros s seen m last_pos res r Hm Hlen Htail;
    [discriminate|].
  cbn [wait_for_match_loop].
  destruct (results s) as [y s'| |e] eqn:Hs; [|destruct res; discriminate|discriminate].
  set (m' := if match_ y && ((m =? 0) || position_eqb (position y) last_pos)
             then m + 1 else 0).
  assert (Hm' : 0 <= m' <= consecutive_matches) by (subst m'; destruct (_ && _); lia).
  assert (Hlen' : (Z.to_nat m' <= length (seen ++ [y]))%nat).
  { rewrite length_app. cbn [length]. subst m'. destruct (_ && _); lia. }
  assert (Htail' : Forall (fun z => match_ z = true /\ position z = position y)
                          (drop (length (seen ++ [y]) - Z.to_nat m') (seen ++ [y]))).
  { subst m'. destruct (match_ y) eqn:Hy; cbn [andb].
    - destruct (Z.eqb_spec m 0) as [->|Hm0]; cbn [orb].
      + rewrite length_app. cbn [length].
        replace (length seen + 1 - Z.to_nat (0 + 1))%nat with (length seen) by lia.
        rewrite drop_app_length. repeat constructor. exact Hy.
      + destruct (position_eqb (position y) last_pos) eqn:Hp.
        * apply position_eqb_eq in Hp. rewrite length_app. cbn [length].
          replace (length seen + 1 - Z.to_nat (m + 1))%nat
            with (length seen - Z.to_nat m)%nat by lia.
          rewrite drop_app_le by lia. apply Forall_app. split.
          -- eapply Forall_impl; [exact Htail|]. intros z [Hz Hpz].
             split; [exact Hz | congruence].
          -- repeat constructor. exact Hy.
        * rewrite Nat.sub_0_r, drop_all. constructor.
    - rewrite Nat.sub_0_r, drop_all. constructor. }
  destruct (Z.eqb_spec m' consecutive_matches) as [Heq|Hne].
  - intros [= <-]. exists [y]. cbn [run length]. rewrite Hs. cbn [run].
    split; [reflexivity|]. split; [lia|].
    split; [apply last_last|]. split; [discriminate|].
    rewrite <- Heq. split; [exact Hlen'|].
    eapply Forall_impl; [exact Htail'|]. intros z [Hz Hpz].
    split; [exact Hz|]. apply position_eqb_eq. exact Hpz.
  - intros Hret.
    destruct (IH s' (seen ++ [y]) m' (position y) (Some y) r) as
        (more & Hrun & Hfuel & Hlast & _ & Hlong & Hall);
      [lia | exact Hlen' | exact Htail' | exact Hret |].
    exists (y :: more). cbn [run length]. rewrite Hs, Hrun.
    split; [reflexivity|]. split; [lia|].
    replace (seen ++ y :: more) with ((seen ++ [y]) ++ more)
      by (rewrite <- app_assoc; reflexivity).
    split; [exact Hlast|]. split; [discriminate|]. split; assumption.
Qed.

(** X14.  For [consecutive_matches >= 1], a result that [wait_for_match]
    returns is the last of the results that the generator has yielded so
    far, and it ends a run of [consecutive_matches] results that are
    matches at one position. *)
Theorem wait_for_match_returns_a_run (fuel : nat) (start : G) (r : MatchResult) :
  loop fuel start 0 (Fin 0, Fin 0) None = Returned r ->
  exists seen,
    run results (length seen) start = (seen, Suspended)
    /\ (length seen <= fuel)%nat
    /\ List.last seen r = r
    /\ (Z.to_nat consecutive_matches <= length seen)%nat
    /\ Forall (same_place r)
              (drop (length seen - Z.to_nat consecutive_matches) seen).
Proof.
  intros Hret.
  destruct (wait_for_match_loop_returns fuel start [] 0 (Fin 0, Fin 0) None r)
    as (more & Hrun & Hfuel & Hlast & _ & Hlong & Hall);
    [lia | cbn; lia | constructor | exact Hret |].
  exists more. auto.
Qed.

Lemma wait_for_match_loop_times_out fuel : forall s ys match_count last_pos res matches,
    run results fuel s = (ys, Finished) ->
    0 <= match_count <= Z.of_nat matches ->
    Z.of_nat (matches + length (filter (fun y => match_ y = true) ys))
    < consecutive_matches ->
    loop fuel s match_count last_pos res
    = match List.last (map Some ys) res with
      | Some r => Threw (MatchTimeout (frame r) friendly_name timeout_secs)
      | None =>
          Threw (Exn (NameError "local variable 'res' referenced before assignment"))
      end.
Proof.
  clear at_least_one.
  induction fuel as [|fuel IH]; intros s ys m last_pos res matches Hrun Hm Hfew;
    [discriminate|].
  cbn [run] in Hrun. cbn [wait_for_match_loop].
  destruct (results s) as [y s'| |e] eqn:Hs.
  - destruct (run results fuel s') as [ys' e'] eqn:Hrun'.
    injection Hrun as <- ->.
    set (m' := if match_ y && ((m =? 0) || position_eqb (position y) last_pos)
               then m + 1 else 0).
    destruct (match_ y) eqn:Hy.
    + rewrite filter_cons_True in Hfew by exact Hy. cbn [length] in Hfew.
      assert (Hm' : 0 <= m' <= Z.of_nat (S matches))
        by (subst m'; cbn [andb]; destruct (_ || _); lia).
      destruct (Z.eqb_spec m' consecutive_matches) as [Heq|_]; [lia|].
      rewrite (IH s' ys' m' (position y) (Some y) (S matches) Hrun' Hm')
        by (rewrite Nat.add_succ_l, <- Nat.add_succ_r; exact Hfew).
      cbn [map]. rewrite last_cons. reflexivity.
    + rewrite filter_cons_False in Hfew by congruence.
      assert (Hm' : m' = 0) by (subst m'; reflexivity).
      destruct (Z.eqb_spec m' consecutive_matches) as [Heq|_]; [lia|].
      rewrite (IH s' ys' m' (position y) (Some y) matches Hrun') by lia.
      cbn [map]. rewrite last_cons. reflexivity.
  - injection Hrun as <-. reflexivity.
  - discriminate.
Qed.

(** X15.  When the generator has returned after fewer than
    [consecutive_matches] matches, [wait_for_match] raises [MatchTimeout]
    with the frame of the last result as screenshot; a generator without
    results makes it raise the [NameError] of [res]. *)
Theorem wait_for_match_times_out (fuel : nat) (start : G) (ys : list MatchResult) :
  run results fuel start = (ys, Finished) ->
  Z.of_nat (length (filter (fun y => match_ y = true) ys)) < consecutive_matches ->
  loop fuel start 0 (Fin 0, Fin 0) None
  = match List.last (map Some ys) None with
    | Some r => Threw (MatchTimeout (frame r) friendly_name timeout_secs)
    | None =>
        Threw (Exn (NameError "local variable 'res' referenced before assignment"))
    end.
Proof.
  clear at_least_one. intros Hrun Hfew.
  apply (wait_for_match_loop_times_out fuel start ys 0 (Fin 0, Fin 0) None 0 Hrun);
    [lia | exact Hfew].
Qed.

End WaitForMatchProperties.

Section FramesProperties.

Variable World : Type.
Variable time_time : World -> Q * World.
Variable display_get_frame : Q -> option Q -> World -> result (Frame * World).
Variable _use_old_threading_behaviour : bool.

Local Abbreviation next_frame :=
  (frames World time_time display_get_frame _use_old_threading_behaviour).

(** After the first frame, [frames] goes on with the [end_time] it has
    computed. *)
Lemma frames_on_time timeout_secs fuel : forall end_time timestamp last_grabbed w ys e,
    run (next_frame timeout_secs) fuel
        (mkFramesGen (FramesAtYield end_time timestamp) last_grabbed w)
    = (ys, e) ->
    (forall t et, timeout_secs = Some t -> end_time = Some et ->
                  Forall (fun f => later_than (time f) et = false) ys)
    /\ (timeout_secs = None -> e <> Finished).
Proof.
  induction fuel as [|fuel IH]; intros end_time timestamp last_grabbed w ys e.
  - intros [= <- <-]. split; [constructor | discriminate].
  - cbn [run]. unfold frames at 1. cbn [frames_pc _last_grabbed_frame_time world].
    unfold frames_round.
    destruct (time_time w) as [t1 w1].
    destruct (display_get_frame _ _ w1) as [[frame w2]|err];
      [|intros [= <- <-]; split; [constructor | discriminate]].
    destruct (time_time w2) as [t2 w3]. cbn [negb andb].
    destruct timeout_secs as [t|] eqn:Ht.
    + destruct end_time as [et|].
      * destruct (later_than (time frame) et) eqn:Hlate.
        -- intros [= <- <-]. split; [constructor | discriminate].
        -- destruct (run _ fuel _) as [ys' e'] eqn:Hrun. intros [= <- <-].
           destruct (IH _ _ _ _ _ _ Hrun) as [Hall _].
           split; [|discriminate].
           intros t' et' _ [= <-]. constructor; [exact Hlate|].
           exact (Hall t et eq_refl eq_refl).
      * destruct (run _ fuel _) as [ys' e'] eqn:Hrun. intros [= <- <-].
        split; [discriminate | discriminate].
    + destruct (run _ fuel _) as [ys' e'] eqn:Hrun. intros [= <- <-].
      destruct (IH _ _ _ _ _ _ Hrun) as [_ Hnever].
      split; [discriminate|]. intros _. exact (Hnever eq_refl).
Qed.

(** X16.  [frames] always yields the first frame that the display
    delivers, whatever its timestamp is; every frame that it yields after
    that has a timestamp that is not after [end_time], the clock at the
    call plus [timeout_secs]; and with [timeout_secs=None] it never
    returns. *)
Theorem frames_yields_first_then_on_time (timeout_secs : option Q) (fuel : nat)
        (last_grabbed : option Q) (w : World) (ys : list Frame) (e : ending) :
  run (next_frame timeout_secs) fuel (mkFramesGen FramesStart last_grabbed w) = (ys, e) ->
  (e = Finished -> ys <> [])
  /\ (forall t, timeout_secs = Some t ->
                Forall (fun f => later_than (time f) ((time_time w).1 + t)%Q = false)
                       (tail ys))
  /\ (timeout_secs = None -> e <> Finished).
Proof.
  destruct fuel as [|fuel];
    [intros [= <- <-]; split; [discriminate|]; split; [constructor | discriminate]|].
  cbn [run]. unfold frames at 1. cbn [frames_pc _last_grabbed_frame_time world].
  destruct timeout_secs as [t|].
  - destruct (time_time w) as [now w0] eqn:Hnow. unfold frames_round.
    destruct (time_time w0) as [t1 w1].
    destruct (display_get_frame _ _ w1) as [[frame w2]|err];
      [|intros [= <- <-]; split; [discriminate|]; split; [constructor | discriminate]].
    destruct (time_time w2) as [t2 w3]. cbn [negb andb].
    destruct (run _ fuel _) as [ys' e'] eqn:Hrun. intros [= <- <-].
    destruct (frames_on_time _ _ _ _ _ _ _ _ Hrun) as [Hall _].
    split; [discriminate|]. split; [|discriminate].
    intros t' [= <-]. cbn [tail fst]. exact (Hall t _ eq_refl eq_refl).
  - unfold frames_round.
    destruct (time_time w) as [t1 w1].
    destruct (display_get_frame _ _ w1) as [[frame w2]|err];
      [|intros [= <- <-]; split; [discriminate|]; split; [discriminate | discriminate]].
    destruct (time_time w2) as [t2 w3]. cbn [negb andb].
    destruct (run _ fuel _) as [ys' e'] eqn:Hrun. intros [= <- <-].
    destruct (frames_on_time _ _ _ _ _ _ _ _ Hrun) as [_ Hnever].
    split; [discriminate|]. split; [discriminate|]. intros _. exact (Hnever eq_refl).
Qed.

End FramesProperties.

Section PressUntilMatchProperties.

Variable World : Type.
Variable wait_for_match_on : World -> Outcome MatchResult * World.
Variable press : World -> result World.

Local Abbreviation loop := (press_until_match_loop World wait_for_match_on press).

Lemma press_until_match_loop_presses fuel max_presses : forall i w,
    0 <= i ->
    i <= (loop fuel max_presses i w).2 <= Z.max i max_presses
    /\ (forall screenshot expected timeout_secs,
           (loop fuel max_presses i w).1
           = Threw (MatchTimeout screenshot expected timeout_secs) ->
           (loop fuel max_presses i w).2 = Z.max i max_presses)
    /\ ((Z.to_nat (max_presses - i) < fuel)%nat ->
        (forall w', (wait_for_match_on w').1 <> Pending) ->
        (loop fuel max_presses i w).1 <> Pending).
Proof.
  induction fuel as [|fuel IH]; intros i w Hi; cbn [press_until_match_loop].
  - cbn [fst snd]. split; [lia|]. split; [discriminate|]. lia.
  - destruct (wait_for_match_on w) as [[r|[e|screenshot expected timeout]|] w1] eqn:Hwait.
    + cbn [fst snd]. split; [lia|]. split; [discriminate | discriminate].
    + cbn [fst snd]. split; [lia|]. split; [discriminate | discriminate].
    + destruct (Z.ltb_spec i max_presses) as [Hlt|Hge].
      * destruct (press w1) as [w2|e].
        -- destruct (IH (i + 1) w2) as (Hbound & Htimeout & Hends); [lia|].
           split; [lia|]. split.
           ++ intros s x t H. rewrite (Htimeout s x t H). lia.
           ++ intros Hfuel Hnp. apply Hends; [lia | exact Hnp].
        -- cbn [fst snd]. split; [lia|]. split; [discriminate | discriminate].
      * cbn [fst snd]. split; [lia|]. split; [intros; lia | discriminate].
    + cbn [fst snd]. split; [lia|]. split; [discriminate|].
      intros _ Hnp. specialize (Hnp w). rewrite Hwait in Hnp. exact Hnp.
Qed.

(** X17.  [press_until_match] presses the key at most [max_presses] times;
    when it raises [MatchTimeout], it has pressed the key [max_presses]
    times, or not at all for a [max_presses] that is not positive; and it
    comes back after at most [max_presses + 1] calls of [wait_for_match]
    that come back. *)
Theorem press_until_match_presses (fuel : nat) (max_presses : Z) (w : World) :
  0 <= (press_until_match World wait_for_match_on press fuel max_presses w).2
    <= Z.max 0 max_presses
  /\ (forall screenshot expected timeout_secs,
         (press_until_match World wait_for_match_on press fuel max_presses w).1
         = Threw (MatchTimeout screenshot expected timeout_secs) ->
         (press_until_match World wait_for_match_on press fuel max_presses w).2
         = Z.max 0 max_presses)
  /\ ((Z.to_nat max_presses < fuel)%nat ->
      (forall w', (wait_for_match_on w').1 <> Pending) ->
      (press_until_match World wait_for_match_on press fuel max_presses w).1
      <> Pending).
Proof.
  unfold press_until_match.
  destruct (press_until_match_loop_presses fuel max_presses 0 w) as (H1 & H2 & H3);
    [lia|].
  split; [exact H1|]. split; [exact H2|].
  intros Hfuel. apply H3. rewrite Z.sub_0_r. exact Hfuel.
Qed.

End PressUntilMatchProperties.

Section MatchProperties.

Context {cv : Cv2}.
Variable pyramid_levels : Z.
Variable _image_region : Frame -> Region.t.
Variable crop : Frame -> option Region.t -> result ndarray.
Variable template : ndarray.
Variable the_frame : result Frame.
Variable match_parameters : MatchParameters.
Variable search_region : option Region.t.

(** X18.  [match] returns the first result of [match_all] when there is
    one; when [match_all] yields nothing, [match] returns a result that is
    not a match; and [match] raises exactly when [match_all] raises before
    its first result.  It never raises [StopIteration]. *)
Theorem match_is_the_first_of_match_all (any_matches : bool) :
  match match_all pyramid_levels _image_region crop template the_frame
                  match_parameters search_region (any_matches, MatchAllStart) with
  | Yielded r _ =>
      match_once pyramid_levels _image_region crop template the_frame
                 match_parameters search_region = Ok r
      /\ match_ r = true
  | Stopped =>
      exists r,
        match_once pyramid_levels _image_region crop template the_frame
                   match_parameters search_region = Ok r
        /\ match_ r = false
  | Raised e =>
      match_once pyramid_levels _image_region crop template the_frame
                 match_parameters search_region = Raise e
  end.
Proof.
  unfold match_all, match_once.
  destruct (_match_all _ _ _ _ _ _ _ MatchAllStart) as [r g| |e] eqn:H.
  - destruct (match_ r) eqn:Hr; [auto | eauto].
  - exfalso. unfold _match_all in H.
    destruct the_frame as [fr|]; [|discriminate].
    destruct (crop fr _) as [c|]; [|discriminate].
    assert (Hns : _find_matches pyramid_levels c template match_parameters FindStart
                  <> Stopped).
    { cbn [_find_matches].
      destruct (_ || _); [discriminate|]. destruct (_ || _); [discriminate|].
      destruct (negb _); [discriminate|]. apply round_never_stops_at_start. }
    destruct (Region.intersect _ _).
    + unfold match_all_round in H.
      destruct (_find_matches _ _ _ _ FindStart) as [f g'| |e];
        [|contradiction|discriminate].
      destruct (located _ _); discriminate.
    + destruct (_find_matches _ _ _ _ FindStart) as [f g'| |e];
        [discriminate|contradiction|discriminate].
  - reflexivity.
Qed.

End MatchProperties.

(* ===================================================================== *)
(** ** [wait_until] *)
(* ===================================================================== *)

Section WaitUntilProperties.

Variables V P : Type.
Variable truthy : V -> bool.
Variable None_V : V.
Variable predicate : V -> result P.
Variable truthy_P : P -> bool.
Variable None_P : P.
Variable ne_P : P -> P -> bool.

Local Abbreviation loop :=
  (wait_until_loop V P truthy None_V predicate truthy_P ne_P).
Local Abbreviation value_of := (predicate_value_of V P predicate).

Ltac step_round :=
  repeat match goal with
         | |- context [match predicate ?v with _ => _ end] =>
             destruct (predicate v) as [?p|?e] eqn:?Hp
         | |- context [if negb (Qeq_bool ?s 0) then _ else _] =>
             destruct (Qeq_bool s 0) eqn:?Hs; cbn [negb]
         | |- context [if truthy_P ?p then _ else _] =>
             destruct (truthy_P p) eqn:?Ht
         | |- context [match (if ne_P ?p ?q then _ else _) with _ => _ end] =>
             destruct (ne_P p q) eqn:?Hne
         | |- context [match ?since with Some _ => _ | None => _ end] =>
             is_var since; destruct since
         | |- context [if Qle_bool ?a ?b then _ else _] =>
             destruct (Qle_bool a b) eqn:?Hle
         end.

Lemma wait_until_loop_ends_at_expiry calls expiry_time stable_secs :
  forall k t r stable_value stable_predicate_value stable_since,
    calls !! k = Some (t, r) ->
    Qle_bool expiry_time t = true ->
    loop calls expiry_time stable_secs stable_value stable_predicate_value stable_since
    = loop (take (S k) calls) expiry_time stable_secs
           stable_value stable_predicate_value stable_since
    /\ loop calls expiry_time stable_secs stable_value stable_predicate_value
            stable_since
       <> Pending.
Proof.
  induction calls as [|[t0 r0] calls IH]; intros k t r sv spv since Hk Hexp;
    [discriminate Hk|].
  destruct k as [|k].
  - injection Hk as -> ->. cbn [take wait_until_loop].
    destruct r as [value|e]; [|split; [reflexivity | discriminate]].
    step_round; try (split; [reflexivity | discriminate]); congruence.
  - cbn in Hk. cbn [take wait_until_loop].
    destruct r0 as [value|e]; [|split; [reflexivity | discriminate]].
    step_round; try (split; [reflexivity | discriminate]);
      exact (IH k t r _ _ _ Hk Hexp).
Qed.

(** X19.  [wait_until] comes back in the round in which the clock has
    reached the expiry time, if not before: the rounds after that one are
    never run. *)
Theorem wait_until_ends_at_expiry (now timeout_secs stable_secs : Q)
        (calls : list (Q * result V)) (k : nat) (t : Q) (r : result V) :
  calls !! k = Some (t, r) ->
  Qle_bool (now + timeout_secs) t = true ->
  wait_until V P truthy None_V predicate truthy_P None_P ne_P
             now timeout_secs stable_secs calls
  = wait_until V P truthy None_V predicate truthy_P None_P ne_P
               now timeout_secs stable_secs (take (S k) calls)
  /\ wait_until V P truthy None_V predicate truthy_P None_P ne_P
                now timeout_secs stable_secs calls
     <> Pending.
Proof. intros Hk Hexp. exact (wait_until_loop_ends_at_expiry _ _ _ _ _ _ _ _ _ Hk Hexp). Qed.

(** X20.  Without [stable_secs], [wait_until] returns the first value of
    [callable_] that [predicate] accepts, when the rounds before it are
    rounds before the expiry time in which [callable_] returns a value that
    [predicate] does not accept. *)
Theorem wait_until_returns_the_first_success (now timeout_secs stable_secs : Q)
        (before after : list (Q * result V)) (t : Q) (v : V) (p : P) :
  Qeq_bool stable_secs 0 = true ->
  Forall (rejected V P predicate truthy_P (now + timeout_secs)) before ->
  predicate v = Ok p -> truthy_P p = true ->
  wait_until V P truthy None_V predicate truthy_P None_P ne_P
             now timeout_secs stable_secs (before ++ (t, Ok v) :: after)
  = Returned v.
Proof.
  intros Hstable Hbefore Hp Ht. unfold wait_until.
  generalize None_V as sv, None_P as spv, (@None Q) as since.
  induction Hbefore as [|[t0 r0] before [(p0 & Hp0 & Ht0) Hle0] _ IH];
    intros sv spv since; cbn [app wait_until_loop].
  - rewrite Hp, Hstable, Ht. reflexivity.
  - unfold predicate_value_of in Hp0. cbn [fst snd] in Hp0, Hle0.
    destruct r0 as [v0|e0]; [|discriminate Hp0].
    destruct (predicate v0) as [q|e0]; [|discriminate Hp0].
    injection Hp0 as ->. rewrite Hstable, Ht0, Hle0. cbn [negb]. apply IH.
Qed.

Section Stable.

Variable calls : list (Q * result V).
Variables expiry_time stable_secs : Q.

(** A value that equals [None] is not true. *)
Hypothesis none_is_false : forall p, ne_P p None_P = false -> truthy_P p = false.

Local Abbreviation stable_state :=
  (stable_state V P None_V predicate None_P ne_P calls).

Lemma wait_until_loop_stable rest : forall n sv spv since,
    calls = take n calls ++ rest ->
    n = length (take n calls) ->
    stable_state n sv spv since ->
    Qeq_bool stable_secs 0 = false ->
    match loop rest expiry_time stable_secs sv spv since with
    | Returned v =>
        (exists i j, stable_from V P predicate truthy_P ne_P stable_secs calls i j v)
        \/ (exists j tj vj,
               calls !! j = Some (tj, Ok vj)
               /\ Qle_bool expiry_time tj = true
               /\ v = if negb (truthy vj) then vj else None_V)
    | Threw (Exn e) =>
        exists j tj,
          calls !! j = Some (tj, Raise e)
          \/ exists vj, calls !! j = Some (tj, Ok vj) /\ predicate vj = Raise e
    | Threw (MatchTimeout _ _ _) => False
    | Pending => True
    end.
Proof.
  induction rest as [|[t r] rest IH]; intros n sv spv since Hsplit Hn Hstate Hstable;
    [exact I|].
  assert (Hcur : calls !! n = Some (t, r)).
  { rewrite Hsplit at 1. rewrite lookup_app_r by lia.
    replace (n - length (take n calls))%nat with 0%nat by lia. reflexivity. }
  assert (Hnext : calls = take (S n) calls ++ rest
                  /\ S n = length (take (S n) calls)).
  { rewrite (take_S_r _ _ _ Hcur). rewrite <- app_assoc. cbn [app].
    split; [exact Hsplit|]. rewrite length_app. cbn [length]. lia. }
  destruct Hnext as [Hsplit' Hn'].
  cbn [wait_until_loop].
  destruct r as [value|e]; [|exists n, t; left; exact Hcur].
  destruct (predicate value) as [pv|e] eqn:Hpv;
    [|exists n, t; right; exists value; auto].
  rewrite Hstable. cbn [negb].
  assert (Hvalue : value_of (t, Ok value) = Some pv)
    by (unfold predicate_value_of; cbn [snd]; rewrite Hpv; reflexivity).
  destruct (ne_P pv spv) eqn:Hne.
  - (* the predicate value has changed: the run starts here *)
    assert (Hstate' : stable_state (S n) value pv (Some t)).
    { right. exists n, t. split; [lia|]. split; [reflexivity|].
      split; [exact Hcur|]. split; [exact Hpv|]. intros k c Hk. lia. }
    destruct (truthy_P pv) eqn:Ht.
    + destruct (Qle_bool stable_secs (t - t)) eqn:Hlong.
      * left. exists n, n. split; [lia|]. exists t, t, pv, pv.
        split; [exact Hcur|]. split; [exact Hpv|].
        split; [exists (t, Ok value); auto|]. split; [exact Ht|].
        split; [exact Hlong|]. intros k c Hk. lia.
      * destruct (Qle_bool expiry_time t) eqn:Hexp; [right; eauto 10|].
        exact (IH (S n) value pv (Some t) Hsplit' Hn' Hstate' Hstable).
    + destruct (Qle_bool expiry_time t) eqn:Hexp; [right; eauto 10|].
      exact (IH (S n) value pv (Some t) Hsplit' Hn' Hstate' Hstable).
  - (* the predicate value is the one of the run *)
    assert (Hstate' : stable_state (S n) sv spv since).
    { destruct Hstate as [(-> & -> & ->)|(i & ti & Hi & -> & Hci & Hpi & Hrun)];
        [left; auto|].
      right. exists i, ti. split; [lia|]. split; [reflexivity|].
      split; [exact Hci|]. split; [exact Hpi|]. intros k c Hk Hc.
      destruct (Nat.eq_dec k n) as [->|Hkn].
      - rewrite Hcur in Hc. injection Hc as <-. eauto.
      - apply (Hrun k c); [lia | exact Hc]. }
    destruct (truthy_P pv) eqn:Ht.
    + destruct Hstate as [(-> & -> & ->)|(i & ti & Hi & -> & Hci & Hpi & Hrun)].
      * rewrite (none_is_false pv Hne) in Ht. discriminate Ht.
      * destruct (Qle_bool stable_secs (t - ti)) eqn:Hlong.
        -- left. exists i, n. split; [lia|]. exists ti, t, spv, pv.
           split; [exact Hci|]. split; [exact Hpi|].
           split; [exists (t, Ok value); auto|]. split; [exact Ht|].
           split; [exact Hlong|]. intros k c Hk Hc.
           destruct (Nat.eq_dec k n) as [->|Hkn].
           ++ rewrite Hcur in Hc. injection Hc as <-. eauto.
           ++ apply (Hrun k c); [lia | exact Hc].
        -- destruct (Qle_bool expiry_time t) eqn:Hexp; [right; eauto 10|].
           exact (IH (S n) sv spv (Some ti) Hsplit' Hn' Hstate' Hstable).
    + destruct (Qle_bool expiry_time t) eqn:Hexp; [right; eauto 10|].
      exact (IH (S n) sv spv since Hsplit' Hn' Hstate' Hstable).
Qed.

End Stable.

(** X21.  With [stable_secs], where a predicate value that equals [None]
    is not true: [wait_until] never finds [stable_since] unbound, the
    exceptions it raises are the ones of [callable_] and of [predicate]; and
    a value that it returns is the value of a round since which the
    predicate value has not changed for [stable_secs], the last one being
    true, or it is what the round in which the time was up gives, the value
    when it is false and [None] when it is true. *)
Theorem wait_until_returns_a_stable_value (now timeout_secs stable_secs : Q)
        (calls : list (Q * result V)) :
  (forall p, ne_P p None_P = false -> truthy_P p = false) ->
  Qeq_bool stable_secs 0 = false ->
  match wait_until V P truthy None_V predicate truthy_P None_P ne_P
                   now timeout_secs stable_secs calls with
  | Returned v =>
      (exists i j, stable_from V P predicate truthy_P ne_P stable_secs calls i j v)
      \/ (exists j tj vj,
             calls !! j = Some (tj, Ok vj)
             /\ Qle_bool (now + timeout_secs) tj = true
             /\ v = if negb (truthy vj) then vj else None_V)
  | Threw (Exn e) =>
      exists j tj,
        calls !! j = Some (tj, Raise e)
        \/ exists vj, calls !! j = Some (tj, Ok vj) /\ predicate vj = Raise e
  | Threw (MatchTimeout _ _ _) => False
  | Pending => True
  end.
Proof.
  intros Hnone Hstable. unfold wait_until.
  apply (wait_until_loop_stable calls (now + timeout_secs) stable_secs Hnone calls 0);
    [reflexivity | reflexivity | left; auto | exact Hstable].
Qed.

End WaitUntilProperties.

(* ===================================================================== *)
(** ** [is_screen_black] *)
(* ===================================================================== *)

Lemma fold_max_le (vs : list Z) : forall v t,
    fold_left Z.max vs v <= t <-> v <= t /\ Forall (fun u => u <= t) vs.
Proof.
  induction vs as [|u vs IH]; intros v t; cbn [fold_left].
  - split; [intros H; split; [exact H | constructor] | tauto].
  - rewrite IH, Forall_cons. pose proof (Z.max_lub_iff v u t). tauto.
Qed.

(** X22.  [is_screen_black] says black iff no grey value of the region is
    above the threshold, where the mask has been applied to the grey values
    with a bitwise AND; it returns the frame it looked at, and it raises
    when the region has no pixel. *)
Theorem is_screen_black_iff {cv : Cv2} (_image_region : Frame -> Region.t)
        (crop : Frame -> option Region.t -> result ndarray)
        (frame : Frame) (mask : option (array2 Z)) (threshold : Z)
        (region : option Region.t) (greyframe : array2 Z) :
  masked_grey _image_region crop frame mask region = Ok greyframe ->
  match is_screen_black _image_region crop (Ok frame) mask threshold region with
  | Ok r =>
      black_frame r = frame
      /\ concat greyframe <> []
      /\ (black r = true <-> Forall (Forall (fun v => v <= threshold)) greyframe)
  | Raise e => concat greyframe = []
  end.
Proof.
  intros Hgrey. unfold is_screen_black. cbn [rbind]. rewrite Hgrey. cbn [rbind].
  unfold array_max. destruct (concat greyframe) as [|v vs] eqn:Hc; [reflexivity|].
  cbn [rbind black black_frame]. split; [reflexivity|]. split; [discriminate|].
  rewrite Z.leb_le, fold_max_le, <- Forall_concat, Hc, Forall_cons. reflexivity.
Qed.

(* ===================================================================== *)
(** ** The annotations of the sink pipeline *)
(* ===================================================================== *)

Lemma Coord_eqb_refl a : Coord_eqb a a = true.
Proof. apply Coord_eqb_eq. reflexivity. Qed.

Lemma _Annotation_eqb_refl a : _Annotation_eqb a a = true.
Proof.
  unfold _Annotation_eqb. rewrite String.eqb_refl, bool_decide_eq_true_2 by reflexivity.
  rewrite !andb_true_r. apply andb_true_iff. split.
  - destruct (annotation_time a) as [t|]; [|reflexivity]. cbn.
    apply Qeq_bool_iff. reflexivity.
  - destruct (annotation_region a) as [r|]; [|reflexivity]. cbn.
    rewrite !Coord_eqb_refl. reflexivity.
Qed.

Lemma _Annotation_eqb_due now a x :
  _Annotation_eqb a x = true -> is_due now a = is_due now x.
Proof.
  unfold _Annotation_eqb, is_due. rewrite !andb_true_iff. intros [[[Ht _] _] _].
  destruct (annotation_time a) as [u|], (annotation_time x) as [v|];
    cbn in Ht; try discriminate; [|reflexivity].
  apply Qeq_bool_iff in Ht.
  destruct (Qle_bool u now) eqn:Hu, (Qle_bool v now) eqn:Hv; try reflexivity.
  - apply Qle_bool_iff in Hu. rewrite Ht in Hu. apply Qle_bool_iff in Hu. congruence.
  - apply Qle_bool_iff in Hv. rewrite <- Ht in Hv. apply Qle_bool_iff in Hv. congruence.
Qed.

Lemma list_remove_after now x (kept rest : list _Annotation) :
  Forall (fun a => is_due now a = false) kept ->
  is_due now x = true ->
  list_remove x (kept ++ x :: rest) = Ok (kept ++ rest).
Proof.
  intros Hkept Hx. induction Hkept as [|a kept Ha _ IH]; cbn [app list_remove].
  - rewrite _Annotation_eqb_refl. reflexivity.
  - destruct (_Annotation_eqb a x) eqn:E.
    + apply (_Annotation_eqb_due now) in E. congruence.
    + rewrite IH. reflexivity.
Qed.

Lemma sort_annotations_filter now copy : forall to_draw kept,
    Forall (fun a => is_due now a = false) kept ->
    sort_annotations now copy to_draw (kept ++ copy)
    = Ok (to_draw ++ filter (fun a => is_now now a = true) copy,
          kept ++ filter (fun a => is_due now a = false) copy).
Proof.
  induction copy as [|a copy IH]; intros to_draw kept Hkept; cbn [sort_annotations].
  - rewrite !app_nil_r. reflexivity.
  - destruct (is_due now a) eqn:Hdue.
    + rewrite (list_remove_after now a kept copy Hkept Hdue). cbn [rbind].
      rewrite IH by exact Hkept. rewrite (filter_cons_False (fun a0 => is_due now a0 = false) a)
        by (cbv beta; congruence).
      destruct (is_now now a) eqn:Hnow.
      * rewrite filter_cons_True by (cbv beta; exact Hnow). rewrite <- app_assoc. reflexivity.
      * rewrite filter_cons_False by (cbv beta; congruence). reflexivity.
    + cbn [rbind].
      replace (kept ++ a :: copy) with ((kept ++ [a]) ++ copy)
        by (rewrite <- app_assoc; reflexivity).
      rewrite IH by (apply Forall_app; split; [exact Hkept | repeat constructor; exact Hdue]).
      rewrite (filter_cons_True (fun a0 => is_due now a0 = false) a)
        by (cbv beta; exact Hdue). rewrite <- app_assoc. cbn [app].
      destruct (is_now now a) eqn:Hnow.
      * exfalso. unfold is_now, is_due in *.
        destruct (annotation_time a) as [t|]; [|discriminate].
        apply Qeq_bool_iff in Hnow.
        assert (Hle : Qle_bool t now = true)
          by (apply Qle_bool_iff; rewrite Hnow; apply Qle_refl).
        congruence.
      * rewrite filter_cons_False by (cbv beta; congruence). reflexivity.
Qed.

Lemma unexpired_raises now l e :
  unexpired now l = Raise e -> exists x, In x l /\ duration x = None.
Proof.
  induction l as [|x l IH]; cbn [unexpired]; [discriminate|].
  unfold end_time at 1. destruct (duration x) as [d|] eqn:Hd;
    [|intros _; exists x; split; [left; reflexivity | exact Hd]].
  cbn [rbind]. destruct (unexpired now l) as [rest|e'] eqn:Hl; [discriminate|].
  cbn [rbind]. intros He. destruct (IH He) as (y & Hy & Hnone).
  exists y. split; [right; exact Hy | exact Hnone].
Qed.

Lemma push_sample_spec (s : SinkPipeline) (sample : Sample) :
  match _push_sample s sample with
  | Ok s' =>
      annotations s'
      = filter (fun a => is_due (sample_time sample) a = false) (annotations s)
      /\ (exists texts,
             appsrc s'
             = appsrc s
               ++ [mkPushed sample texts
                            (filter (fun a => is_now (sample_time sample) a = true)
                                    (annotations s))])
      /\ _sample_count s' = S (_sample_count s)
      /\ _frames s' = _frames s
  | Raise e => exists x, In x (text_annotations s) /\ duration x = None
  end.
Proof.
  unfold _push_sample.
  destruct (unexpired (sample_time sample) (text_annotations s)) as [texts|e] eqn:Ht;
    [|exact (unexpired_raises _ _ _ Ht)].
  cbn [rbind].
  pose proof (sort_annotations_filter (sample_time sample) (annotations s) [] []
                (Forall_nil_2 _)) as Hsort.
  cbn [app] in Hsort. rewrite Hsort.
  cbn [rbind app annotations appsrc _sample_count _frames]. eauto.
Qed.

(** X23.  [_push_sample] hands the sample to the sink with the annotations
    of the very time of the sample, and keeps the annotations that are
    later than the sample, in their order: the loop that removes the others
    one by one from the list it iterates over a copy of never fails.
    Its bookkeeping raises only for a text annotation without a duration. *)
Theorem push_sample_sorts_the_annotations (s : SinkPipeline) (sample : Sample) :
  let now := sample_time sample in
  match _push_sample s sample with
  | Ok s' =>
      annotations s' = filter (fun a => is_due now a = false) (annotations s)
      /\ (exists texts,
             appsrc s'
             = appsrc s
               ++ [mkPushed sample texts
                            (filter (fun a => is_now now a = true) (annotations s))])
      /\ _sample_count s' = S (_sample_count s)
      /\ _frames s' = _frames s
  | Raise e => exists x, In x (text_annotations s) /\ duration x = None
  end.
Proof. exact (push_sample_spec s sample). Qed.

Lemma appendleft_last frames sample :
  exists older, appendleft frames sample = older ++ [sample].
Proof.
  unfold appendleft. rewrite length_app. cbn [length].
  destruct (Nat.le_gt_cases (length frames + 1 - 35) (length frames)) as [H|H]; [|lia].
  rewrite drop_app_le by exact H. eauto.
Qed.

Lemma push_old_samples_queue now frames : forall s s',
    push_old_samples now frames s = Ok s' ->
    exists pushed_now,
      map pushed_sample (appsrc s') = map pushed_sample (appsrc s) ++ pushed_now
      /\ pushed_now ++ _frames s' = frames
      /\ Forall (fun f => Qltb (now - (1 # 2)) (sample_time f) = false) pushed_now
      /\ match _frames s' with
         | oldest :: _ => Qltb (now - (1 # 2)) (sample_time oldest) = true
         | [] => True
         end
      /\ _sample_count s' = (_sample_count s + length pushed_now)%nat.
Proof.
  induction frames as [|oldest rest IH]; intros s s'; cbn [push_old_samples].
  - intros [= <-]. exists []. cbn. rewrite app_nil_r. auto.
  - destruct (Qltb (now - (1 # 2)) (sample_time oldest)) eqn:Hnew.
    + intros [= <-]. exists []. cbn. rewrite app_nil_r. auto.
    + pose proof (push_sample_spec (set_frames s rest) oldest) as Hpush.
      destruct (_push_sample (set_frames s rest) oldest) as [s1|e]; [|discriminate].
      cbn [rbind]. intros Hrest.
      destruct Hpush as (_ & (texts & Happ) & Hcount & _).
      destruct (IH s1 s' Hrest) as (pushed & Hsrc & Hsplit & Hold & Hhead & Hn).
      exists (oldest :: pushed).
      split; [rewrite Hsrc, Happ; cbn; rewrite map_app, <- app_assoc; reflexivity|].
      split; [cbn; f_equal; exact Hsplit|].
      split; [constructor; assumption|]. split; [exact Hhead|].
      rewrite Hn, Hcount. cbn. lia.
Qed.

Lemma half_a_second_ago (now : Q) : Qltb (now - (1 # 2)) now = true.
Proof.
  apply Qltb_lt. destruct now as [n d]. unfold Qlt, Qminus, Qplus, Qopp. cbn. lia.
Qed.

(** X24.  [on_sample] holds every frame back for half a second: the
    samples that it pushes are the oldest of the queue, in the order in
    which they came, and each is at least half a second older than the
    sample that has come; what stays in the queue starts with a sample that
    is less than half a second older, and the sample that has come is the
    last of it.  No sample is pushed twice, and none is lost but the one
    that a queue of 35 samples drops. *)
Theorem on_sample_holds_frames_back (s s' : SinkPipeline) (sample : Sample) :
  on_sample s sample = Ok s' ->
  exists pushed_now oldest rest,
    map pushed_sample (appsrc s') = map pushed_sample (appsrc s) ++ pushed_now
    /\ pushed_now ++ _frames s' = appendleft (_frames s) sample
    /\ Forall (fun f => (sample_time f <= sample_time sample - (1 # 2))%Q) pushed_now
    /\ _frames s' = oldest :: rest
    /\ (sample_time sample - (1 # 2) < sample_time oldest)%Q
    /\ List.last (_frames s') oldest = sample
    /\ _sample_count s' = (_sample_count s + length pushed_now)%nat.
Proof.
  unfold on_sample. intros H.
  destruct (push_old_samples_queue _ _ _ _ H)
    as (pushed & Hsrc & Hsplit & Hold & Hhead & Hn).
  destruct (appendleft_last (_frames s) sample) as (older & Holder).
  destruct (_frames s') as [|oldest rest] eqn:Hf.
  - exfalso. rewrite app_nil_r in Hsplit. rewrite Holder in Hsplit. subst pushed.
    apply Forall_app in Hold as [_ Hlast]. inversion Hlast as [|? ? Hs _]; subst.
    rewrite half_a_second_ago in Hs. discriminate Hs.
  - exists pushed, oldest, rest. split; [exact Hsrc|]. split; [exact Hsplit|].
    split.
    { eapply Forall_impl; [exact Hold|]. intros f Hf'. apply Qltb_false, Hf'. }
    split; [reflexivity|]. split; [apply Qltb_lt, Hhead|]. split; [|exact Hn].
    rewrite Holder in Hsplit.
    assert (Hlast : List.last (pushed ++ oldest :: rest) oldest
                    = List.last (older ++ [sample]) oldest) by (rewrite Hsplit; reflexivity).
    rewrite last_last in Hlast. rewrite <- Hlast.
    clear. induction pushed as [|p pushed IH]; [reflexivity|].
    cbn [app]. rewrite IH. destruct pushed; reflexivity.
Qed.

(* ===================================================================== *)
(** ** The display after a restart and after teardown *)
(* ===================================================================== *)

(** The timeouts of [g'] are timeouts of [g] or restart timeouts that
    [on_underrun] has armed. *)
Lemma handle_after_teardown event d g :
  source_pipeline d = None -> tearing_down d = true ->
  match handle event (d, g) with
  | Ok (d', g') =>
      source_pipeline d' = None /\ tearing_down d' = true
      /\ warnings g' = warnings g
      /\ (forall id t, sources g' !! id = Some t ->
                       sources g !! id = Some t \/ t = (2000, restart_source_handler))
  | Raise e => e = AttributeError "'NoneType' object has no attribute 'set_state'"
  end.
Proof.
  intros Hp Ht. destruct event as [id| |[|]]; cbn [handle].
  - cbn [fire]. destruct (sources g !! id) as [[ms h]|] eqn:Hid.
    + destruct h.
      * unfold restart_source. rewrite Hp. reflexivity.
      * unfold start_source. rewrite Ht. cbn [rbind source_remove sources warnings].
        split; [exact Hp|]. split; [exact Ht|]. split; [reflexivity|].
        intros i t Hi. left. apply lookup_delete_Some in Hi as [_ Hi]. exact Hi.
    + auto.
  - unfold on_eos_from_source_pipeline. rewrite Ht. cbn [negb]. auto.
  - unfold on_underrun. destruct (underrun_timeout d) as [u|]; [auto|].
    cbn [GObjectTimeout_start timeout_add timeout_secs handler set_underrun_timeout
         source_pipeline tearing_down sources warnings].
    split; [exact Hp|]. split; [exact Ht|]. split; [reflexivity|].
    intros i t Hi. apply lookup_insert_Some in Hi as [[_ <-]|[_ Hi]]; auto.
  - unfold on_running. destruct (underrun_timeout d) as [u|]; [|auto].
    cbn [GObjectTimeout_cancel set_underrun_timeout source_pipeline tearing_down].
    split; [exact Hp|]. split; [exact Ht|].
    destruct (timeout_id u) as [i0|]; [|auto].
    destruct (Nat.eqb i0 0); [auto|].
    cbn [source_remove sources warnings]. split; [reflexivity|].
    intros i t Hi. left. apply lookup_delete_Some in Hi as [_ Hi]. exact Hi.
Qed.

(** X25.  Teardown is final for the source pipeline.  After the first lines
    of [Display.__exit__], whatever timeouts expire, whatever the bus
    delivers and whatever the queue of the pipeline that is being shut down
    still signals: while the handlers return, the display has no source
    pipeline and is tearing down, no warning is logged, and the timeouts
    that are armed are the ones that were armed or two-second restart
    timeouts of [on_underrun]; a [start_source] that a restart has scheduled
    before does nothing when it runs.  The one exception that a handler
    raises is the [AttributeError] of [restart_source], which takes no
    notice of [tearing_down] and finds [self.source_pipeline] unset: that is
    how the timeout of an underrun that comes during teardown ends. *)
Theorem teardown_is_final (events : list Event) (d : Display) (g : MainLoop) :
  match handle_all events (Display_exit d, g) with
  | Ok (d', g') =>
      source_pipeline d' = None
      /\ tearing_down d' = true
      /\ warnings g' = warnings g
      /\ (forall id t, sources g' !! id = Some t ->
                       sources g !! id = Some t \/ t = (2000, restart_source_handler))
  | Raise e => e = AttributeError "'NoneType' object has no attribute 'set_state'"
  end
  /\ (underrun_timeout d = None ->
      handle_all [QueueEmits Underrun; TimeoutExpires (next_source_id g)]
                 (Display_exit d, g)
      = Raise (AttributeError "'NoneType' object has no attribute 'set_state'")).
Proof.
  split.
  - assert (Hgen : forall d0 g0,
               source_pipeline d0 = None -> tearing_down d0 = true ->
               match handle_all events (d0, g0) with
               | Ok (d', g') =>
                   source_pipeline d' = None /\ tearing_down d' = true
                   /\ warnings g' = warnings g0
                   /\ (forall id t, sources g' !! id = Some t ->
                                    sources g0 !! id = Some t
                                    \/ t = (2000, restart_source_handler))
               | Raise e =>
                   e = AttributeError "'NoneType' object has no attribute 'set_state'"
               end).
    { induction events as [|event events IH]; intros d0 g0 Hp Ht; cbn [handle_all].
      - auto.
      - pose proof (handle_after_teardown event d0 g0 Hp Ht) as Hev.
        destruct (handle event (d0, g0)) as [[d1 g1]|e]; cbn [rbind]; [|exact Hev].
        destruct Hev as (Hp1 & Ht1 & Hw1 & Hs1).
        specialize (IH d1 g1 Hp1 Ht1).
        destruct (handle_all events (d1, g1)) as [[d2 g2]|e]; [|exact IH].
        destruct IH as (Hp2 & Ht2 & Hw2 & Hs2).
        split; [exact Hp2|]. split; [exact Ht2|]. split; [congruence|].
        intros i t Hi. destruct (Hs2 i t Hi) as [Hi1|Hi1]; [|auto].
        exact (Hs1 i t Hi1). }
    exact (Hgen (Display_exit d) g eq_refl eq_refl).
  - intros Hu. cbn [handle_all handle rbind]. unfold on_underrun, Display_exit.
    cbn [underrun_timeout set_source_pipeline set_tearing_down]. rewrite Hu.
    cbn [GObjectTimeout_start timeout_add timeout_secs handler]. cbn [fire sources].
    rewrite lookup_insert_eq. cbn [rbind]. reflexivity.
Qed.

(** X26.  A restart after the end of the stream needs an underrun timeout:
    with [restart_source] enabled and no underrun seen before, the
    [start_source] that the end of the stream schedules raises
    [AttributeError] where it arms [self.underrun_timeout], which is
    [None]. *)
Theorem restart_after_eos_without_underrun (d : Display) (g : MainLoop) (p : Pipeline) :
  source_pipeline d = Some p ->
  tearing_down d = false ->
  restart_source_enabled d = true ->
  underrun_timeout d = None ->
  exists d1 g1,
    on_eos_from_source_pipeline (d, g) = Ok (d1, g1)
    /\ source_pipeline d1 = None
    /\ sources g1 = <[next_source_id g := (5000, start_source_handler)]> (sources g)
    /\ fire (next_source_id g) (d1, g1)
       = Raise (AttributeError "'NoneType' object has no attribute 'start'").
Proof.
  intros Hp Ht He Hu. unfold on_eos_from_source_pipeline. rewrite Ht. cbn [negb].
  unfold restart_source. rewrite Hp.
  cbn [GObjectTimeout_start timeout_add timeout_secs handler warn sources
       next_source_id].
  eexists _, _. split; [reflexivity|]. split; [reflexivity|].
  split; [reflexivity|].
  cbn [fire sources]. rewrite lookup_insert_eq.
  unfold start_source.
  cbn [tearing_down set_source_pipeline create_source_pipeline
       set_source_pipeline_playing source_pipeline rbind restart_source_enabled
       underrun_timeout underrun_connected].
  rewrite Ht. cbn [rbind source_pipeline]. rewrite He, Hu. reflexivity.
Qed.

(** X27.  A source that has been restarted is watched again: when the
    underrun timeout has expired and the [start_source] that it schedules
    has run, the pipeline is playing and the same underrun timeout is armed
    anew, so that the source is restarted again two seconds later unless the
    queue reports that it is running. *)
Theorem restarted_source_is_watched (d : Display) (g : MainLoop) (p : Pipeline) :
  source_pipeline d = Some p ->
  underrun_connected p = true ->
  tearing_down d = false ->
  restart_source_enabled d = true ->
  underrun_timeout d = None ->
  (forall i, (next_source_id g <= i)%nat -> sources g !! i = None) ->
  let id := next_source_id g in
  exists d1 g1 d2 g2,
    fire id (emit_underrun (d, g)) = Ok (d1, g1)
    /\ fire (S id) (d1, g1) = Ok (d2, g2)
    /\ source_pipeline d2 = Some (mkPipeline GST_PLAYING true)
    /\ underrun_timeout d2
       = Some (mkGObjectTimeout 2 restart_source_handler (Some (S (S id))))
    /\ sources g2 = <[S (S id) := (2000, restart_source_handler)]> (sources g)
    /\ warnings g2
       = warnings g ++ [restart_warning; "Restarting source pipeline...";
                        "Restarted source pipeline"]%string.
Proof.
  intros Hp Hc Ht He Hu Hfresh id.
  destruct d as [lf luf sp ut td rse], p as [st uc].
  cbn [source_pipeline tearing_down restart_source_enabled underrun_timeout
       underrun_connected] in Hp, Hc, Ht, He, Hu.
  subst sp uc td rse ut.
  unfold emit_underrun, on_underrun. cbn [fst source_pipeline underrun_connected
    underrun_timeout GObjectTimeout_start timeout_add timeout_secs handler
    set_underrun_timeout last_frame last_used_frame tearing_down
    restart_source_enabled].
  fold id. unfold fire at 1. cbn [sources]. rewrite lookup_insert_eq.
  unfold restart_source, warn, source_remove.
  cbn [source_pipeline set_source_pipeline GObjectTimeout_start timeout_add
       timeout_secs handler sources next_source_id warnings rbind last_frame
       last_used_frame underrun_timeout tearing_down restart_source_enabled].
  eexists _, _, _, _. split; [reflexivity|].
  unfold fire. cbn [sources].
  rewrite lookup_delete_ne by lia. rewrite lookup_insert_eq.
  unfold start_source, create_source_pipeline, set_source_pipeline_playing, warn,
    source_remove.
  cbn [tearing_down source_pipeline set_source_pipeline restart_source_enabled
       underrun_connected underrun_timeout rbind GObjectTimeout_start timeout_add
       timeout_secs handler sources next_source_id warnings set_underrun_timeout
       last_frame last_used_frame].
  split; [reflexivity|]. split; [reflexivity|]. split; [reflexivity|].
  split.
  - cbn [sources]. rewrite (delete_insert_ne _ (S id) (S (S id))) by lia.
    rewrite (delete_insert_ne _ id (S id)) by lia.
    rewrite (delete_insert_id _ id) by (apply Hfresh; lia).
    rewrite (delete_insert_id _ (S id)) by (apply Hfresh; lia). reflexivity.
  - rewrite <- !app_assoc. reflexivity.
Qed.

(* ===================================================================== *)
(** ** The properties at concrete inputs *)
(* ===================================================================== *)

Lemma load_image_ref_shape img c a :
  load_image_ref img [c] = Ok a ->
  shape a = mkShape (rows (shape img)) (cols (shape img)) c.
Proof.
  unfold load_image_ref. cbn [existsb orb].
  destruct (Nat.eqb_spec (chans (shape img)) c) as [<-|Hc]; cbn [orb].
  - intros [= <-]. destruct (shape img); reflexivity.
  - destruct (Nat.eqb (chans (shape img)) 1 && (Nat.eqb 3 c || false)) eqn:E1.
    + apply andb_true_iff in E1 as [_ E1]. rewrite orb_false_r in E1.
      apply Nat.eqb_eq in E1. subst c. intros [= <-]. reflexivity.
    + destruct (Nat.eqb (chans (shape img)) 3 && (Nat.eqb 1 c || false)) eqn:E2;
        [|discriminate].
      apply andb_true_iff in E2 as [_ E2]. rewrite orb_false_r in E2.
      apply Nat.eqb_eq in E2. subst c. intros [= <-]. reflexivity.
Qed.

Lemma mask_union_difference_invert_witness :
  let s := mkShape 1 2 1 in
  (memo_sound load_image_ref left_pixels
   /\ memo_sound load_image_ref right_pixel
   /\ _invert left_pixels = true)
  /\ (exists m, Mask_sub load_image_ref left_pixels (ArgMask right_pixel) = Ok m
                /\ (to_array load_image_ref m s).2
                   = rmap2 (fun x y => arr_and x (arr_invert y))
                       (to_array load_image_ref left_pixels s).2
                       (to_array load_image_ref right_pixel s).2)
  /\ (to_array load_image_ref left_pixels s).2
     = rmap arr_invert
         (to_array load_image_ref (set_invert (set_array left_pixels None) false) s).2.
Proof.
  cbn zeta.
  assert (Ha : memo_sound load_image_ref left_pixels)
    by (split; [discriminate | exact I]).
  assert (Hb : memo_sound load_image_ref right_pixel)
    by (split; [discriminate | exact I]).
  split; [split; [exact Ha | split; [exact Hb | reflexivity]]|].
  destruct (mask_union_difference_invert load_image_ref load_image_ref_shape
              left_pixels right_pixel (mkShape 1 2 1) Ha Hb) as (_ & Hsub & Hinv).
  split; [exact Hsub | exact (Hinv eq_refl)].
Defined.

Lemma build_pyramid_levels_witness :
  let image := solid 45 40 0 0 0 in
  let template := solid 20 20 0 0 0 in
  (Cv2Sizes cv2_ref /\ fits template image)
  /\ length (_build_pyramid image (Z.of_nat (length (_build_pyramid template 3))))
     = length (_build_pyramid template 3).
Proof.
  cbn zeta.
  assert (Hfit : fits (solid 20 20 0 0 0) (solid 45 40 0 0 0)) by (split; cbn; lia).
  split; [split; [exact cv2_ref_sizes | exact Hfit]|].
  destruct (build_pyramid_levels cv2_ref_sizes (solid 45 40 0 0 0)
              (solid 20 20 0 0 0) 3) as (_ & _ & _ & _ & H).
  exact (H Hfit).
Defined.

Lemma narrow_roi_searches_whole_image_witness :
  let m : array2 Z := [[255]] in
  (Cv2Sizes cv2_ref
   /\ ((shape_2d (pyrUp m)).1 < 3 \/ (shape_2d (pyrUp m)).2 < 3)%nat)
  /\ upsample_roi (Some m) = None.
Proof.
  cbn zeta.
  assert (H : ((shape_2d (@pyrUp cv2_ref [[255%Z]])).1 < 3
               \/ (shape_2d (@pyrUp cv2_ref [[255%Z]])).2 < 3)%nat)
    by (left; cbn; lia).
  split; [split; [exact cv2_ref_sizes | exact H]|].
  exact (proj1 (narrow_roi_searches_whole_image cv2_ref_sizes [[255]] [[0%Q]]
                  default_parameters TM_SQDIFF_NORMED [] [] 0%nat [] None H)).
Defined.


Lemma match_all_yields_the_matches_witness :
  let private := _match_all 3 _image_region_ref crop_ref grey_200
                            (Ok (frame_at 0)) default_parameters (Some Region.ALL) in
  let public := match_all 3 _image_region_ref crop_ref grey_200
                          (Ok (frame_at 0)) default_parameters (Some Region.ALL) in
  exists t f,
    (run private 3 MatchAllStart = ([t] ++ [f], Finished)
     /\ Forall (fun r => match_ r = true) [t] /\ match_ f = false)
    /\ run public 3 (false, MatchAllStart) = ([t], Finished).
Proof.
  cbn zeta.
  eexists _, _.
  assert (Hrun : run (_match_all 3 _image_region_ref crop_ref grey_200
                        (Ok (frame_at 0)) default_parameters (Some Region.ALL))
                     3 MatchAllStart
                 = ([_] ++ [_], Finished)) by (vm_compute; reflexivity).
  match type of Hrun with
  | _ = ([?t] ++ [?f], _) =>
      assert (Ht : Forall (fun r => match_ r = true) [t])
        by (repeat constructor);
      assert (Hf : match_ f = false) by reflexivity
  end.
  split; [split; [exact Hrun | split; [exact Ht | exact Hf]]|].
  exact (proj1 (proj1 (proj2 (match_all_yields_the_matches 3 _image_region_ref
                                crop_ref grey_200 (Ok (frame_at 0))
                                default_parameters (Some Region.ALL) 3 false
                                MatchAllStart))
                      _ _ _ Hrun Ht Hf)).
Defined.

Lemma get_frame_outcome_witness :
  let rounds : list Round := [([], 1%Q); ([CellFrame (frame_at 5)], 2%Q)] in
  (observed playing rounds !! 1%nat = Some (CellFrame (frame_at 5), 2%Q)
   /\ Forall (undecided (0 - 10) (0 + 10)) (take 1 (observed playing rounds))
   /\ (0 - 10 < 5)%Q)
  /\ (get_frame 10 None 0 rounds playing).2 = Done (Ok (frame_at 5)).
Proof.
  cbn zeta.
  assert (Hk : observed playing [([], 1%Q); ([CellFrame (frame_at 5)], 2%Q)] !! 1%nat
               = Some (CellFrame (frame_at 5), 2%Q)) by reflexivity.
  assert (Hpre : Forall (undecided (0 - 10) (0 + 10))
                        (take 1 (observed playing
                                   [([], 1%Q); ([CellFrame (frame_at 5)], 2%Q)]))).
  { repeat constructor; [discriminate | cbn; unfold Qlt; cbn; lia]. }
  assert (Hlt : (0 - 10 < 5)%Q) by reflexivity.
  split; [split; [exact Hk | split; [exact Hpre | exact Hlt]]|].
  exact (proj1 (get_frame_outcome 10 0 None _ playing 1 _ _ Hk Hpre)
               (frame_at 5) 5%Q eq_refl eq_refl Hlt).
Defined.

Lemma underruns_restart_once_witness :
  (source_pipeline playing = Some (mkPipeline GST_PLAYING true)
   /\ underrun_timeout playing = None
   /\ sources idle_loop !! next_source_id idle_loop = None)
  /\ Nat.iter 5 emit_underrun (playing, idle_loop) = emit_underrun (playing, idle_loop)
  /\ exists d' g',
      fire 1 (Nat.iter 5 emit_underrun (playing, idle_loop)) = Ok (d', g')
      /\ warnings g' = [restart_warning].
Proof.
  assert (Hfresh : sources idle_loop !! next_source_id idle_loop = None)
    by apply lookup_empty.
  split; [split; [reflexivity | split; [reflexivity | exact Hfresh]]|].
  destruct (underruns_restart_once 4 playing idle_loop (mkPipeline GST_PLAYING true)
              eq_refl eq_refl eq_refl Hfresh)
    as (Hone & _ & _ & _ & d' & g' & Hfire & Hwarn & _).
  split; [exact Hone|]. exists d', g'. split; [exact Hfire | exact Hwarn].
Defined.


Lemma no_region_absorbs_witness :
  let r := Region.make 0 0 1 1 in
  (has_area r /\ zero_area (Region.make 3 4 0 5))
  /\ Region.intersect (Some r) (Some Region.ALL) = Some r
  /\ Region.intersect (Some r) (Some (Region.make 3 4 0 5)) = None
  /\ (forall px py,
         covers (Region.intersect (Some r) (Some (Region.make 3 4 0 5))) px py = false)
  /\ Region.intersect (Some r) (Some (Region.make 3 4 0 5)) <> Some r.
Proof.
  cbn zeta.
  assert (Ha : has_area (Region.make 0 0 1 1)) by (split; reflexivity).
  assert (Hz : zero_area (Region.make 3 4 0 5))
    by (exists 3, 4, 0, 5; split; [reflexivity | left; reflexivity]).
  split; [split; [exact Ha | exact Hz]|].
  destruct (no_region_absorbs load_image_ref (Region.make 0 0 1 1) (mkShape 1 1 1))
    as (Hany & Hmodel & _ & _ & Hzero & Hall & _).
  destruct (Hany Region.intersect (Some (Region.make 3 4 0 5)) Hmodel
              (or_intror (ex_intro _ _ (conj eq_refl Hz))))
    as (Hnone & _ & _ & Hnot).
  split; [exact (proj1 (Hall Ha))|]. split; [exact (proj1 (Hzero _ Hz))|].
  split; [exact Hnone | exact (Hnot Ha)].
Defined.

Lemma solid_well_formed h w b g r : well_formed (solid h w b g r).
Proof.
  split; cbn [solid data shape rows cols].
  - apply length_replicate.
  - apply Forall_replicate, length_replicate.
Qed.

Lemma find_matches_matches_then_one_more_witness :
  exists fuel ts last,
    run (_find_matches 3 (solid 2 3 7 7 7) (solid 1 2 7 7 7) default_parameters)
        fuel FindStart
    = (ts ++ [last], Finished)
    /\ Forall (fun r => found_matched r = true) ts
    /\ found_matched last = false.
Proof.
  apply (find_matches_matches_then_one_more cv2_ref_sizes).
  - apply solid_well_formed.
  - apply solid_well_formed.
  - split; cbn; lia.
  - cbn; lia.
  - cbn; lia.
  - reflexivity.
  - lia.
  - exists TM_SQDIFF_NORMED. reflexivity.
  - left. reflexivity.
Defined.

(** [Mask(r) - Mask(z)] for a region [z] without area covers what [Mask(r)]
    covers. *)
Example difference_with_no_area :
  exists m,
    Mask_sub load_image_ref right_pixel (ArgRegion (Region.make 1 0 0 1)) = Ok m
    /\ (to_array load_image_ref m (mkShape 1 2 1)).2
       = Ok (mkArr (mkShape 1 2 1) [[[0]; [255]]])
    /\ (to_array load_image_ref right_pixel (mkShape 1 2 1)).2
       = Ok (mkArr (mkShape 1 2 1) [[[0]; [255]]]).
Proof. eexists. split; [reflexivity|]. split; reflexivity. Qed.

(** The reference correlation of images without negative values is not
    negative. *)
Lemma sum_products_nonneg (t i : list Z) :
  Forall (fun v => 0 <= v) t -> Forall (fun v => 0 <= v) i ->
  0 <= sum_Z (zip_with Z.mul t i).
Proof.
  intros Ht. revert i. induction Ht as [|a t Ha _ IH]; intros i Hi; [reflexivity|].
  destruct Hi as [|b i Hb Hi]; [reflexivity|].
  cbn [zip_with sum_Z fold_right]. specialize (IH i Hi).
  unfold sum_Z in IH. nia.
Qed.

Lemma score_correlation_nonneg window template :
  Forall (fun v => 0 <= v) window -> Forall (fun v => 0 <= v) template ->
  (0 <= score TM_CCORR_NORMED window template)%Q.
Proof.
  intros Hw Ht. unfold score.
  destruct (_ =? 0); [apply Qle_refl|].
  unfold Qle. cbn. pose proof (sum_products_nonneg template window Ht Hw). lia.
Qed.

Lemma values_slice_nonneg a r :
  Forall (fun v => 0 <= v) (values a) ->
  Forall (fun v => 0 <= v) (values (image_slice a r)).
Proof.
  unfold values, image_slice. cbn [data]. rewrite !Forall_concat.
  intros Ha. apply Forall_fmap.
  apply py_slice_Forall. eapply Forall_impl; [exact Ha|].
  intros row Hrow. cbn. apply py_slice_Forall, Hrow.
Qed.

Lemma matchTemplate_ref_nonneg image template :
  Forall (fun v => 0 <= v) (values image) ->
  Forall (fun v => 0 <= v) (values template) ->
  nonneg (matchTemplate_ref image template TM_CCORR_NORMED).
Proof.
  intros Hi Ht. unfold matchTemplate_ref, nonneg.
  apply Forall_fmap, Forall_forall. intros y _. cbv beta.
  apply Forall_fmap, Forall_forall. intros x _. cbv beta.
  apply score_correlation_nonneg; [apply values_slice_nonneg, Hi | exact Ht].
Qed.

Lemma find_matches_never_ends_witness :
  (TM_CCORR_NORMED <> TM_SQDIFF_NORMED
   /\ method_of (match_method anything_matches) = Ok TM_CCORR_NORMED
   /\ (match_threshold anything_matches <= 0)%Q
   /\ confirm_method anything_matches = "none"
   /\ fits grey_200 grey_200)
  /\ let out := run (_find_matches 3 grey_200 grey_200 anything_matches) 5 FindStart in
     length out.1 = 5%nat
     /\ Forall (fun y => found_matched y = true) out.1
     /\ out.2 = Suspended.
Proof.
  assert (Hfit : fits grey_200 grey_200) by (split; reflexivity).
  assert (Hthreshold : (match_threshold anything_matches <= 0)%Q) by apply Qle_refl.
  split; [repeat split; solve [discriminate | reflexivity | exact Hthreshold]|].
  apply (find_matches_never_ends cv2_ref_sizes 3 grey_200 grey_200 anything_matches
           TM_CCORR_NORMED).
  - discriminate.
  - reflexivity.
  - exact Hthreshold.
  - reflexivity.
  - intros l i t r Hi Ht. destruct l as [|l]; [|discriminate Hi].
    injection Hi as <-. injection Ht as <-.
    apply (matchTemplate_ref_nonneg (image_slice grey_200 r) grey_200).
    + apply values_slice_nonneg. repeat constructor; lia.
    + repeat constructor; lia.
  - exact Hfit.
  - cbn; lia.
  - cbn; lia.
  - reflexivity.
  - lia.
Defined.

Lemma double_inversion_is_the_mask_witness :
  memo_sound load_image_ref left_pixels
  /\ rbind (Mask_invert load_image_ref left_pixels) (Mask_invert load_image_ref)
     = Ok (set_array left_pixels None)
  /\ (to_array load_image_ref (set_array left_pixels None) (mkShape 1 2 1)).2
     = (to_array load_image_ref left_pixels (mkShape 1 2 1)).2.
Proof.
  assert (Ha : memo_sound load_image_ref left_pixels)
    by (split; [discriminate | exact I]).
  split; [exact Ha|].
  exact (double_inversion_is_the_mask load_image_ref load_image_ref_shape
           left_pixels (mkShape 1 2 1) Ha).
Defined.

Lemma inverted_union_is_difference_witness :
  (memo_sound load_image_ref left_pixels /\ memo_sound load_image_ref right_pixel)
  /\ exists l r,
      rbind (Mask_add load_image_ref left_pixels (ArgMask right_pixel))
            (Mask_invert load_image_ref) = Ok l
      /\ rbind (Mask_invert load_image_ref left_pixels)
               (fun na => Mask_sub load_image_ref na (ArgMask right_pixel)) = Ok r
      /\ (to_array load_image_ref l (mkShape 1 2 1)).2
         = (to_array load_image_ref r (mkShape 1 2 1)).2.
Proof.
  assert (Ha : memo_sound load_image_ref left_pixels)
    by (split; [discriminate | exact I]).
  assert (Hb : memo_sound load_image_ref right_pixel)
    by (split; [discriminate | exact I]).
  split; [split; [exact Ha | exact Hb]|].
  exact (inverted_union_is_difference load_image_ref load_image_ref_shape
           left_pixels right_pixel (mkShape 1 2 1) Ha Hb).
Defined.

Lemma union_laws_witness :
  (memo_sound load_image_ref left_pixels /\ memo_sound load_image_ref right_pixel)
  /\ exists aa,
      Mask_add load_image_ref right_pixel (ArgMask right_pixel) = Ok aa
      /\ (to_array load_image_ref aa (mkShape 1 2 1)).2
         = (to_array load_image_ref right_pixel (mkShape 1 2 1)).2.
Proof.
  assert (Ha : memo_sound load_image_ref left_pixels)
    by (split; [discriminate | exact I]).
  assert (Hb : memo_sound load_image_ref right_pixel)
    by (split; [discriminate | exact I]).
  split; [split; [exact Ha | exact Hb]|].
  exact (proj1 (proj2 (union_laws load_image_ref load_image_ref_shape
                         right_pixel left_pixels left_pixels (mkShape 1 2 1)
                         Hb Ha Ha))).
Defined.

Lemma difference_of_union_witness :
  (memo_sound load_image_ref left_pixels /\ memo_sound load_image_ref right_pixel)
  /\ exists l r,
      rbind (Mask_sub load_image_ref left_pixels (ArgMask right_pixel))
            (fun ab => Mask_sub load_image_ref ab (ArgMask left_pixels)) = Ok l
      /\ rbind (Mask_add load_image_ref right_pixel (ArgMask left_pixels))
               (fun bc => Mask_sub load_image_ref left_pixels (ArgMask bc)) = Ok r
      /\ (to_array load_image_ref l (mkShape 1 2 1)).2
         = (to_array load_image_ref r (mkShape 1 2 1)).2.
Proof.
  assert (Ha : memo_sound load_image_ref left_pixels)
    by (split; [discriminate | exact I]).
  assert (Hb : memo_sound load_image_ref right_pixel)
    by (split; [discriminate | exact I]).
  split; [split; [exact Ha | exact Hb]|].
  exact (difference_of_union load_image_ref load_image_ref_shape
           left_pixels right_pixel left_pixels (mkShape 1 2 1) Ha Hb Ha).
Defined.

Lemma to_array_again_witness :
  let s := mkShape 1 2 1 in
  let a := mkArr s [[[0]; [255]]] in
  let m1 := set_array right_pixel (Some a) in
  (memo_sound load_image_ref right_pixel
   /\ to_array load_image_ref right_pixel s = (m1, Ok a))
  /\ to_array load_image_ref m1 s = (m1, Ok a).
Proof.
  cbn zeta.
  assert (Ha : memo_sound load_image_ref right_pixel)
    by (split; [discriminate | exact I]).
  assert (H : to_array load_image_ref right_pixel (mkShape 1 2 1)
              = (set_array right_pixel (Some (mkArr (mkShape 1 2 1) [[[0]; [255]]])),
                 Ok (mkArr (mkShape 1 2 1) [[[0]; [255]]]))) by reflexivity.
  split; [split; [exact Ha | exact H]|].
  exact (to_array_again load_image_ref load_image_ref_shape right_pixel _
           (mkShape 1 2 1) _ Ha H).
Defined.

Lemma region_masks_are_binary_witness :
  (region_only left_pixels /\ memo_sound load_image_ref left_pixels
   /\ (to_array load_image_ref left_pixels (mkShape 1 2 1)).2
      = Ok (mkArr (mkShape 1 2 1) [[[0]; [0]]]))
  /\ binary (mkArr (mkShape 1 2 1) [[[0]; [0]]]).
Proof.
  assert (Hr : region_only left_pixels) by (split; [reflexivity | exact I]).
  assert (Ha : memo_sound load_image_ref left_pixels)
    by (split; [discriminate | exact I]).
  assert (H : (to_array load_image_ref left_pixels (mkShape 1 2 1)).2
              = Ok (mkArr (mkShape 1 2 1) [[[0]; [0]]])) by reflexivity.
  split; [split; [exact Hr | split; [exact Ha | exact H]]|].
  exact (region_masks_are_binary load_image_ref load_image_ref_shape left_pixels
           (mkShape 1 2 1) _ Hr Ha H).
Defined.
Lemma matches_lie_within_the_frame_witness :
  let image := solid 2 3 7 7 7 in
  let template := solid 1 2 7 7 7 in
  let second := mkFound true [Fin 0; Fin 1; Fin 2; Fin 2] true (294 # 294) in
  (match_method default_parameters = "sqdiff-normed"
   /\ In second
         (run (_find_matches 3 image template default_parameters) 4 FindStart).1
   /\ found_first_pass_matched second = true)
  /\ exists q, found_at template q second /\ in_bounds image template q.
Proof.
  cbn zeta.
  destruct (run (_find_matches 3 (solid 2 3 7 7 7) (solid 1 2 7 7 7)
                               default_parameters) 4 FindStart)
    as [ys e] eqn:Hrun.
  assert (Hin : In (mkFound true [Fin 0; Fin 1; Fin 2; Fin 2] true (294 # 294)) ys).
  { assert (Hys : ys = (run (_find_matches 3 (solid 2 3 7 7 7) (solid 1 2 7 7 7)
                                           default_parameters) 4 FindStart).1)
      by (rewrite Hrun; reflexivity).
    rewrite Hys. vm_compute. auto. }
  split; [split; [reflexivity | split; [exact Hin | reflexivity]]|].
  exact (matches_lie_within_the_frame cv2_ref_sizes 3 (solid 2 3 7 7 7)
           (solid 1 2 7 7 7) default_parameters (or_introl eq_refl)
           4 ys e _ Hrun Hin eq_refl).
Defined.

Lemma matches_do_not_overlap_witness :
  let image := solid 2 3 7 7 7 in
  let template := solid 1 2 7 7 7 in
  let first := mkFound true [Fin 0; Fin 0; Fin 2; Fin 1] true (294 # 294) in
  let second := mkFound true [Fin 0; Fin 1; Fin 2; Fin 2] true (294 # 294) in
  (match_method default_parameters = "sqdiff-normed"
   /\ (run (_find_matches 3 image template default_parameters) 4 FindStart).1 !! 0%nat
      = Some first
   /\ (run (_find_matches 3 image template default_parameters) 4 FindStart).1 !! 1%nat
      = Some second
   /\ found_first_pass_matched second = true)
  /\ exists p q, found_at template p first /\ found_at template q second
                 /\ ~ overlap template p q.
Proof.
  cbn zeta.
  destruct (run (_find_matches 3 (solid 2 3 7 7 7) (solid 1 2 7 7 7)
                               default_parameters) 4 FindStart)
    as [ys e] eqn:Hrun.
  assert (Hys : ys = (run (_find_matches 3 (solid 2 3 7 7 7) (solid 1 2 7 7 7)
                                         default_parameters) 4 FindStart).1)
    by (rewrite Hrun; reflexivity).
  assert (H0 : ys !! 0%nat
               = Some (mkFound true [Fin 0; Fin 0; Fin 2; Fin 1] true (294 # 294)))
    by (rewrite Hys; vm_compute; reflexivity).
  assert (H1 : ys !! 1%nat
               = Some (mkFound true [Fin 0; Fin 1; Fin 2; Fin 2] true (294 # 294)))
    by (rewrite Hys; vm_compute; reflexivity).
  split; [split; [reflexivity | split; [exact H0 | split; [exact H1 | reflexivity]]]|].
  exact (matches_do_not_overlap cv2_ref_sizes 3 (solid 2 3 7 7 7)
           (solid 1 2 7 7 7) default_parameters (or_introl eq_refl)
           4 ys e 0 1 _ _ Hrun (Nat.lt_0_1) H0 H1 eq_refl).
Defined.

Lemma identical_region_is_confirmed_witness :
  (region_slice grey_200 (Region.make 0 0 1 1) = Ok grey_200
   /\ (0 <= confirm_threshold default_parameters)%Q)
  /\ _confirm_match grey_200 grey_200 default_parameters (Region.make 0 0 1 1)
     = Ok true.
Proof.
  assert (Hroi : region_slice grey_200 (Region.make 0 0 1 1) = Ok grey_200)
    by reflexivity.
  assert (Hct : (0 <= confirm_threshold default_parameters)%Q) by discriminate.
  split; [split; [exact Hroi | exact Hct]|].
  exact (identical_region_is_confirmed grey_200 grey_200 default_parameters
           (Region.make 0 0 1 1) Hroi Hct).
Defined.

Lemma relaxed_parameters_keep_the_match_witness :
  let relaxed := mkMatchParameters "sqdiff-normed" (8 # 10) "absdiff" (30 # 100) 2 in
  (confirm_method relaxed = confirm_method default_parameters
   /\ (0 <= confirm_threshold default_parameters)%Q
   /\ (confirm_threshold default_parameters <= confirm_threshold relaxed)%Q
   /\ (erode_passes default_parameters <= erode_passes relaxed)%nat
   /\ _confirm_match grey_200 grey_200 default_parameters (Region.make 0 0 1 1)
      = Ok true)
  /\ _confirm_match grey_200 grey_200 relaxed (Region.make 0 0 1 1) = Ok true.
Proof.
  cbn zeta.
  assert (Hct : (0 <= confirm_threshold default_parameters)%Q) by discriminate.
  assert (Hle : (confirm_threshold default_parameters <= 30 # 100)%Q)
    by (unfold Qle; cbn; lia).
  assert (Hep : (erode_passes default_parameters <= 2)%nat) by (cbn; lia).
  assert (Hok : _confirm_match grey_200 grey_200 default_parameters
                               (Region.make 0 0 1 1) = Ok true) by reflexivity.
  split; [split; [reflexivity | split; [exact Hct | split; [exact Hle | split;
    [exact Hep | exact Hok]]]]|].
  exact (relaxed_parameters_keep_the_match grey_200 grey_200 default_parameters
           (mkMatchParameters "sqdiff-normed" (8 # 10) "absdiff" (30 # 100) 2)
           (Region.make 0 0 1 1) eq_refl Hct Hle Hep Hok).
Defined.
Lemma wait_for_match_returns_a_run_witness :
  let detect :=
    detect_match Script script_time script_get_frame false 3 _image_region_ref
                 crop_ref grey_200 default_parameters (Some Region.ALL) (Some 5%Q) in
  let start := script 10 [frame_150 11; frame_200 12; frame_200 16] in
  exists r,
    (1 <= 1
     /\ wait_for_match Script script_time script_get_frame false 3 _image_region_ref
                       crop_ref grey_200 "grey.png" default_parameters
                       (Some Region.ALL) (Some 5%Q) 1 5 start
        = Returned r)
    /\ exists seen,
        run detect (length seen) start = (seen, Suspended)
        /\ (length seen <= 5)%nat
        /\ List.last seen r = r
        /\ (Z.to_nat 1 <= length seen)%nat
        /\ Forall (same_place r) (drop (length seen - Z.to_nat 1) seen).
Proof.
  cbn zeta.
  destruct (wait_for_match Script script_time script_get_frame false 3
              _image_region_ref crop_ref grey_200 "grey.png" default_parameters
              (Some Region.ALL) (Some 5%Q) 1 5
              (script 10 [frame_150 11; frame_200 12; frame_200 16]))
    as [r| |] eqn:H; try (exfalso; vm_compute in H; discriminate H).
  exists r. split; [split; [lia | reflexivity]|].
  exact (wait_for_match_returns_a_run _ _ "grey.png" (Some 5%Q) 1 ltac:(lia) 5 _ r H).
Defined.

Lemma wait_for_match_times_out_witness :
  let detect :=
    detect_match Script script_time script_get_frame false 3 _image_region_ref
                 crop_ref grey_200 default_parameters (Some Region.ALL) (Some 5%Q) in
  let start := script 10 [frame_150 11; frame_150 12; frame_200 16] in
  (exists ys,
      run detect 5 start = (ys, Finished)
      /\ Z.of_nat (length (filter (fun y => match_ y = true) ys)) < 1)
  /\ wait_for_match Script script_time script_get_frame false 3 _image_region_ref
                    crop_ref grey_200 "grey.png" default_parameters
                    (Some Region.ALL) (Some 5%Q) 1 5 start
     = Threw (MatchTimeout (frame_150 12) "grey.png" (Some 5%Q)).
Proof.
  cbn zeta.
  destruct (run (detect_match Script script_time script_get_frame false 3
                   _image_region_ref crop_ref grey_200 default_parameters
                   (Some Region.ALL) (Some 5%Q)) 5
                (script 10 [frame_150 11; frame_150 12; frame_200 16]))
    as [ys e] eqn:Hrun.
  assert (Hval : (ys, e)
                 = ([mkMatchResult (Some 11%Q) false (Region.make 0 0 1 1)
                       (82500 # 90000) (frame_150 11) grey_200 true;
                     mkMatchResult (Some 12%Q) false (Region.make 0 0 1 1)
                       (82500 # 90000) (frame_150 12) grey_200 true], Finished))
    by (rewrite <- Hrun; vm_compute; reflexivity).
  injection Hval as Hys He. subst e.
  assert (Hfew : Z.of_nat (length (filter (fun y => match_ y = true) ys)) < 1)
    by (rewrite Hys; vm_compute; reflexivity).
  split; [exists ys; split; [reflexivity | exact Hfew]|].
  unfold wait_for_match.
  rewrite (wait_for_match_times_out _ _ "grey.png" (Some 5%Q) 1 5 _ ys Hrun Hfew).
  rewrite Hys. reflexivity.
Defined.

Lemma frames_yields_first_then_on_time_witness :
  let start := script 10 [frame_200 16; frame_200 12; frame_200 17; frame_200 13] in
  exists ys,
    run (frames Script script_time script_get_frame false (Some 5%Q)) 5 start
    = (ys, Finished)
    /\ ys = [frame_200 16; frame_200 12]
    /\ ys <> []
    /\ Forall (fun f => later_than (time f) ((script_time start.(world)).1 + 5)%Q = false)
              (tail ys).
Proof.
  cbn zeta.
  destruct (run (frames Script script_time script_get_frame false (Some 5%Q)) 5
                (script 10 [frame_200 16; frame_200 12; frame_200 17; frame_200 13]))
    as [ys e] eqn:Hrun.
  assert (Hval : (ys, e) = ([frame_200 16; frame_200 12], Finished))
    by (rewrite <- Hrun; vm_compute; reflexivity).
  injection Hval as Hys He. subst e.
  exists ys. split; [reflexivity|]. split; [exact Hys|].
  destruct (frames_yields_first_then_on_time Script script_time script_get_frame
              false (Some 5%Q) 5 (Some 0%Q) (10%Q, _) ys Finished Hrun)
    as (Hfirst & Hon_time & _).
  split; [exact (Hfirst eq_refl) | exact (Hon_time 5%Q eq_refl)].
Defined.

Lemma wait_until_ends_at_expiry_witness :
  let calls := [(1%Q, Ok PyNone); (11%Q, Ok PyNone); (12%Q, Ok (PyInt 1))] in
  (calls !! 1%nat = Some (11%Q, Ok PyNone) /\ Qle_bool (0 + 10) 11 = true)
  /\ wait_until PyValue PyValue PyValue_truthy PyNone Ok PyValue_truthy PyNone
                PyValue_ne 0 10 0 calls
     = Returned PyNone.
Proof.
  cbn zeta. split; [split; reflexivity|].
  rewrite (proj1 (wait_until_ends_at_expiry PyValue PyValue PyValue_truthy PyNone Ok
                    PyValue_truthy PyNone PyValue_ne 0 10 0
                    [(1%Q, Ok PyNone); (11%Q, Ok PyNone); (12%Q, Ok (PyInt 1))]
                    1 11 (Ok PyNone) eq_refl eq_refl)).
  reflexivity.
Defined.

Lemma wait_until_returns_the_first_success_witness :
  (Qeq_bool 0 0 = true
   /\ Forall (rejected PyValue PyValue Ok PyValue_truthy (0 + 10))
             [(1%Q, Ok PyNone); (2%Q, Ok (PyInt 0))]
   /\ PyValue_truthy (PyInt 7) = true)
  /\ wait_until PyValue PyValue PyValue_truthy PyNone Ok PyValue_truthy PyNone
                PyValue_ne 0 10 0
                ([(1%Q, Ok PyNone); (2%Q, Ok (PyInt 0))]
                 ++ (3%Q, Ok (PyInt 7)) :: [(4%Q, Ok (PyInt 8))])
     = Returned (PyInt 7).
Proof.
  assert (Hbefore : Forall (rejected PyValue PyValue Ok PyValue_truthy (0 + 10))
                           [(1%Q, Ok PyNone); (2%Q, Ok (PyInt 0))]).
  { repeat constructor; eexists; split; reflexivity. }
  split; [split; [reflexivity | split; [exact Hbefore | reflexivity]]|].
  exact (wait_until_returns_the_first_success PyValue PyValue PyValue_truthy PyNone Ok
           PyValue_truthy PyNone PyValue_ne 0 10 0 _ _ 3 (PyInt 7) (PyInt 7)
           eq_refl Hbefore eq_refl eq_refl).
Defined.

Lemma wait_until_returns_a_stable_value_witness :
  let calls := [(1%Q, Ok (PyInt 5)); (2%Q, Ok (PyInt 7)); (3%Q, Ok (PyInt 7));
                (4%Q, Ok (PyInt 7))] in
  ((forall p, PyValue_ne p PyNone = false -> PyValue_truthy p = false)
   /\ Qeq_bool 2 0 = false)
  /\ wait_until PyValue PyValue PyValue_truthy PyNone Ok PyValue_truthy PyNone
                PyValue_ne 0 10 2 calls
     = Returned (PyInt 7)
  /\ ((exists i j,
          stable_from PyValue PyValue Ok PyValue_truthy PyValue_ne 2 calls i j (PyInt 7))
      \/ (exists j tj vj,
             calls !! j = Some (tj, Ok vj)
             /\ Qle_bool (0 + 10) tj = true
             /\ PyInt 7 = if negb (PyValue_truthy vj) then vj else PyNone)).
Proof.
  cbn zeta.
  assert (Hnone : forall p, PyValue_ne p PyNone = false -> PyValue_truthy p = false)
    by (intros [|z]; [reflexivity | discriminate]).
  split; [split; [exact Hnone | reflexivity]|].
  split; [reflexivity|].
  exact (wait_until_returns_a_stable_value PyValue PyValue PyValue_truthy PyNone Ok
           PyValue_truthy PyNone PyValue_ne 0 10 2
           [(1%Q, Ok (PyInt 5)); (2%Q, Ok (PyInt 7)); (3%Q, Ok (PyInt 7));
            (4%Q, Ok (PyInt 7))] Hnone eq_refl).
Defined.

Lemma is_screen_black_iff_witness :
  masked_grey _image_region_ref crop_ref (frame_at 0) None (Some Region.ALL)
  = Ok [[200]]
  /\ is_screen_black _image_region_ref crop_ref (Ok (frame_at 0)) None 10
                     (Some Region.ALL)
     = Ok (mk_IsScreenBlackResult false (frame_at 0))
  /\ (black (mk_IsScreenBlackResult false (frame_at 0)) = true
      <-> Forall (Forall (fun v => v <= 10)) [[200]]).
Proof.
  assert (Hgrey : masked_grey _image_region_ref crop_ref (frame_at 0) None
                              (Some Region.ALL) = Ok [[200]]) by reflexivity.
  split; [exact Hgrey|]. split; [reflexivity|].
  exact (proj2 (proj2 (is_screen_black_iff _image_region_ref crop_ref (frame_at 0)
                         None 10 (Some Region.ALL) [[200]] Hgrey))).
Defined.

Lemma on_sample_holds_frames_back_witness :
  exists s',
    on_sample sink (sample_at (16 # 10)) = Ok s'
    /\ exists pushed_now oldest rest,
        map pushed_sample (appsrc s') = map pushed_sample (appsrc sink) ++ pushed_now
        /\ pushed_now ++ _frames s' = appendleft (_frames sink) (sample_at (16 # 10))
        /\ Forall (fun f => (sample_time f <= sample_time (sample_at (16 # 10)) - (1 # 2))%Q)
                  pushed_now
        /\ _frames s' = oldest :: rest
        /\ (sample_time (sample_at (16 # 10)) - (1 # 2) < sample_time oldest)%Q
        /\ List.last (_frames s') oldest = sample_at (16 # 10)
        /\ _sample_count s' = (_sample_count sink + length pushed_now)%nat.
Proof.
  destruct (on_sample sink (sample_at (16 # 10))) as [s'|e] eqn:H;
    [|exfalso; vm_compute in H; discriminate H].
  exists s'. split; [reflexivity|].
  exact (on_sample_holds_frames_back sink s' (sample_at (16 # 10)) H).
Defined.

Lemma teardown_is_final_witness :
  let armed := mkMainLoop {[ 1%nat := (5000, start_source_handler) ]} 2 [] in
  (exists d' g',
      handle_all [EndOfStream; TimeoutExpires 1; QueueEmits Underrun]
                 (Display_exit playing, armed) = Ok (d', g')
      /\ source_pipeline d' = None
      /\ tearing_down d' = true
      /\ warnings g' = warnings armed
      /\ sources g' = {[ 2%nat := (2000, restart_source_handler) ]})
  /\ handle_all [QueueEmits Underrun; TimeoutExpires 2] (Display_exit playing, armed)
     = Raise (AttributeError "'NoneType' object has no attribute 'set_state'").
Proof.
  cbn zeta.
  pose proof (teardown_is_final [EndOfStream; TimeoutExpires 1; QueueEmits Underrun]
                playing
                (mkMainLoop {[ 1%nat := (5000, start_source_handler) ]} 2 []))
    as [Hok Hraise].
  split; [|exact (Hraise eq_refl)].
  destruct (handle_all [EndOfStream; TimeoutExpires 1; QueueEmits Underrun]
              (Display_exit playing,
               mkMainLoop {[ 1%nat := (5000, start_source_handler) ]} 2 []))
    as [[d' g']|e] eqn:H.
  - destruct Hok as (Hp & Ht & Hw & _). exists d', g'.
    split; [reflexivity|]. split; [exact Hp|]. split; [exact Ht|].
    split; [exact Hw|].
    cbn [handle_all handle rbind on_eos_from_source_pipeline Display_exit
         tearing_down set_source_pipeline set_tearing_down negb] in H.
    cbn [fire sources] in H. rewrite lookup_singleton_eq in H.
    cbn in H. injection H as _ <-. cbn [sources].
    rewrite delete_singleton_eq. apply insert_empty.
  - exfalso. cbn [handle_all handle rbind on_eos_from_source_pipeline Display_exit
                  tearing_down set_source_pipeline set_tearing_down negb] in H.
    cbn [fire sources] in H. rewrite lookup_singleton_eq in H.
    discriminate H.
Defined.

Lemma restart_after_eos_without_underrun_witness :
  (source_pipeline playing = Some (mkPipeline GST_PLAYING true)
   /\ tearing_down playing = false
   /\ restart_source_enabled playing = true
   /\ underrun_timeout playing = None)
  /\ exists d1 g1,
      on_eos_from_source_pipeline (playing, idle_loop) = Ok (d1, g1)
      /\ fire 1 (d1, g1)
         = Raise (AttributeError "'NoneType' object has no attribute 'start'").
Proof.
  split; [repeat split|].
  destruct (restart_after_eos_without_underrun playing idle_loop
              (mkPipeline GST_PLAYING true) eq_refl eq_refl eq_refl eq_refl)
    as (d1 & g1 & Heos & _ & _ & Hfire).
  exists d1, g1. split; [exact Heos | exact Hfire].
Defined.

Lemma restarted_source_is_watched_witness :
  (source_pipeline playing = Some (mkPipeline GST_PLAYING true)
   /\ tearing_down playing = false
   /\ restart_source_enabled playing = true
   /\ underrun_timeout playing = None
   /\ forall i, (next_source_id idle_loop <= i)%nat -> sources idle_loop !! i = None)
  /\ exists d1 g1 d2 g2,
      fire 1 (emit_underrun (playing, idle_loop)) = Ok (d1, g1)
      /\ fire 2 (d1, g1) = Ok (d2, g2)
      /\ source_pipeline d2 = Some (mkPipeline GST_PLAYING true)
      /\ underrun_timeout d2
         = Some (mkGObjectTimeout 2 restart_source_handler (Some 3%nat)).
Proof.
  assert (Hfresh : forall i, (next_source_id idle_loop <= i)%nat ->
                             sources idle_loop !! i = None)
    by (intros i _; apply lookup_empty).
  split; [repeat split; exact Hfresh|].
  destruct (restarted_source_is_watched playing idle_loop
              (mkPipeline GST_PLAYING true) eq_refl eq_refl eq_refl eq_refl eq_refl
              Hfresh)
    as (d1 & g1 & d2 & g2 & H1 & H2 & Hp & Hu & _).
  exists d1, g1, d2, g2. auto.
Defined.

Lemma debounce_one_timeout_witness :
  (source_pipeline playing = Some (mkPipeline GST_PLAYING true)
   /\ (1 <= next_source_id idle_loop)%nat
   /\ debouncing ∅ (playing, idle_loop))
  /\ debouncing ∅
       (fold_left (fun s e => emit e s) [Underrun; Underrun; Running; Underrun]
                  (playing, idle_loop)).
Proof.
  assert (Hstart : debouncing ∅ (playing, idle_loop)) by (left; split; reflexivity).
  split; [split; [reflexivity | split; [cbn; lia | exact Hstart]]|].
  apply (debounce_one_timeout [Underrun; Underrun; Running; Underrun] ∅
           (mkPipeline GST_PLAYING true) (playing, idle_loop));
    [reflexivity | reflexivity | cbn; lia | intros; apply lookup_empty | exact Hstart].
Defined.

Lemma press_until_match_presses_witness :
  let timed_out := fun w : unit =>
    (Threw (A:=MatchResult) (MatchTimeout (frame_200 12) "menu.png" (Some 3%Q)), w) in
  (press_until_match unit timed_out Ok 3 2 tt).2 = 2
  /\ (press_until_match unit timed_out Ok 3 2 tt).1 <> Pending.
Proof.
  pose proof (press_until_match_presses unit
                (fun w : unit =>
                   (Threw (A:=MatchResult)
                          (MatchTimeout (frame_200 12) "menu.png" (Some 3%Q)), w))
                Ok 3 2 tt) as [_ [Hraised Hback]].
  split.
  - exact (Hraised (frame_200 12) "menu.png"%string (Some 3%Q) eq_refl).
  - apply Hback; [cbn; lia | intros w'; discriminate].
Defined.
